(** * Ant System foraging simulation (heuristic/ACO): model and verification

    Shallow embedding of [entity/Position.js], [entity/World.js],
    [entity/Ant.js] and of the driver loop [_run] of [aco.js].

    Conventions of the model.

    - A JavaScript number is modelled as an exact rational ([Q]); rounding,
      [NaN] and the infinities of IEEE doubles are outside this model.
      [Number.MAX_VALUE] is the rational [(2^53 - 1) * 2^971].  Where the
      overflow or the rounding of doubles decides what the source does,
      in the normalisation of the transition probabilities and in the
      evaporation, the module [Double] repeats the computation on
      binary64 floats.
    - A JavaScript object reference is a location ([loc]); the objects of
      class [Position] live in a heap [loc -> Position.t], so that the grid,
      the paths of the ants and the check list alias the same cells, as they
      do in the source.  Strict equality [===] of references is equality of
      locations.
    - [Math.random()] reads the next value of a stream of draws.
    - [Math.pow], [Math.sqrt] and the table [Direction.M] (whose file is not
      part of the sources) are parameters of the model.
    - Of the DOM only the opacity written by [showPheromone] is kept: it is
      the intensity handed to the renderer. *)

From Stdlib Require Import ZArith QArith Qround Qminmax List Lia Lqa Bool Arith.
From Stdlib Require Import PrimFloat Uint63.
From Stdlib Require SpecFloat FloatOps FloatAxioms.
Import ListNotations.

Set Implicit Arguments.
Set Warnings "-inexact-float".

(** ** Numbers *)

(** [a < b] and [a > b] on numbers, as booleans. *)
Definition Qltb (a b : Q) : bool := negb (Qle_bool b a).
Definition Qgtb (a b : Q) : bool := Qltb b a.

Definition Number_MAX_VALUE : Q := inject_Z ((2 ^ 53 - 1) * 2 ^ 971).

(** The type of JavaScript numbers.  ([World.Q] below is the deposit
    constant of the source; the type is written [number] throughout.) *)
Abbreviation number := Q (only parsing).

(** Object references, and the heap of [Position] objects. *)
Definition loc := nat.

(** ** Position.js *)

Module Position.

(** [Position.TYPE_HOME = 2], [TYPE_FOOD = 1], [TYPE_NORMAL = 0],
    [TYPE_BARRIER = -1]. *)
Inductive CellType := TYPE_HOME | TYPE_FOOD | TYPE_NORMAL | TYPE_BARRIER.

(** [Position.P_TYPE_FOOD = 1001], [P_TYPE_HOME = 1002]: the two indices of
    the array [this.pheromone]. *)
Inductive PType := P_TYPE_FOOD | P_TYPE_HOME.

Definition CellType_eqb (a b : CellType) : bool :=
  match a, b with
  | TYPE_HOME, TYPE_HOME | TYPE_FOOD, TYPE_FOOD
  | TYPE_NORMAL, TYPE_NORMAL | TYPE_BARRIER, TYPE_BARRIER => true
  | _, _ => false
  end.

Record t := mk {
  x : Z;
  y : Z;
  pheromone_FOOD : Q;   (* this.pheromone[Position.P_TYPE_FOOD] *)
  pheromone_HOME : Q;   (* this.pheromone[Position.P_TYPE_HOME] *)
  type : CellType
}.

(** [new Position(world, x, y, fp, hp, type)]; an omitted argument is
    [None]. *)
Definition new (x y : Z) (fp hp : option Q) (type : option CellType) : t :=
  {| x := x; y := y;
     pheromone_FOOD := match fp with Some v => v | None => 0 end;
     pheromone_HOME := match hp with Some v => v | None => 0 end;
     type := match type with Some ty => ty | None => TYPE_NORMAL end |}.

Definition getP (this : t) (pType : PType) : Q :=
  match pType with
  | P_TYPE_FOOD => pheromone_FOOD this
  | P_TYPE_HOME => pheromone_HOME this
  end.

(** [this.pheromone[pType] = v] *)
Definition setP (this : t) (pType : PType) (v : Q) : t :=
  match pType with
  | P_TYPE_FOOD =>
      {| x := x this; y := y this; pheromone_FOOD := v;
         pheromone_HOME := pheromone_HOME this; type := type this |}
  | P_TYPE_HOME =>
      {| x := x this; y := y this; pheromone_FOOD := pheromone_FOOD this;
         pheromone_HOME := v; type := type this |}
  end.

(** [this.type = ty] *)
Definition setType (this : t) (ty : CellType) : t :=
  {| x := x this; y := y this; pheromone_FOOD := pheromone_FOOD this;
     pheromone_HOME := pheromone_HOME this; type := ty |}.

(** [move(direction, map, deep)]: the reference stored at
    [map[x][y]], or [None] for [null].  The grid built by the constructor
    of [World] is rectangular; on a ragged grid the source would read
    [undefined] where this model answers [None]. *)
Definition move (this : t) (direction : Z * Z) (map : list (list loc))
    (deep : option Z) : option loc :=
  let deep := match deep with Some d => d | None => 1%Z end in
  let x := (x this + fst direction * deep)%Z in
  let y := (y this + snd direction * deep)%Z in
  if ((x <? 0) || (y <? 0)
      || (x >=? Z.of_nat (length map))
      || (y >=? Z.of_nat (length (hd [] map))))%Z
  then None
  else match nth_error map (Z.to_nat x) with
       | Some row => nth_error row (Z.to_nat y)
       | None => None
       end.

(** The literal [1e-10] of [evaporatePheromone]. *)
Definition noise : Q := 1 # 10000000000.

Definition evaporatePheromone (this : t) (rho : Q) : t :=
  match type this with
  | TYPE_NORMAL =>
      let this := setP this P_TYPE_FOOD (getP this P_TYPE_FOOD * (1 - rho)) in
      let this := setP this P_TYPE_HOME (getP this P_TYPE_HOME * (1 - rho)) in
      let this :=
        if Qltb (getP this P_TYPE_FOOD) noise
        then setP this P_TYPE_FOOD 0 else this in
      if Qltb (getP this P_TYPE_HOME) noise
      then setP this P_TYPE_HOME 0 else this
  | _ => this
  end.

Definition addPheromone (this : t) (amount : Q) (pType : PType) : t :=
  match type this with
  | TYPE_NORMAL => setP this pType (getP this pType + amount)
  | _ => this
  end.

(** [showPheromone(maxVal, showType)]: the opacity written to the DOM
    element of the cell, [None] when nothing is written. *)
Definition showPheromone (this : t) (maxVal : Q) (showType : PType)
    : option Q :=
  match type this with
  | TYPE_NORMAL =>
      let p := getP this showType in
      let a := if Qgtb maxVal 0 then p / maxVal else 0 in
      let a := if Qgtb a 1 then 1 else a in
      let a := if Qltb a 0 then 0 else a in
      Some a
  | _ => None
  end.

Definition changeType (this : t) (ty : CellType) : t :=
  let this := setType this ty in
  let this :=
    match ty with
    | TYPE_BARRIER =>
        setP (setP this P_TYPE_FOOD 0) P_TYPE_HOME 0
    | _ => this
    end in
  match ty with
  | TYPE_FOOD =>
      setP (setP this P_TYPE_FOOD Number_MAX_VALUE) P_TYPE_HOME 0
  | _ => this
  end.

End Position.

Definition Heap := loc -> Position.t.

(** In-place mutation of the object at [l]. *)
Definition upd (h : Heap) (l : loc) (p : Position.t) : Heap :=
  fun l' => if Nat.eqb l' l then p else h l'.

(** [Math.random()]: a stream of draws and the index of the next one. *)
Record Rng := { draws : nat -> number; pos : nat }.

Definition Math_random (g : Rng) : number * Rng :=
  (draws g (pos g), {| draws := draws g; pos := S (pos g) |}).

(** ** World.js *)

Module World.

(** The static properties [World.alpha], [World.beta], ... : globals
    written by the settings form and read by every ant and cell. *)
Record Params := {
  alpha : number;
  beta : number;
  rho : number;
  Q : number;
  tau0 : number;
  ANT_NUMBER : Z;
  maxPathLength : Z;
  maxPathLengthMax : Z;
  stepsPerTick : Z;
  showPheromoneType : Position.PType
}.

Record t := mk {
  map : list (list loc);
  checkList : list loc;
  homePosition : loc
}.

Definition setCheckList (this : t) (cl : list loc) : t :=
  {| map := map this; checkList := cl; homePosition := homePosition this |}.

(** The loop of [_getCheckedIndex], entered at index [i]. *)
Fixpoint _getCheckedIndex_from (cl : list loc) (position : loc) (i : Z) : Z :=
  match cl with
  | [] => (-1)%Z
  | c :: rest =>
      if Nat.eqb position c then i
      else _getCheckedIndex_from rest position (i + 1)%Z
  end.

Definition _getCheckedIndex (this : t) (position : loc) : Z :=
  _getCheckedIndex_from (checkList this) position 0%Z.

(** [a.splice(idx, 1)] for [0 <= idx]. *)
Definition splice1 (a : list loc) (idx : nat) : list loc :=
  firstn idx a ++ skipn (S idx) a.

Definition addCheckList (this : t) (position : loc) : t :=
  let idx := _getCheckedIndex this position in
  let cl := if (idx >=? 0)%Z then splice1 (checkList this) (Z.to_nat idx)
            else checkList this in
  setCheckList this (cl ++ [position]).

(** First loop of [evaporateAndRender]: one iteration, on the heap and
    the running maximum [maxP]. *)
Definition evaporateStep (P : Params) (acc : Heap * number) (pos : loc)
    : Heap * number :=
  let '(h, maxP) := acc in
  let h := upd h pos (Position.evaporatePheromone (h pos) (rho P)) in
  let p := Position.getP (h pos) (showPheromoneType P) in
  if Position.CellType_eqb (Position.type (h pos)) Position.TYPE_NORMAL
     && Qgtb p maxP
  then (h, p) else (h, maxP).

(** [evaporateAndRender()]: the heap after the pass, and for every entry
    of the check list the opacity written by [showPheromone]. *)
Definition evaporateAndRender (P : Params) (h : Heap) (this : t)
    : Heap * list (loc * option number) :=
  let '(h, maxP) := fold_left (evaporateStep P) (checkList this) (h, 0) in
  let renderMax := if Qgtb maxP 0 then maxP else 1 in
  (h, List.map (fun pos =>
                  (pos, Position.showPheromone (h pos) renderMax
                          (showPheromoneType P)))
               (checkList this)).

End World.

(** ** Ant.js *)

Module Ant.

Inductive Status := STATUS_FIND_FOOD | STATUS_CARRY_FOOD.

Record t := mk {
  path : list loc;
  status : Status;
  homePosition : loc;
  _maxPath : Z
}.

Definition setPath (this : t) (p : list loc) : t :=
  {| path := p; status := status this; homePosition := homePosition this;
     _maxPath := _maxPath this |}.

Definition setStatus (this : t) (s : Status) : t :=
  {| path := path this; status := s; homePosition := homePosition this;
     _maxPath := _maxPath this |}.

(** The loop of [Ant.rouletteWheel] for the draw [r], entered at index [i]
    with the running sum [cumulative]; [None] when the loop runs out. *)
Fixpoint rouletteWheel_from (r : number) (probs : list number) (i : Z)
    (cumulative : number) : option Z :=
  match probs with
  | [] => None
  | p :: rest =>
      let cumulative := cumulative + p in
      if Qle_bool r cumulative then Some i
      else rouletteWheel_from r rest (i + 1)%Z cumulative
  end.

(** [Ant.rouletteWheel(probs)] once [Math.random()] has returned [r]. *)
Definition rouletteWheel_at (r : number) (probs : list number) : Z :=
  match rouletteWheel_from r probs 0%Z 0 with
  | Some i => i
  | None => (Z.of_nat (length probs) - 1)%Z
  end.

Definition rouletteWheel (probs : list number) (g : Rng) : Z * Rng :=
  let '(r, g) := Math_random g in
  (rouletteWheel_at r probs, g).

(** [_init()]: back to the home cell, with a fresh path-length cap. *)
Definition _init (P : World.Params) (w : World.t) (g : Rng) : t * Rng :=
  let min := World.maxPathLength P in
  let max := World.maxPathLengthMax P in
  let '(r, g) := Math_random g in
  ({| path := [World.homePosition w];
      status := STATUS_FIND_FOOD;
      homePosition := World.homePosition w;
      _maxPath := (min + Qfloor (r * inject_Z (max - min + 1)))%Z |}, g).

(** [_isInPath(position)] *)
Fixpoint _isInPath_from (path : list loc) (position : loc) : bool :=
  match path with
  | [] => false
  | p :: rest => if Nat.eqb p position then true
                 else _isInPath_from rest position
  end.

Definition _isInPath (this : t) (position : loc) : bool :=
  _isInPath_from (path this) position.

(** [a[idx]] for a number [idx]: [None] stands for [undefined]. *)
Definition index (a : list loc) (idx : Z) : option loc :=
  if (idx <? 0)%Z then None else nth_error a (Z.to_nat idx).

(** The normalisation at the end of [_selectNext], on the array [values]
    and the sum [sum] left by the loop before it. *)
Definition normalize (values : list number) (sum : number) : list number :=
  if Qgtb sum 0
  then List.map (fun v => v / sum) values
  else List.map (fun _ => 1 / inject_Z (Z.of_nat (length values))) values.

Section WithEnvironment.

(** [Direction.M], [Math.pow] and [Math.sqrt]. *)
Variable Direction_M : list (Z * Z).
Variable Math_pow : number -> number -> number.
Variable Math_sqrt : number -> number.

(** [_getNeighbors(position)]: one iteration of the loop over
    [Direction.M]. *)
Definition neighborStep (h : Heap) (w : World.t) (position : loc)
    (neighbors : list loc) (d : Z * Z) : list loc :=
  match Position.move (h position) d (World.map w) None with
  | Some np =>
      if negb (Position.CellType_eqb (Position.type (h np))
                 Position.TYPE_BARRIER)
      then neighbors ++ [np] else neighbors
  | None => neighbors
  end.

Definition _getNeighbors (h : Heap) (w : World.t) (position : loc)
    : list loc :=
  fold_left (neighborStep h w position) Direction_M [].

(** The tabu filter of [_selectNext], with its deadlock escape. *)
Definition tabuStep (this : t) (allowed : list loc) (n : loc) : list loc :=
  if negb (_isInPath this n) then allowed ++ [n] else allowed.

Definition allowedOf (this : t) (neighbors : list loc) : list loc :=
  let allowed := fold_left (tabuStep this) neighbors [] in
  if Nat.eqb (length allowed) 0 then neighbors else allowed.

(** The body of the loop that fills [values]: [val] for the candidate
    [c]. *)
Definition val (P : World.Params) (h : Heap) (this : t) (c : loc)
    : number :=
  let '(tau, eta) :=
    match status this with
    | STATUS_FIND_FOOD =>
        (Position.getP (h c) Position.P_TYPE_FOOD + World.tau0 P, 1)
    | _ =>
        let tau := Position.getP (h c) Position.P_TYPE_HOME
                   + World.tau0 P in
        let dx := (Position.x (h c)
                   - Position.x (h (homePosition this)))%Z in
        let dy := (Position.y (h c)
                   - Position.y (h (homePosition this)))%Z in
        let dist := Math_sqrt (inject_Z (dx * dx + dy * dy)) in
        (tau, if Qgtb dist 0 then 1 / dist else 100)
    end in
  Math_pow tau (World.alpha P) * Math_pow eta (World.beta P).

Definition valueStep (P : World.Params) (h : Heap) (this : t)
    (acc : list number * number) (c : loc) : list number * number :=
  let '(values, sum) := acc in
  let v := val P h this c in
  (values ++ [v], sum + v).

(** The array [values] handed to [rouletteWheel]. *)
Definition probabilities (P : World.Params) (h : Heap) (this : t)
    (allowed : list loc) : list number :=
  let '(values, sum) := fold_left (valueStep P h this) allowed ([], 0) in
  normalize values sum.

(** [_selectNext(current)]; [None] is [null] (or [undefined]). *)
Definition _selectNext (P : World.Params) (h : Heap) (w : World.t)
    (this : t) (current : loc) (g : Rng) : option loc * Rng :=
  let neighbors := _getNeighbors h w current in
  if Nat.eqb (length neighbors) 0 then (None, g)
  else
    let allowed := allowedOf this neighbors in
    let values := probabilities P h this allowed in
    let '(idx, g) := rouletteWheel values g in
    (index allowed idx, g).

(** The loop of [_depositPheromone]. *)
Definition depositStep (deltaTau : number) (pType : Position.PType)
    (acc : Heap * World.t) (c : loc) : Heap * World.t :=
  let '(h, w) := acc in
  (upd h c (Position.addPheromone (h c) deltaTau pType),
   World.addCheckList w c).

Definition _depositPheromone (P : World.Params) (h : Heap) (w : World.t)
    (this : t) (pType : Position.PType) : Heap * World.t :=
  let L := length (path this) in
  if (L <=? 1)%nat then (h, w)
  else
    let deltaTau := World.Q P / inject_Z (Z.of_nat L) in
    fold_left (depositStep deltaTau pType) (path this) (h, w).

(** The check that closes [move]: a path longer than the cap resets the
    ant. *)
Definition capPath (P : World.Params) (w : World.t) (this : t) (g : Rng)
    : t * Rng :=
  if (Z.of_nat (length (path this)) >? _maxPath this)%Z
  then _init P w g else (this, g).

(** [move()]: one step of the ant [this].  The path of an ant is never
    empty ([_init] and [move] leave at least one cell); on an empty path
    the source would raise, and the model leaves the state as it is. *)
Definition move (P : World.Params) (h : Heap) (w : World.t) (g : Rng)
    (this : t) : Heap * World.t * Rng * t :=
  match index (path this) (Z.of_nat (length (path this)) - 1) with
  | None => (h, w, g, this)
  | Some current =>
      let '(next, g) := _selectNext P h w this current g in
      match next with
      | None => let '(this, g) := _init P w g in (h, w, g, this)
      | Some next =>
          let '(h, w, g, this) :=
            if Position.CellType_eqb (Position.type (h next))
                 Position.TYPE_FOOD
               && match status this with
                  | STATUS_FIND_FOOD => true | _ => false end
            then
              let this := setPath this (path this ++ [next]) in
              let '(h, w) :=
                _depositPheromone P h w this Position.P_TYPE_FOOD in
              let this := setStatus this STATUS_CARRY_FOOD in
              let this := setPath this [next] in
              (h, w, g, this)
            else if Position.CellType_eqb (Position.type (h next))
                      Position.TYPE_HOME
                    && match status this with
                       | STATUS_CARRY_FOOD => true | _ => false end
            then
              let this := setPath this (path this ++ [next]) in
              let '(h, w) :=
                _depositPheromone P h w this Position.P_TYPE_HOME in
              let '(this, g) := _init P w g in
              (h, w, g, this)
            else
              let this := setPath this (path this ++ [next]) in
              let w := World.addCheckList w next in
              (h, w, g, this) in
          let '(this, g) := capPath P w this g in
          (h, w, g, this)
      end
  end.

End WithEnvironment.

End Ant.

(** ** The transition probabilities on doubles *)

(** The numbers of the source are binary64 floats.  The exact model above
    cannot overflow; the source can, since a food cell holds
    [Number.MAX_VALUE].  This module repeats the computation of
    [_selectNext] from the pheromone of the candidates to the selected
    index over the floats of the kernel, whose operations are those of
    IEEE 754 as in JavaScript. *)

Module Double.

Local Open Scope float_scope.

Definition Number_MAX_VALUE : float := 0x1.fffffffffffffp+1023.

(** The double of a small non-negative integer. *)
Definition ofZ (z : Z) : float := PrimFloat.of_uint63 (Uint63.of_Z z).

(** What [_selectNext] reads of a cell. *)
Record Cell := {
  x : Z;
  y : Z;
  pheromone_FOOD : float;
  pheromone_HOME : float
}.

(** [World.alpha], [World.beta] and [World.tau0]. *)
Record Params := { alpha : float; beta : float; tau0 : float }.

Definition normalize (values : list float) (sum : float) : list float :=
  if 0 <? sum
  then List.map (fun v => v / sum) values
  else List.map (fun _ => 1 / ofZ (Z.of_nat (length values))) values.

Fixpoint rouletteWheel_from (r : float) (probs : list float) (i : Z)
    (cumulative : float) : option Z :=
  match probs with
  | [] => None
  | p :: rest =>
      let cumulative := cumulative + p in
      if r <=? cumulative then Some i
      else rouletteWheel_from r rest (i + 1)%Z cumulative
  end.

Definition rouletteWheel_at (r : float) (probs : list float) : Z :=
  match rouletteWheel_from r probs 0%Z 0 with
  | Some i => i
  | None => (Z.of_nat (length probs) - 1)%Z
  end.

Section WithEnvironment.

(** [Math.pow]; [Math.sqrt] is the square root of IEEE 754. *)
Variable Math_pow : float -> float -> float.

Definition val (P : Params) (status : Ant.Status) (home c : Cell) : float :=
  let '(tau, eta) :=
    match status with
    | Ant.STATUS_FIND_FOOD => (pheromone_FOOD c + tau0 P, 1)
    | _ =>
        let tau := pheromone_HOME c + tau0 P in
        let dx := (x c - x home)%Z in
        let dy := (y c - y home)%Z in
        let dist := PrimFloat.sqrt (ofZ (dx * dx + dy * dy)) in
        (tau, if 0 <? dist then 1 / dist else 100)
    end in
  Math_pow tau (alpha P) * Math_pow eta (beta P).

Definition valueStep (P : Params) (status : Ant.Status) (home : Cell)
    (acc : list float * float) (c : Cell) : list float * float :=
  let '(values, sum) := acc in
  let v := val P status home c in
  (values ++ [v], sum + v).

Definition probabilities (P : Params) (status : Ant.Status) (home : Cell)
    (allowed : list Cell) : list float :=
  let '(values, sum) :=
    fold_left (valueStep P status home) allowed ([], 0) in
  normalize values sum.

End WithEnvironment.

(** [Math.pow] on the exponents 0, 1 and 2, where it is exact: [1], [x] and
    [x * x]. *)
Definition samplePow (x y : float) : float :=
  if y =? 0 then 1 else if y =? 1 then x else if y =? 2 then x * x else nan.

(** The default parameters of [World.js]. *)
Definition defaultParams : Params :=
  {| alpha := 1; beta := 2; tau0 := 0.01 |}.

(** The home cell at [(5, 5)] and two Normal cells without pheromone next
    to the cell [(4, 5)] of a carrying ant. *)
Definition home : Cell :=
  {| x := 5; y := 5; pheromone_FOOD := 0;
     pheromone_HOME := Number_MAX_VALUE |}.
Definition above : Cell :=
  {| x := 4; y := 4; pheromone_FOOD := 0; pheromone_HOME := 0 |}.
Definition below : Cell :=
  {| x := 4; y := 6; pheromone_FOOD := 0; pheromone_HOME := 0 |}.

(** Two food cells side by side and a Normal cell without pheromone, next
    to the cell [(3, 1)] of a seeking ant. *)
Definition food1 : Cell :=
  {| x := 2; y := 0; pheromone_FOOD := Number_MAX_VALUE;
     pheromone_HOME := 0 |}.
Definition food2 : Cell :=
  {| x := 3; y := 0; pheromone_FOOD := Number_MAX_VALUE;
     pheromone_HOME := 0 |}.
Definition plain : Cell :=
  {| x := 4; y := 0; pheromone_FOOD := 0; pheromone_HOME := 0 |}.

(** *** Evaporation on doubles *)

(** What [evaporatePheromone] reads and writes of a cell: its type and the
    two entries of [this.pheromone]. *)
Record Pos := {
  type : Position.CellType;
  pFOOD : float;        (* this.pheromone[Position.P_TYPE_FOOD] *)
  pHOME : float         (* this.pheromone[Position.P_TYPE_HOME] *)
}.

Definition getP (this : Pos) (pType : Position.PType) : float :=
  match pType with
  | Position.P_TYPE_FOOD => pFOOD this
  | Position.P_TYPE_HOME => pHOME this
  end.

(** [this.pheromone[pType] = v] *)
Definition setP (this : Pos) (pType : Position.PType) (v : float) : Pos :=
  match pType with
  | Position.P_TYPE_FOOD =>
      {| type := type this; pFOOD := v; pHOME := pHOME this |}
  | Position.P_TYPE_HOME =>
      {| type := type this; pFOOD := pFOOD this; pHOME := v |}
  end.

(** The literal [1e-10] of [evaporatePheromone]: the double nearest to
    it. *)
Definition noise : float := 1e-10.

(** [evaporatePheromone(rho)], with the product and the difference of
    IEEE 754. *)
Definition evaporatePheromone (this : Pos) (rho : float) : Pos :=
  match type this with
  | Position.TYPE_NORMAL =>
      let this :=
        setP this Position.P_TYPE_FOOD
          (getP this Position.P_TYPE_FOOD * (1 - rho)) in
      let this :=
        setP this Position.P_TYPE_HOME
          (getP this Position.P_TYPE_HOME * (1 - rho)) in
      let this :=
        if getP this Position.P_TYPE_FOOD <? noise
        then setP this Position.P_TYPE_FOOD 0 else this in
      if getP this Position.P_TYPE_HOME <? noise
      then setP this Position.P_TYPE_HOME 0 else this
  | _ => this
  end.

End Double.

(** ** aco.js: the driver *)

(** The driver of the Ant System variant, whose text follows [World.js] in
    the sources.  (The file [aco.js] next to it is the driver of the older
    linear variant: it calls [world.volatitlePheromone()], a method that the
    [World] above does not have.) *)

Module Aco.

(** The calls made by the driver, in the order in which they are made.
    The log is a ghost field of the state: no definition reads it. *)
Inductive Event :=
| EvSpawn                    (* antList.push(new Ant(world)) *)
| EvMove (i : nat)           (* antList[i].move() *)
| EvEvaporateAndRender.      (* world.evaporateAndRender() *)

(** The variables of the closure [start], the heap, the random stream,
    the opacities last written, and the log. *)
Record State := mk {
  world : option World.t;
  antList : list Ant.t;
  isRun : bool;
  isSimulationStarted : bool;
  isSettingsApplied : bool;
  heap : Heap;
  rng : Rng;
  screen : list (loc * option number);
  trace : list Event
}.

(** The part of the state that a tick works on, [world] being defined. *)
Record Sim := mkSim {
  s_heap : Heap;
  s_world : World.t;
  s_ants : list Ant.t;
  s_rng : Rng;
  s_screen : list (loc * option number);
  s_trace : list Event
}.

(** [a[i] = v] for [i] below the length of [a]. *)
Fixpoint setNth (a : list Ant.t) (i : nat) (v : Ant.t) : list Ant.t :=
  match a, i with
  | [], _ => []
  | _ :: rest, O => v :: rest
  | u :: rest, S i => u :: setNth rest i v
  end.

Section WithEnvironment.

Variable Direction_M : list (Z * Z).
Variable Math_pow : number -> number -> number.
Variable Math_sqrt : number -> number.

(** [antList.push(new Ant(world))] *)
Definition spawn (P : World.Params) (s : Sim) : Sim :=
  let '(a, g) := Ant._init P (s_world s) (s_rng s) in
  {| s_heap := s_heap s; s_world := s_world s;
     s_ants := s_ants s ++ [a]; s_rng := g; s_screen := s_screen s;
     s_trace := s_trace s ++ [EvSpawn] |}.

(** [while (antList.length < World.ANT_NUMBER) ...]; every round adds
    one ant, so [fuel] rounds suffice when [fuel] is at least the
    number of missing ants. *)
Fixpoint spawnLoop (fuel : nat) (P : World.Params) (s : Sim) : Sim :=
  match fuel with
  | O => s
  | S fuel =>
      if (Z.of_nat (length (s_ants s)) <? World.ANT_NUMBER P)%Z
      then spawnLoop fuel P (spawn P s)
      else s
  end.

Definition topUp (P : World.Params) (s : Sim) : Sim :=
  spawnLoop
    (Z.to_nat (World.ANT_NUMBER P - Z.of_nat (length (s_ants s)))) P s.

(** [antList[i].move()] *)
Definition moveAnt (P : World.Params) (s : Sim) (i : nat) : Sim :=
  match nth_error (s_ants s) i with
  | None => s
  | Some a =>
      let '(h, w, g, a) :=
        Ant.move Direction_M Math_pow Math_sqrt P
          (s_heap s) (s_world s) (s_rng s) a in
      {| s_heap := h; s_world := w; s_ants := setNth (s_ants s) i a;
         s_rng := g; s_screen := s_screen s;
         s_trace := s_trace s ++ [EvMove i] |}
  end.

(** [for (var i = 0; i < antList.length; i++) antList[i].move();] *)
Definition subStep (P : World.Params) (s : Sim) : Sim :=
  fold_left (moveAnt P) (seq 0 (length (s_ants s))) s.

(** [for (var step = 0; step < World.stepsPerTick; step++) ...] *)
Definition subSteps (P : World.Params) (s : Sim) : Sim :=
  Nat.iter (Z.to_nat (World.stepsPerTick P)) (subStep P) s.

(** [world.evaporateAndRender()] *)
Definition evaporate (P : World.Params) (s : Sim) : Sim :=
  let '(h, out) := World.evaporateAndRender P (s_heap s) (s_world s) in
  {| s_heap := h; s_world := s_world s; s_ants := s_ants s;
     s_rng := s_rng s; s_screen := out;
     s_trace := s_trace s ++ [EvEvaporateAndRender] |}.

(** The guarded block of [_run]. *)
Definition tick (P : World.Params) (s : Sim) : Sim :=
  evaporate P (subSteps P (topUp P s)).

(** One call of [_run()], up to the [setTimeout] that schedules the
    next one. *)
Definition _run (P : World.Params) (st : State) : State :=
  if negb (isRun st) then
    match world st with
    | Some w =>
        if isSettingsApplied st && isSimulationStarted st then
          let s := tick P {| s_heap := heap st; s_world := w;
                             s_ants := antList st; s_rng := rng st;
                             s_screen := screen st;
                             s_trace := trace st |} in
          {| world := Some (s_world s); antList := s_ants s;
             isRun := false;
             isSimulationStarted := isSimulationStarted st;
             isSettingsApplied := isSettingsApplied st;
             heap := s_heap s; rng := s_rng s; screen := s_screen s;
             trace := s_trace s |}
        else st
    | None => st
    end
  else st.

End WithEnvironment.

End Aco.

(** ** Vocabulary of the specification *)

Local Open Scope Q_scope.



(** The threshold of [evaporate]: a value below [1e-10] becomes 0. *)
Definition clampNoise (v : number) : number :=
  if Qltb v Position.noise then 0 else v.

(** [n] calls of [evaporatePheromone(rho)] on a cell. *)
Definition evaporateTimes (n : nat) (rho : number) (p : Position.t)
    : Position.t :=
  Nat.iter n (fun c => Position.evaporatePheromone c rho) p.

(** The running sum of [probs] after the entry of index [k], started
    from [c]. *)
Definition cumulativeFrom (c : number) (probs : list number) (k : nat)
    : number :=
  fold_left Qplus (firstn (S k) probs) c.

(** The cumulative probability sum at index [k]. *)
Definition cumulative (probs : list number) (k : nat) : number :=
  cumulativeFrom 0 probs k.

(** The sum of an array of numbers, accumulated from the left as the loops
    of the source do. *)
Definition sumOf (l : list number) : number := fold_left Qplus l 0.

(** The pheromone term and the heuristic term of the desirability of a
    candidate, in the words of the specification: [tau] is the food channel
    plus [tau0] when seeking food and the home channel plus [tau0] when
    carrying food; [eta] is 1 when seeking food, and when carrying food
    [1 / dist] for a positive distance [dist] to the home cell and 100
    otherwise. *)
Definition specTau (tau0 : number) (status : Ant.Status) (c : Position.t)
    : number :=
  match status with
  | Ant.STATUS_FIND_FOOD => Position.pheromone_FOOD c + tau0
  | Ant.STATUS_CARRY_FOOD => Position.pheromone_HOME c + tau0
  end.

Definition specEta (status : Ant.Status) (dist : number) : number :=
  match status with
  | Ant.STATUS_FIND_FOOD => 1
  | Ant.STATUS_CARRY_FOOD => if Qgtb dist 0 then 1 / dist else 100
  end.

(** The Euclidean distance between two cells, for a square root [sqrt]. *)
Definition euclid (sqrt : number -> number) (c home : Position.t) : number :=
  let dx := (Position.x c - Position.x home)%Z in
  let dy := (Position.y c - Position.y home)%Z in
  sqrt (inject_Z (dx * dx + dy * dy)).

(** [(x, y)] is inside the grid [map]. *)
Definition inBounds (map : list (list loc)) (x y : Z) : Prop :=
  (0 <= x < Z.of_nat (length map))%Z
  /\ (0 <= y < Z.of_nat (length (hd [] map)))%Z.

(** [map[x][y]] is the cell [c]. *)
Definition cellAt (map : list (list loc)) (x y : Z) (c : loc) : Prop :=
  exists row, nth_error map (Z.to_nat x) = Some row
              /\ nth_error row (Z.to_nat y) = Some c.

(** What makes [n] a legal target from the cell [position]: it is the cell
    of the grid one step away in a direction of [Direction.M], inside the
    grid, and it is not a barrier. *)
Definition isNeighbor (Direction_M : list (Z * Z)) (h : Heap) (w : World.t)
    (position n : loc) : Prop :=
  Position.type (h n) <> Position.TYPE_BARRIER /\
  exists d, In d Direction_M /\
    inBounds (World.map w) (Position.x (h position) + fst d)
      (Position.y (h position) + snd d) /\
    cellAt (World.map w) (Position.x (h position) + fst d)
      (Position.y (h position) + snd d) n.

(** [k] calls of [addPheromone(amount, pType)] on a cell. *)
Definition addTimes (k : nat) (amount : number) (pType : Position.PType)
    (p : Position.t) : Position.t :=
  Nat.iter k (fun c => Position.addPheromone c amount pType) p.

(** ** Sample inputs *)

(** A check list with three cells. *)
Definition threeCells : World.t :=
  {| World.map := []; World.checkList := [1; 2; 3]%nat;
     World.homePosition := 0%nat |}.

(** The probability vector [[0.1, 0.3, 0.6]]. *)
Definition sampleProbs : list number := [0.1; 0.3; 0.6].

(** The eight unit and diagonal steps, standing for [Direction.M]. *)
Definition sampleM : list (Z * Z) :=
  [(-1, -1); (0, -1); (1, -1); (-1, 0); (1, 0); (-1, 1); (0, 1); (1, 1)]%Z.

(** Stand-ins for [Math.pow] and [Math.sqrt], exact on integer exponents
    and on perfect squares. *)
Definition samplePow (x y : number) : number := Qpower x (Qfloor y).
Definition sampleSqrt (x : number) : number := inject_Z (Z.sqrt (Qfloor x)).

(** The default parameters of [World.js], with two ants and two steps per
    tick. *)
Definition sampleParams : World.Params :=
  {| World.alpha := 1; World.beta := 2; World.rho := 0.02; World.Q := 100;
     World.tau0 := 0.01; World.ANT_NUMBER := 2;
     World.maxPathLength := 500; World.maxPathLengthMax := 2000;
     World.stepsPerTick := 2;
     World.showPheromoneType := Position.P_TYPE_FOOD |}.

(** A corridor of five cells [(0,0) ... (4,0)], as the constructor of
    [World] builds it: the cells 0 to 4, then the home cell 5 that replaces
    cell 2 at the centre; cell 4 has been turned into food. *)
Definition corridorHeap : Heap :=
  fun l =>
    match l with
    | 4%nat => Position.changeType (Position.new 4 0 None None None)
                 Position.TYPE_FOOD
    | 5%nat => Position.new 2 0 (Some 0) (Some Number_MAX_VALUE)
                 (Some Position.TYPE_HOME)
    | _ => Position.new (Z.of_nat l) 0 None None None
    end.

Definition corridor : World.t :=
  {| World.map := [[0]; [1]; [5]; [3]; [4]]%nat; World.checkList := [];
     World.homePosition := 5%nat |}.

(** An ant that left home to the left, turned back at the end of the
    corridor, passed home again and stands next to the food. *)
Definition corridorAnt : Ant.t :=
  {| Ant.path := [5; 1; 0; 1; 5; 3]%nat; Ant.status := Ant.STATUS_FIND_FOOD;
     Ant.homePosition := 5%nat; Ant._maxPath := 500 |}.

(** The same ant on the food cell, as [move] has it when it deposits. *)
Definition corridorAntAtFood : Ant.t :=
  Ant.setPath corridorAnt (Ant.path corridorAnt ++ [4%nat]).

(** An ant boxed in at the left end of the corridor: its only neighbour,
    cell 1, is in its path. *)
Definition boxedAnt : Ant.t :=
  Ant.setPath corridorAnt [5; 1; 0]%nat.

(** A stream of draws: 0.9 for the fifth draw, 0 for the others. *)
Definition sampleRng : Rng :=
  {| draws := fun n => match n with 4%nat => 0.9 | _ => 0 end; pos := 0 |}.

(** [n] steps of one ant, from the state [st]. *)
Definition sampleMoves (n : nat) (st : Heap * World.t * Rng * Ant.t)
    : Heap * World.t * Rng * Ant.t :=
  Nat.iter n
    (fun st => let '(h, w, g, a) := st in
               Ant.move sampleM samplePow sampleSqrt sampleParams h w g a)
    st.

(** A fresh ant in the corridor. *)
Definition corridorStart : Heap * World.t * Rng * Ant.t :=
  let '(a, g) := Ant._init sampleParams corridor sampleRng in
  (corridorHeap, corridor, g, a).

(** The corridor with a faint trail: cell 1 holds 0.5 in its food channel
    and is the only active cell. *)
Definition faintHeap : Heap :=
  upd corridorHeap 1%nat
    (Position.setP (corridorHeap 1%nat) Position.P_TYPE_FOOD 0.5).


(** The driver once the settings are applied and the simulation is
    started, before the first tick: the corridor, no ant yet. *)
Definition sampleState : Aco.State :=
  {| Aco.world := Some corridor; Aco.antList := []; Aco.isRun := false;
     Aco.isSimulationStarted := true; Aco.isSettingsApplied := true;
     Aco.heap := corridorHeap; Aco.rng := sampleRng; Aco.screen := [];
     Aco.trace := [] |}.

(** The calls of one sub-step over [n] ants: every ant once, in the order
    of the list. *)
Definition subStepCalls (n : nat) : list Aco.Event :=
  List.map Aco.EvMove (seq 0 n).

(** The calls of one tick that spawns [k] ants, then makes [steps]
    sub-steps over [n] ants. *)
Definition tickCalls (k n steps : nat) : list Aco.Event :=
  repeat Aco.EvSpawn k ++ concat (repeat (subStepCalls n) steps)
  ++ [Aco.EvEvaporateAndRender].

(** The state of an ant is coherent with the world [w] and the heap [h]:
    its path is not empty, its home is the home cell of the world, a
    seeking ant started from home and a carrying ant started from a food
    cell. *)
Definition antOK (h : Heap) (w : World.t) (a : Ant.t) : Prop :=
  Ant.path a <> [] /\
  Ant.homePosition a = World.homePosition w /\
  (Ant.status a = Ant.STATUS_FIND_FOOD ->
   hd (World.homePosition w) (Ant.path a) = World.homePosition w) /\
  (Ant.status a = Ant.STATUS_CARRY_FOOD ->
   Position.type (h (hd (World.homePosition w) (Ant.path a)))
   = Position.TYPE_FOOD).

(** What a step of the simulation may do to the cells: [h'] differs from
    [h] at most in the pheromone of Normal cells, which does not
    decrease. *)
Definition cellsKept (h h' : Heap) : Prop :=
  forall c,
    Position.type (h' c) = Position.type (h c) /\
    Position.x (h' c) = Position.x (h c) /\
    Position.y (h' c) = Position.y (h c) /\
    (Position.type (h c) <> Position.TYPE_NORMAL -> h' c = h c).

(** What a step of the simulation may do to the world: the grid and the
    home cell stay, the check list keeps its cells and stays free of
    duplicates. *)
Definition worldKept (w w' : World.t) : Prop :=
  World.map w' = World.map w /\
  World.homePosition w' = World.homePosition w /\
  (forall c, In c (World.checkList w) -> In c (World.checkList w')) /\
  (NoDup (World.checkList w) -> NoDup (World.checkList w')).

(** The sentinel values of the cell types: a food cell holds
    [Number.MAX_VALUE] in its food channel and 0 in its home channel, a
    barrier holds 0 in both. *)
Definition sentinelOK (p : Position.t) : Prop :=
  match Position.type p with
  | Position.TYPE_FOOD =>
      Position.pheromone_FOOD p = Number_MAX_VALUE
      /\ Position.pheromone_HOME p = 0
  | Position.TYPE_BARRIER =>
      Position.pheromone_FOOD p = 0 /\ Position.pheromone_HOME p = 0
  | _ => True
  end.

(** No pheromone value of the heap is negative. *)
Definition nonNegative (h : Heap) : Prop :=
  forall c ch, 0 <= Position.getP (h c) ch.

(** The path of the ant is not longer than its cap. *)
Definition capOK (a : Ant.t) : Prop :=
  (Z.of_nat (length (Ant.path a)) <= Ant._maxPath a)%Z.

(** Every draw of the stream is in [[0, 1)], as [Math.random()] promises. *)
Definition unitDraws (g : Rng) : Prop :=
  forall i, 0 <= draws g i /\ draws g i < 1.

(** What the driver keeps from a state [s] of the simulation to a later
    state [s']. *)
Definition simKept (P : World.Params) (s s' : Aco.Sim) : Prop :=
  cellsKept (Aco.s_heap s) (Aco.s_heap s') /\
  worldKept (Aco.s_world s) (Aco.s_world s') /\
  draws (Aco.s_rng s') = draws (Aco.s_rng s) /\
  (length (Aco.s_ants s) <= length (Aco.s_ants s'))%nat /\
  (Forall (antOK (Aco.s_heap s) (Aco.s_world s)) (Aco.s_ants s) ->
   Forall (antOK (Aco.s_heap s') (Aco.s_world s')) (Aco.s_ants s')) /\
  (0 <= World.Q P -> 0 <= World.rho P -> World.rho P <= 1 ->
   nonNegative (Aco.s_heap s) -> nonNegative (Aco.s_heap s')) /\
  (unitDraws (Aco.s_rng s) ->
   (1 <= World.maxPathLength P)%Z ->
   (World.maxPathLength P <= World.maxPathLengthMax P)%Z ->
   Forall (fun a => Ant.path a <> [] /\ capOK a) (Aco.s_ants s) ->
   Forall (fun a => Ant.path a <> [] /\ capOK a) (Aco.s_ants s')).

(** The state of the simulation held by the driver when its world is
    [w]. *)
Definition simOf (st : Aco.State) (w : World.t) : Aco.Sim :=
  {| Aco.s_heap := Aco.heap st; Aco.s_world := w;
     Aco.s_ants := Aco.antList st; Aco.s_rng := Aco.rng st;
     Aco.s_screen := Aco.screen st; Aco.s_trace := Aco.trace st |}.

(** The driver before the settings are applied: no world yet. *)
Definition idleState : Aco.State :=
  {| Aco.world := None; Aco.antList := []; Aco.isRun := false;
     Aco.isSimulationStarted := false; Aco.isSettingsApplied := false;
     Aco.heap := corridorHeap; Aco.rng := sampleRng; Aco.screen := [];
     Aco.trace := [] |}.

(** ** World.js: the constructor *)

(** [World.prototype._init], on the fields [xl] and [yl] that the
    constructor has computed.  The objects it creates are allocated in the
    heap from the location [next] on. *)

Module Construct.

(** [a[idx] = v] on an array of length at least [idx]: an element is
    replaced, the index equal to the length appends, and a negative index
    sets a property and leaves the elements as they are.  (An index beyond
    the length, which would leave holes, does not arise in [_init].) *)
Fixpoint setAt {A : Type} (a : list A) (idx : nat) (v : A) : list A :=
  match a, idx with
  | [], _ => [v]
  | _ :: rest, O => v :: rest
  | u :: rest, S idx => u :: setAt rest idx v
  end.

Definition arraySet {A : Type} (a : list A) (idx : Z) (v : A) : list A :=
  if (idx <? 0)%Z then a else setAt a (Z.to_nat idx) v.

(** [for (var j = 0; j < this.yl; j++) this.map[i][j] = new Position(this,
    i, j)], with [n] rounds left. *)
Fixpoint rowLoop (n : nat) (i j : Z) (row : list loc) (h : Heap)
    (next : loc) : list loc * Heap * loc :=
  match n with
  | O => (row, h, next)
  | S n =>
      rowLoop n i (j + 1)%Z (arraySet row j next)
        (upd h next (Position.new i j None None None)) (S next)
  end.

(** [for (var i = 0; i < this.xl; i++) { this.map[i] = []; ... }], with
    [n] rounds left. *)
Fixpoint gridLoop (n : nat) (yl : Z) (i : Z) (map : list (list loc))
    (h : Heap) (next : loc) : list (list loc) * Heap * loc :=
  match n with
  | O => (map, h, next)
  | S n =>
      let '(row, h, next) := rowLoop (Z.to_nat yl) i 0 [] h next in
      gridLoop n yl (i + 1)%Z (arraySet map i row) h next
  end.

(** [parseInt(n / 2)] for an integer [n]: the quotient truncated towards
    zero. *)
Definition parseInt_half (n : Z) : Z := Z.quot n 2.

(** [_init()]: the heap, the world and the next free location, or [None]
    when the source raises a [TypeError] because [this.map[homeX]] is
    [undefined]. *)
Definition _init (xl yl : Z) (h : Heap) (next : loc)
    : option (Heap * World.t * loc) :=
  let '(map, h, next) := gridLoop (Z.to_nat xl) yl 0 [] h next in
  let homeX := parseInt_half xl in
  let homeY := parseInt_half yl in
  match (if (homeX <? 0)%Z then None else nth_error map (Z.to_nat homeX)) with
  | None => None
  | Some row =>
      let home := next in
      let h := upd h home
                 (Position.new homeX homeY (Some 0) (Some Number_MAX_VALUE)
                    (Some Position.TYPE_HOME)) in
      let map := arraySet map homeX (arraySet row homeY home) in
      Some (h,
            {| World.map := map; World.checkList := [];
               World.homePosition := home |},
            S next)
  end.

End Construct.

(** The grid [map] is an [xl] by [yl] rectangle of cells that know their
    own coordinates. *)
Definition gridOK (h : Heap) (map : list (list loc)) (xl yl : Z) : Prop :=
  Z.of_nat (length map) = xl /\
  (forall row, In row map -> Z.of_nat (length row) = yl) /\
  (forall i j, (0 <= i < xl)%Z -> (0 <= j < yl)%Z ->
     exists c, cellAt map i j c /\
               Position.x (h c) = i /\ Position.y (h c) = j).

(** A 3 by 3 world built by the constructor in an empty heap. *)
Definition blankHeap : Heap := fun _ => Position.new 0 0 None None None.

(** ** Evaporation on doubles: vocabulary and sample inputs *)






(** ** The calls of a tick and their effects *)

Section Calls.

Variable Direction_M : list (Z * Z).
Variable Math_pow : number -> number -> number.
Variable Math_sqrt : number -> number.
Variable P : World.Params.

(** What one call does to the simulation, read off the callee: an ant
    made by [new Ant(world)] is pushed on [antList], the ant [antList[i]]
    makes one [move()], or the world makes one [evaporateAndRender()].
    The log is left alone. *)
Definition perform (s : Aco.Sim) (e : Aco.Event) : Aco.Sim :=
  match e with
  | Aco.EvSpawn =>
      let '(a, g) := Ant._init P (Aco.s_world s) (Aco.s_rng s) in
      {| Aco.s_heap := Aco.s_heap s; Aco.s_world := Aco.s_world s;
         Aco.s_ants := Aco.s_ants s ++ [a]; Aco.s_rng := g;
         Aco.s_screen := Aco.s_screen s; Aco.s_trace := Aco.s_trace s |}
  | Aco.EvMove i =>
      match nth_error (Aco.s_ants s) i with
      | None => s
      | Some a =>
          let '(h, w, g, a) :=
            Ant.move Direction_M Math_pow Math_sqrt P
              (Aco.s_heap s) (Aco.s_world s) (Aco.s_rng s) a in
          {| Aco.s_heap := h; Aco.s_world := w;
             Aco.s_ants :=
               firstn i (Aco.s_ants s) ++ a :: skipn (S i) (Aco.s_ants s);
             Aco.s_rng := g; Aco.s_screen := Aco.s_screen s;
             Aco.s_trace := Aco.s_trace s |}
      end
  | Aco.EvEvaporateAndRender =>
      let '(h, out) :=
        World.evaporateAndRender P (Aco.s_heap s) (Aco.s_world s) in
      {| Aco.s_heap := h; Aco.s_world := Aco.s_world s;
         Aco.s_ants := Aco.s_ants s; Aco.s_rng := Aco.s_rng s;
         Aco.s_screen := out; Aco.s_trace := Aco.s_trace s |}
  end.

(** The calls of a list made one after the other, from the left. *)
Definition performAll (calls : list Aco.Event) (s : Aco.Sim) : Aco.Sim :=
  fold_left perform calls s.

End Calls.

(** Two states of the simulation that agree on the heap, the world, the
    ants, the stream of draws and the opacities: they differ at most in
    the log. *)
Definition sameSim (s s' : Aco.Sim) : Prop :=
  Aco.s_heap s = Aco.s_heap s' /\
  Aco.s_world s = Aco.s_world s' /\
  Aco.s_ants s = Aco.s_ants s' /\
  Aco.s_rng s = Aco.s_rng s' /\
  Aco.s_screen s = Aco.s_screen s'.

(** The calls of a tick in which the pass of [evaporateAndRender] is made
    after every move of an ant instead of once at the end. *)
Definition interleavedCalls (n steps : nat) : list Aco.Event :=
  concat (repeat
            (flat_map (fun i => [Aco.EvMove i; Aco.EvEvaporateAndRender])
               (seq 0 n))
            steps).

(** Two ants next to the food cell of the corridor, about to reach it. *)
Definition busyState : Aco.State :=
  {| Aco.world := Some corridor; Aco.antList := [corridorAnt; corridorAnt];
     Aco.isRun := false; Aco.isSimulationStarted := true;
     Aco.isSettingsApplied := true; Aco.heap := corridorHeap;
     Aco.rng := sampleRng; Aco.screen := []; Aco.trace := [] |}.

(** A double that is a zero or [NaN]. *)
Definition zeroOrNaN (x : float) : Prop :=
  x = nan \/ x = 0%float \/ x = (-0)%float.

(** * Verification *)

(** ** Comparisons *)

Lemma Qltb_lt (a b : number) : Qltb a b = true <-> a < b.
Proof.
  unfold Qltb. rewrite negb_true_iff.
  split; intros H.
  - apply Qnot_le_lt. intros Hle. apply Qle_bool_iff in Hle. congruence.
  - destruct (Qle_bool b a) eqn:E; [|reflexivity].
    apply Qle_bool_iff in E. lra.
Qed.

Lemma Qltb_ge (a b : number) : Qltb a b = false <-> b <= a.
Proof.
  unfold Qltb. rewrite negb_false_iff. apply Qle_bool_iff.
Qed.

Lemma Qgtb_gt (a b : number) : Qgtb a b = true <-> b < a.
Proof. apply Qltb_lt. Qed.

Lemma Qgtb_le (a b : number) : Qgtb a b = false <-> a <= b.
Proof. apply Qltb_ge. Qed.

Lemma CellType_eqb_eq (a b : Position.CellType) :
  Position.CellType_eqb a b = true <-> a = b.
Proof. destruct a, b; simpl; split; congruence. Qed.

(** ** Position *)

Lemma getP_setP_same (p : Position.t) (ch : Position.PType) (v : number) :
  Position.getP (Position.setP p ch v) ch = v.
Proof. destruct ch; reflexivity. Qed.

Lemma getP_setP_other (p : Position.t) (ch ch' : Position.PType) (v : number) :
  ch <> ch' -> Position.getP (Position.setP p ch v) ch' = Position.getP p ch'.
Proof. destruct ch, ch'; simpl; congruence. Qed.

Lemma type_setP (p : Position.t) (ch : Position.PType) (v : number) :
  Position.type (Position.setP p ch v) = Position.type p.
Proof. destruct ch; reflexivity. Qed.

Lemma evaporate_type (p : Position.t) (rho : number) :
  Position.type (Position.evaporatePheromone p rho) = Position.type p.
Proof.
  unfold Position.evaporatePheromone.
  destruct (Position.type p) eqn:E; try assumption.
  repeat match goal with |- context [if ?b then _ else _] => destruct b end;
    rewrite ?type_setP; assumption.
Qed.

Lemma evaporate_normal (p : Position.t) (rho : number) (ch : Position.PType) :
  Position.type p = Position.TYPE_NORMAL ->
  Position.getP (Position.evaporatePheromone p rho) ch
  = clampNoise (Position.getP p ch * (1 - rho)).
Proof.
  intros Hn. unfold Position.evaporatePheromone, clampNoise. rewrite Hn.
  destruct ch; simpl;
    destruct (Qltb (Position.pheromone_FOOD p * (1 - rho)) Position.noise);
    simpl;
    destruct (Qltb (Position.pheromone_HOME p * (1 - rho)) Position.noise);
    simpl; reflexivity.
Qed.

Lemma evaporate_other (p : Position.t) (rho : number) :
  Position.type p <> Position.TYPE_NORMAL ->
  Position.evaporatePheromone p rho = p.
Proof.
  unfold Position.evaporatePheromone.
  destruct (Position.type p); congruence.
Qed.

Lemma evaporateTimes_type (n : nat) (rho : number) (p : Position.t) :
  Position.type (evaporateTimes n rho p) = Position.type p.
Proof.
  induction n as [|n IH]; [reflexivity|].
  unfold evaporateTimes in *. simpl. now rewrite evaporate_type.
Qed.

Lemma noise_pos : 0 < Position.noise.
Proof. reflexivity. Qed.

Lemma clampNoise_cases (v : number) :
  (clampNoise v = 0 /\ v < Position.noise)
  \/ (clampNoise v = v /\ Position.noise <= v).
Proof.
  unfold clampNoise. destruct (Qltb v Position.noise) eqn:E.
  - left. split; [reflexivity | now apply Qltb_lt].
  - right. split; [reflexivity | now apply Qltb_ge].
Qed.

(** *** Evaporation *)

Section Evaporation.

Variable rho : number.
Hypothesis rho_pos : 0 < rho.
Hypothesis rho_lt_1 : rho < 1.

Lemma clampNoise_decreases (v : number) :
  0 < v -> clampNoise (v * (1 - rho)) < v.
Proof.
  intros Hv. destruct (clampNoise_cases (v * (1 - rho))) as [[-> _]|[-> _]].
  - assumption.
  - nra.
Qed.

Lemma clampNoise_zero : clampNoise (0 * (1 - rho)) = 0.
Proof.
  destruct (clampNoise_cases (0 * (1 - rho))) as [[-> _]|[_ H]];
    [reflexivity|].
  exfalso. pose proof noise_pos. lra.
Qed.

Variable p : Position.t.
Variable ch : Position.PType.
Hypothesis p_normal : Position.type p = Position.TYPE_NORMAL.

Let v (n : nat) : number := Position.getP (evaporateTimes n rho p) ch.

Lemma evaporateTimes_succ (n : nat) : v (S n) = clampNoise (v n * (1 - rho)).
Proof.
  unfold v. change (evaporateTimes (S n) rho p)
    with (Position.evaporatePheromone (evaporateTimes n rho p) rho).
  apply evaporate_normal. now rewrite evaporateTimes_type.
Qed.

Lemma evaporate_zero_stays (n m : nat) : v n = 0 -> (n <= m)%nat -> v m = 0.
Proof.
  intros H0 Hle. induction Hle as [|m Hle IH]; [assumption|].
  rewrite evaporateTimes_succ, IH. apply clampNoise_zero.
Qed.

(** While the value is not yet 0 it stays at or above the threshold and
    below the bound [v 0 * (1 - rho) / (1 - rho + n * rho)]. *)
Lemma evaporate_bound (n : nat) :
  0 < v 0%nat ->
  v n = 0 \/
  (0 < v n /\ v n <= v 0%nat /\ ((1 <= n)%nat -> Position.noise <= v n) /\
   v n * (1 - rho + inject_Z (Z.of_nat n) * rho) <= v 0%nat * (1 - rho)).
Proof.
  intros Hp. induction n as [|n IH].
  - right. repeat split; try lra; try lia.
    change (inject_Z (Z.of_nat 0)) with 0. lra.
  - rewrite evaporateTimes_succ.
    destruct IH as [IH|(Hv & Hle & _ & Hb)].
    + left. rewrite IH. apply clampNoise_zero.
    + destruct (clampNoise_cases (v n * (1 - rho))) as [[-> _]|[-> Hge]];
        [now left|right].
      assert (He : inject_Z (Z.of_nat (S n)) == inject_Z (Z.of_nat n) + 1).
      { rewrite Nat2Z.inj_succ. unfold Z.succ. now rewrite inject_Z_plus. }
      assert (0 <= inject_Z (Z.of_nat n)).
      { change 0 with (inject_Z 0). rewrite <- Zle_Qle. lia. }
      pose proof noise_pos.
      repeat split; try lra; try nra.
      rewrite He.
      assert (H1 : v n * (1 - rho + inject_Z (Z.of_nat n) * rho) * (1 - rho)
                   <= v 0%nat * (1 - rho) * (1 - rho))
        by (apply Qmult_le_compat_r; lra).
      assert (Hr : 0 <= rho * (1 - rho)) by nra.
      assert (H2 : v n * (rho * (1 - rho)) <= v 0%nat * (rho * (1 - rho)))
        by (apply Qmult_le_compat_r; assumption).
      lra.
Qed.

Lemma evaporate_reaches_zero :
  0 < v 0%nat -> exists n, forall m, (n <= m)%nat -> v m = 0.
Proof.
  intros Hp.
  set (k := Z.to_nat (Qceiling (v 0%nat / (Position.noise * rho)))).
  exists (S k). intros m Hm.
  apply evaporate_zero_stays with (n := S k); [|assumption].
  destruct (evaporate_bound (S k) Hp) as [H0|(Hv & _ & Hge & Hb)];
    [assumption|exfalso].
  specialize (Hge ltac:(lia)).
  assert (Hk : v 0%nat / (Position.noise * rho) <= inject_Z (Z.of_nat k)).
  { eapply Qle_trans; [apply Qle_ceiling|]. rewrite <- Zle_Qle.
    unfold k. lia. }
  assert (He : inject_Z (Z.of_nat (S k)) == inject_Z (Z.of_nat k) + 1).
  { rewrite Nat2Z.inj_succ. unfold Z.succ. now rewrite inject_Z_plus. }
  pose proof noise_pos as H10.
  assert (Hd : 0 < Position.noise * rho) by nra.
  assert (Hq : v 0%nat
               == v 0%nat / (Position.noise * rho) * (Position.noise * rho))

    by (field; lra).
  revert Hk Hq. generalize (v 0%nat / (Position.noise * rho)). intros q Hk Hq.
  assert (Hk' : v 0%nat <= inject_Z (Z.of_nat k) * (Position.noise * rho))
    by nra.
  assert (HK : 0 <= inject_Z (Z.of_nat k)).
  { change 0 with (inject_Z 0). rewrite <- Zle_Qle. lia. }
  assert (HKr : 0 <= inject_Z (Z.of_nat k) * rho) by nra.
  assert (HA : Position.noise * (1 - rho + inject_Z (Z.of_nat (S k)) * rho)
               <= v (S k) * (1 - rho + inject_Z (Z.of_nat (S k)) * rho)).
  { apply Qmult_le_compat_r; [assumption|]. rewrite He. lra. }
  assert (Hvr : 0 < v 0%nat * rho) by nra.
  rewrite He in Hb, HA. lra.
Qed.

End Evaporation.

(** Evaporation in exact arithmetic.  On a Normal cell
    [evaporatePheromone(rho)] replaces each channel [v] by [v * (1 - rho)],
    a result below [1e-10] becoming exactly 0; a cell of another type is
    left as it is.  For [0 < rho < 1] and a Normal cell with a positive
    value, every further call strictly decreases the value as long as it
    is positive, and after finitely many calls the value is exactly 0 and
    stays so.  The last two facts need exact products: they fail on
    doubles, as shown below. *)
Theorem evaporatePheromone_exact (p : Position.t) (rho : number)
    (ch : Position.PType) :
  (Position.type p <> Position.TYPE_NORMAL ->
   Position.evaporatePheromone p rho = p) /\
  (Position.type p = Position.TYPE_NORMAL ->
   Position.getP (Position.evaporatePheromone p rho) ch
   = clampNoise (Position.getP p ch * (1 - rho)) /\
   (0 < rho -> rho < 1 -> 0 < Position.getP p ch ->
    (forall n,
        0 < Position.getP (evaporateTimes n rho p) ch ->
        Position.getP (evaporateTimes (S n) rho p) ch
        < Position.getP (evaporateTimes n rho p) ch) /\
    (exists n, forall m, (n <= m)%nat ->
        Position.getP (evaporateTimes m rho p) ch = 0))).
Proof.
  split; [apply evaporate_other|].
  intros Hn. split; [now apply evaporate_normal|].
  intros H0 H1 Hp. split.
  - intros n Hv. rewrite evaporateTimes_succ by assumption.
    now apply clampNoise_decreases.
  - now apply evaporate_reaches_zero.
Qed.

(** *** Evaporation on doubles *)

(** Facts of IEEE 754 arithmetic on binary64, from the specification of
    the primitive floats. *)
Module Binary64.

Import SpecFloat FloatOps FloatAxioms.

Local Open Scope float_scope.





Lemma of_SF_zero (x : float) (s : bool) :
  Prim2SF x = S754_zero s -> x = 0 \/ x = -0.
Proof.
  intros E. rewrite <- (SF2Prim_Prim2SF x), E.
  destruct s; [right|left]; reflexivity.
Qed.

Lemma of_SF_nan (x : float) : Prim2SF x = S754_nan -> x = nan.
Proof. intros E. now rewrite <- (SF2Prim_Prim2SF x), E. Qed.

(** Whatever is divided by [Infinity], the quotient is a zero or [NaN]. *)
Lemma div_infinity (x : float) : zeroOrNaN (x / infinity).
Proof.
  pose proof (div_spec x infinity) as E.
  change (Prim2SF infinity) with (S754_infinity false) in E.
  unfold zeroOrNaN.
  destruct (Prim2SF x) as [s|s| |s m e]; cbn in E.
  - right. eapply of_SF_zero, E.
  - left. apply of_SF_nan, E.
  - left. apply of_SF_nan, E.
  - right. eapply of_SF_zero, E.
Qed.

(** A running sum that is [0] or [NaN] stays so when a zero or [NaN] is
    added. *)
Lemma add_zeroOrNaN (c p : float) :
  c = 0 \/ c = nan -> zeroOrNaN p -> c + p = 0 \/ c + p = nan.
Proof.
  intros [-> | ->] [-> |[-> | ->]]; vm_compute; auto.
Qed.

(** A positive draw is not below or at a sum that is [0] or [NaN]. *)
Lemma leb_zeroOrNaN (r c : float) :
  (0 <? r) = true -> c = 0 \/ c = nan -> (r <=? c) = false.
Proof.
  intros Hr Hc. rewrite ltb_spec in Hr. rewrite leb_spec.
  change (Prim2SF 0) with (S754_zero false) in Hr.
  destruct Hc as [-> | ->].
  - change (Prim2SF 0) with (S754_zero false).
    destruct (Prim2SF r) as [s|s| |s m e]; try discriminate Hr;
      destruct s; try discriminate Hr; reflexivity.
  - change (Prim2SF nan) with S754_nan.
    destruct (Prim2SF r) as [s|s| |s m e]; reflexivity.
Qed.

End Binary64.











(** *** Type changes *)

(** C10.  [changeType(newType)] sets the type; it zeroes both channels for
    Barrier, sets the food channel to [Number.MAX_VALUE] and the home
    channel to 0 for Food, and keeps both channels for Home and Normal: a
    Food cell changed to Normal keeps [Number.MAX_VALUE] in its food
    channel. *)
Theorem changeType_pheromone (p : Position.t) (ty : Position.CellType) :
  Position.type (Position.changeType p ty) = ty /\
  match ty with
  | Position.TYPE_BARRIER =>
      Position.getP (Position.changeType p ty) Position.P_TYPE_FOOD = 0 /\
      Position.getP (Position.changeType p ty) Position.P_TYPE_HOME = 0
  | Position.TYPE_FOOD =>
      Position.getP (Position.changeType p ty) Position.P_TYPE_FOOD
      = Number_MAX_VALUE /\
      Position.getP (Position.changeType p ty) Position.P_TYPE_HOME = 0
  | _ =>
      forall ch, Position.getP (Position.changeType p ty) ch
                 = Position.getP p ch
  end /\
  Position.getP
    (Position.changeType (Position.changeType p Position.TYPE_FOOD)
       Position.TYPE_NORMAL) Position.P_TYPE_FOOD
  = Number_MAX_VALUE.
Proof.
  split; [now destruct ty|]. split; [|reflexivity].
  destruct ty; simpl; try (split; reflexivity); intros []; reflexivity.
Qed.

(** ** World: the check list *)

Lemma getCheckedIndex_from_spec (cl : list loc) (position : loc) (i : Z) :
  (~ In position cl /\ World._getCheckedIndex_from cl position i = (-1)%Z)
  \/ (exists l1 l2,
         cl = l1 ++ position :: l2 /\ ~ In position l1 /\
         World._getCheckedIndex_from cl position i
         = (i + Z.of_nat (length l1))%Z).
Proof.
  revert i. induction cl as [|c cl IH]; intros i; simpl.
  - left. auto.
  - destruct (Nat.eqb_spec position c) as [->|Hne].
    + right. exists [], cl. simpl. repeat split; auto. lia.
    + destruct (IH (i + 1)%Z) as [[Hnin ->]|(l1 & l2 & -> & Hnin & ->)].
      * left. split; [|reflexivity]. intros [H|H]; congruence.
      * right. exists (c :: l1), l2. simpl. repeat split.
        -- intros [H|H]; congruence.
        -- lia.
Qed.

Lemma splice1_middle (l1 l2 : list loc) (c : loc) :
  World.splice1 (l1 ++ c :: l2) (length l1) = l1 ++ l2.
Proof.
  unfold World.splice1.
  induction l1 as [|a l1 IH]; simpl; [reflexivity|].
  f_equal. exact IH.
Qed.

(** The check list after [addCheckList(position)]. *)
Lemma addCheckList_cases (w : World.t) (position : loc) :
  (~ In position (World.checkList w) /\
   World.checkList (World.addCheckList w position)
   = World.checkList w ++ [position])
  \/ (exists l1 l2,
         World.checkList w = l1 ++ position :: l2 /\ ~ In position l1 /\
         World.checkList (World.addCheckList w position)
         = (l1 ++ l2) ++ [position]).
Proof.
  unfold World.addCheckList, World._getCheckedIndex. simpl.
  destruct (getCheckedIndex_from_spec (World.checkList w) position 0)
    as [[Hnin ->]|(l1 & l2 & E & Hnin & ->)].
  - left. split; [assumption|reflexivity].
  - right. exists l1, l2. repeat split; try assumption.
    replace (0 + Z.of_nat (length l1) >=? 0)%Z with true
      by (symmetry; apply Z.geb_le; lia).
    rewrite E at 1. simpl. rewrite Nat2Z.id, splice1_middle. reflexivity.
Qed.

Lemma addCheckList_In (w : World.t) (position c : loc) :
  In c (World.checkList (World.addCheckList w position))
  <-> c = position \/ In c (World.checkList w).
Proof.
  destruct (addCheckList_cases w position)
    as [[_ ->]|(l1 & l2 & E & _ & ->)]; rewrite ?E, !in_app_iff; simpl;
    intuition congruence.
Qed.

Lemma addCheckList_NoDup (w : World.t) (position : loc) :
  NoDup (World.checkList w) ->
  NoDup (World.checkList (World.addCheckList w position)).
Proof.
  intros Hnd.
  destruct (addCheckList_cases w position)
    as [[Hnin ->]|(l1 & l2 & E & _ & ->)].
  - apply NoDup_app; [assumption|repeat constructor; intros []|].
    intros a Ha [<-|[]]. contradiction.
  - rewrite E in Hnd. apply NoDup_remove in Hnd as [Hnd Hnin].
    apply NoDup_app; [assumption|repeat constructor; intros []|].
    intros a Ha [<-|[]]. contradiction.
Qed.

Lemma addCheckList_map (w : World.t) (position : loc) :
  World.map (World.addCheckList w position) = World.map w
  /\ World.homePosition (World.addCheckList w position) = World.homePosition w.
Proof. split; reflexivity. Qed.

(** C9.  Starting from a check list without duplicates (the constructor
    leaves it empty), no sequence of calls of [addCheckList] introduces a
    duplicate.  A call for a cell already in the list removes its entry and
    appends the cell at the end, the other cells keeping their order and the
    length staying the same; a call for a new cell appends it. *)
Theorem addCheckList_no_duplicates (w : World.t) (ps : list loc) (p : loc) :
  NoDup (World.checkList w) ->
  NoDup (World.checkList (fold_left World.addCheckList ps w)) /\
  World.checkList (World.addCheckList w p)
  = filter (fun c => negb (Nat.eqb c p)) (World.checkList w) ++ [p] /\
  (In p (World.checkList w) ->
   length (World.checkList (World.addCheckList w p))
   = length (World.checkList w)) /\
  (~ In p (World.checkList w) ->
   length (World.checkList (World.addCheckList w p))
   = S (length (World.checkList w))).
Proof.
  intros Hnd. split.
  { revert w Hnd. induction ps as [|q ps IH]; intros w Hnd; simpl;
      [assumption|]. apply IH. now apply addCheckList_NoDup. }
  assert (Hfil : forall l, ~ In p l ->
                   filter (fun c => negb (Nat.eqb c p)) l = l).
  { induction l as [|c l IH]; intros Hnin; simpl; [reflexivity|].
    destruct (Nat.eqb_spec c p) as [->|Hne]; simpl.
    - exfalso. apply Hnin. now left.
    - f_equal. apply IH. intros H. apply Hnin. now right. }
  destruct (addCheckList_cases w p) as [[Hnin ->]|(l1 & l2 & E & Hnin & ->)].
  - rewrite Hfil by assumption. repeat split; [contradiction|].
    intros _. rewrite length_app. simpl. lia.
  - rewrite E in Hnd |- *. apply NoDup_remove in Hnd as [_ Hnin'].
    rewrite filter_app. simpl. rewrite Nat.eqb_refl. simpl.
    rewrite !Hfil.
    + repeat split.
      * intros _. rewrite !length_app. simpl. lia.
      * intros H. exfalso. apply H. apply in_app_iff. right. now left.
    + intros H. apply Hnin'. apply in_app_iff. now right.
    + assumption.
Qed.

Lemma addCheckList_no_duplicates_witness :
  NoDup (World.checkList threeCells) /\
  World.checkList (World.addCheckList threeCells 2%nat) = [1; 3; 2]%nat.
Proof.
  assert (H : NoDup (World.checkList threeCells)).
  { simpl. repeat constructor; simpl; intuition discriminate. }
  split; [exact H|].
  exact (proj1 (proj2 (addCheckList_no_duplicates threeCells [] 2%nat H))).
Defined.

(** ** Ant: roulette-wheel selection *)

Lemma rouletteWheel_from_Some (r : number) (probs : list number) (i : Z)
    (c : number) (j : Z) :
  Ant.rouletteWheel_from r probs i c = Some j ->
  exists k, j = (i + Z.of_nat k)%Z /\ (k < length probs)%nat /\
            r <= cumulativeFrom c probs k /\
            forall k', (k' < k)%nat -> ~ r <= cumulativeFrom c probs k'.
Proof.
  revert i c. induction probs as [|p probs IH]; intros i c; simpl;
    [discriminate|].
  destruct (Qle_bool r (c + p)) eqn:E.
  - intros [= <-]. exists 0%nat. repeat split; try lia.
    now apply Qle_bool_iff.
  - intros H. destruct (IH _ _ H) as (k & -> & Hk & Hr & Hfirst).
    exists (S k). repeat split; try lia; try assumption.
    intros [|k'] Hk'.
    + unfold cumulativeFrom. simpl. intros Hle.
      apply Qle_bool_iff in Hle. congruence.
    + apply (Hfirst k'). lia.
Qed.

Lemma rouletteWheel_from_None (r : number) (probs : list number) (i : Z)
    (c : number) :
  Ant.rouletteWheel_from r probs i c = None ->
  forall k, (k < length probs)%nat -> ~ r <= cumulativeFrom c probs k.
Proof.
  revert i c. induction probs as [|p probs IH]; intros i c; simpl;
    [intros _ k Hk; lia|].
  destruct (Qle_bool r (c + p)) eqn:E; [discriminate|].
  intros H [|k] Hk.
  - unfold cumulativeFrom. simpl. intros Hle.
    apply Qle_bool_iff in Hle. congruence.
  - apply (IH _ _ H k). lia.
Qed.

Lemma rouletteWheel_at_range (r : number) (probs : list number) :
  probs <> [] ->
  (0 <= Ant.rouletteWheel_at r probs < Z.of_nat (length probs))%Z.
Proof.
  intros Hne. unfold Ant.rouletteWheel_at.
  destruct (Ant.rouletteWheel_from r probs 0 0) as [j|] eqn:E.
  - apply rouletteWheel_from_Some in E as (k & -> & Hk & _). lia.
  - destruct probs; [congruence|]. simpl length. lia.
Qed.

(** C8.  For a draw [r] and a non-empty probability vector,
    [rouletteWheel] returns a valid index; when some cumulative sum reaches
    [r] it is the first index whose cumulative sum is at least [r], and
    when none does it is the last index. *)
Theorem rouletteWheel_spec (r : number) (probs : list number) :
  probs <> [] ->
  let i := Ant.rouletteWheel_at r probs in
  (0 <= i < Z.of_nat (length probs))%Z /\
  ((exists k, (k < length probs)%nat /\ r <= cumulative probs k) ->
   r <= cumulative probs (Z.to_nat i) /\
   forall k, (k < Z.to_nat i)%nat -> ~ r <= cumulative probs k) /\
  ((forall k, (k < length probs)%nat -> ~ r <= cumulative probs k) ->
   i = (Z.of_nat (length probs) - 1)%Z).
Proof.
  intros Hne i. split; [now apply rouletteWheel_at_range|].
  unfold i, Ant.rouletteWheel_at, cumulative.
  destruct (Ant.rouletteWheel_from r probs 0 0) as [j|] eqn:E.
  - apply rouletteWheel_from_Some in E as (k & -> & Hk & Hr & Hfirst).
    simpl. rewrite Nat2Z.id. split.
    + intros _. split; assumption.
    + intros Hnone. exfalso. exact (Hnone k Hk Hr).
  - split; [|reflexivity].
    intros (k & Hk & Hr). exfalso.
    exact (rouletteWheel_from_None _ _ _ E Hk Hr).
Qed.

Lemma rouletteWheel_spec_witness :
  sampleProbs <> [] /\
  (0 <= Ant.rouletteWheel_at 0.35 sampleProbs
   < Z.of_nat (length sampleProbs))%Z.
Proof.
  assert (H : sampleProbs <> []) by discriminate.
  split; [exact H|]. exact (proj1 (rouletteWheel_spec 0.35 H)).
Defined.

(** ** Ant: transition probabilities *)

Lemma fold_left_Qplus_acc (l : list number) (c : number) :
  fold_left Qplus l c == c + sumOf l.
Proof.
  unfold sumOf. revert c. induction l as [|a l IH]; intros c; simpl.
  - ring.
  - rewrite (IH (c + a)), (IH (0 + a)). ring.
Qed.

Lemma sumOf_cons (a : number) (l : list number) :
  sumOf (a :: l) == a + sumOf l.
Proof.
  unfold sumOf at 1. simpl. rewrite fold_left_Qplus_acc. ring.
Qed.

Lemma sumOf_scaled (l : list number) (s : number) :
  sumOf (List.map (fun v => v / s) l) == sumOf l / s.
Proof.
  induction l as [|a l IH]; simpl.
  - unfold sumOf. simpl. unfold Qdiv. ring.
  - rewrite !sumOf_cons, IH. unfold Qdiv. ring.
Qed.

Lemma sumOf_constant (A : Type) (l : list A) (k : number) :
  sumOf (List.map (fun _ => k) l) == inject_Z (Z.of_nat (length l)) * k.
Proof.
  induction l as [|a l IH].
  - unfold sumOf. simpl. ring.
  - cbn [List.map length]. rewrite sumOf_cons, IH, Nat2Z.inj_succ.
    unfold Z.succ. rewrite inject_Z_plus. ring.
Qed.

Lemma normalize_length (values : list number) (sum : number) :
  length (Ant.normalize values sum) = length values.
Proof.
  unfold Ant.normalize. destruct (Qgtb sum 0); apply length_map.
Qed.

(** The vector left by [normalize] on a non-empty array and its sum adds up
    to 1. *)
Lemma normalize_sums_to_1 (values : list number) :
  values <> [] -> sumOf (Ant.normalize values (sumOf values)) == 1.
Proof.
  intros Hne. unfold Ant.normalize.
  destruct (Qgtb (sumOf values) 0) eqn:E.
  - apply Qgtb_gt in E. rewrite sumOf_scaled. field. lra.
  - rewrite sumOf_constant.
    assert (0 < inject_Z (Z.of_nat (length values))).
    { change 0 with (inject_Z 0). rewrite <- Zlt_Qlt.
      destruct values; [congruence|]. simpl length. lia. }
    field. lra.
Qed.

Section Transition.

Variable Direction_M : list (Z * Z).
Variable Math_pow : number -> number -> number.
Variable Math_sqrt : number -> number.

Variable P : World.Params.
Variable h : Heap.

Local Abbreviation val := (Ant.val Math_pow Math_sqrt P h).
Local Abbreviation probabilities :=
  (Ant.probabilities Math_pow Math_sqrt P h).

Lemma valueStep_fold (this : Ant.t) (allowed : list loc)
    (values : list number) (sum : number) :
  fold_left (Ant.valueStep Math_pow Math_sqrt P h this) allowed
    (values, sum)
  = (values ++ List.map (val this) allowed,
     fold_left Qplus (List.map (val this) allowed) sum).
Proof.
  revert values sum.
  induction allowed as [|c allowed IH]; intros values sum; simpl.
  - now rewrite app_nil_r.
  - rewrite IH, <- app_assoc. reflexivity.
Qed.

Lemma probabilities_eq (this : Ant.t) (allowed : list loc) :
  probabilities this allowed
  = Ant.normalize (List.map (val this) allowed)
      (sumOf (List.map (val this) allowed)).
Proof.
  unfold Ant.probabilities. rewrite valueStep_fold. reflexivity.
Qed.

(** C6.  The value computed for a candidate [c] is
    [tau ^ alpha * eta ^ beta], with [tau] and [eta] as the specification
    gives them for the status of the ant, the distance being the
    Euclidean distance from [c] to the home cell; the array [values]
    filled by the loop holds this value for every candidate, in order. *)
Theorem val_spec (this : Ant.t) (c : loc) (allowed : list loc) :
  val this c
  = Math_pow (specTau (World.tau0 P) (Ant.status this) (h c))
      (World.alpha P)
    * Math_pow
        (specEta (Ant.status this)
           (euclid Math_sqrt (h c) (h (Ant.homePosition this))))
        (World.beta P)
  /\ fst (fold_left (Ant.valueStep Math_pow Math_sqrt P h this) allowed
            ([], 0))
     = List.map (val this) allowed.
Proof.
  split.
  - unfold Ant.val, specTau, specEta, euclid.
    destruct (Ant.status this); reflexivity.
  - rewrite valueStep_fold. reflexivity.
Qed.

(** In exact arithmetic the probability vector of a non-empty candidate
    set has one entry per candidate and sums to 1; it is [value / sum]
    entry by entry when the sum of the values is positive, and [1 / N] in
    each of its [N] entries when the sum is 0. *)
Theorem probabilities_normalized (this : Ant.t) (allowed : list loc) :
  allowed <> [] ->
  let values := List.map (val this) allowed in
  let probs := probabilities this allowed in
  length probs = length allowed /\
  sumOf probs == 1 /\
  (0 < sumOf values ->
   probs = List.map (fun v => v / sumOf values) values) /\
  (sumOf values == 0 ->
   probs = List.map
             (fun _ => 1 / inject_Z (Z.of_nat (length allowed))) values).
Proof.
  intros Hne values probs. unfold probs. rewrite probabilities_eq.
  fold values. split; [|split; [|split]].
  - rewrite normalize_length. apply length_map.
  - apply normalize_sums_to_1. unfold values.
    destruct allowed; [congruence|discriminate].
  - intros Hpos. unfold Ant.normalize.
    apply Qgtb_gt in Hpos. now rewrite Hpos.
  - intros Hz. unfold Ant.normalize.
    replace (Qgtb (sumOf values) 0) with false
      by (symmetry; apply Qgtb_le; lra).
    unfold values at 1. now rewrite length_map.
Qed.

End Transition.

(** ** Ant: neighbours and the tabu filter *)

Lemma move_Some (p : Position.t) (d : Z * Z) (map : list (list loc))
    (c : loc) :
  Position.move p d map None = Some c ->
  inBounds map (Position.x p + fst d) (Position.y p + snd d)
  /\ cellAt map (Position.x p + fst d) (Position.y p + snd d) c.
Proof.
  unfold Position.move, inBounds, cellAt. rewrite !Z.mul_1_r.
  destruct (_ || _)%bool eqn:E; [discriminate|].
  apply orb_false_iff in E as [E E4].
  apply orb_false_iff in E as [E E3].
  apply orb_false_iff in E as [E1 E2].
  apply Z.ltb_ge in E1, E2.
  rewrite Z.geb_leb in E3, E4. apply Z.leb_gt in E3, E4.
  destruct (nth_error map _) as [row|] eqn:Er; [|discriminate].
  intros Hc. repeat split; try assumption. now exists row.
Qed.

Lemma isInPath_In (this : Ant.t) (c : loc) :
  Ant._isInPath this c = true <-> In c (Ant.path this).
Proof.
  unfold Ant._isInPath.
  induction (Ant.path this) as [|p path IH]; simpl.
  - split; [discriminate|contradiction].
  - destruct (Nat.eqb_spec p c) as [->|Hne].
    + split; auto.
    + rewrite IH. split; [auto|intros [H|H]; congruence].
Qed.

Lemma index_In (a : list loc) (idx : Z) :
  (0 <= idx < Z.of_nat (length a))%Z ->
  exists c, Ant.index a idx = Some c /\ In c a.
Proof.
  intros Hr. unfold Ant.index.
  replace (idx <? 0)%Z with false by (symmetry; apply Z.ltb_ge; lia).
  destruct (nth_error a (Z.to_nat idx)) as [c|] eqn:E.
  - exists c. split; [reflexivity|]. eapply nth_error_In, E.
  - apply nth_error_None in E. lia.
Qed.

Section Neighbours.

Variable Direction_M : list (Z * Z).
Variable h : Heap.
Variable w : World.t.

Lemma neighborStep_fold (position : loc) (dirs : list (Z * Z))
    (acc : list loc) (n : loc) :
  In n (fold_left (Ant.neighborStep h w position) dirs acc) ->
  In n acc \/
  (Position.type (h n) <> Position.TYPE_BARRIER /\
   exists d, In d dirs /\
     Position.move (h position) d (World.map w) None = Some n).
Proof.
  revert acc. induction dirs as [|d dirs IH]; intros acc; simpl;
    [now left|].
  intros H. apply IH in H as [H|(Hb & d' & Hd' & Hm)].
  - unfold Ant.neighborStep in H.
    destruct (Position.move (h position) d (World.map w) None)
      as [np|] eqn:Em; [|now left].
    destruct (Position.CellType_eqb (Position.type (h np))
                Position.TYPE_BARRIER) eqn:Eb; simpl in H; [now left|].
    apply in_app_iff in H as [H|[<-|[]]]; [now left|right].
    split.
    + intros Hty. apply CellType_eqb_eq in Hty. congruence.
    + exists d. split; [now left|assumption].
  - right. split; [assumption|]. exists d'. split; [now right|assumption].
Qed.

Lemma getNeighbors_isNeighbor (position n : loc) :
  In n (Ant._getNeighbors Direction_M h w position) ->
  isNeighbor Direction_M h w position n.
Proof.
  intros H. apply neighborStep_fold in H as [[]|(Hb & d & Hd & Hm)].
  split; [assumption|]. exists d. split; [assumption|].
  now apply move_Some.
Qed.

Lemma tabuStep_fold (this : Ant.t) (neighbors acc : list loc) :
  fold_left (Ant.tabuStep this) neighbors acc
  = acc ++ filter (fun n => negb (Ant._isInPath this n)) neighbors.
Proof.
  revert acc. induction neighbors as [|n neighbors IH]; intros acc; simpl.
  - now rewrite app_nil_r.
  - rewrite IH. unfold Ant.tabuStep.
    destruct (negb (Ant._isInPath this n)); [|reflexivity].
    now rewrite <- app_assoc.
Qed.

(** The candidate set: the neighbours outside the path, or all the
    neighbours when there is none. *)
Lemma allowedOf_cases (this : Ant.t) (neighbors : list loc) :
  let free := filter (fun n => negb (Ant._isInPath this n)) neighbors in
  (free = [] /\ Ant.allowedOf this neighbors = neighbors)
  \/ (free <> [] /\ Ant.allowedOf this neighbors = free).
Proof.
  unfold Ant.allowedOf. rewrite tabuStep_fold. simpl.
  destruct (filter _ neighbors) as [|c free]; simpl.
  - now left.
  - right. split; [discriminate|reflexivity].
Qed.

Variable Math_pow : number -> number -> number.
Variable Math_sqrt : number -> number.
Variable P : World.Params.

Local Abbreviation _selectNext :=
  (Ant._selectNext Direction_M Math_pow Math_sqrt P h w).

Lemma selectNext_Some (this : Ant.t) (current : loc) (g : Rng) :
  Ant._getNeighbors Direction_M h w current <> [] ->
  exists c,
    fst (_selectNext this current g) = Some c /\
    In c (Ant.allowedOf this (Ant._getNeighbors Direction_M h w current)).
Proof.
  intros Hne. unfold Ant._selectNext.
  set (neighbors := Ant._getNeighbors Direction_M h w current) in *.
  destruct neighbors as [|n0 neighbors'] eqn:En; [congruence|].
  rewrite <- En. replace (length neighbors =? 0)%nat with false
    by (rewrite En; reflexivity).
  set (allowed := Ant.allowedOf this neighbors).
  assert (Ha : allowed <> []).
  { unfold allowed.
    destruct (allowedOf_cases this neighbors) as [[_ ->]|[Hf ->]];
      [rewrite En; discriminate|assumption]. }
  unfold Ant.rouletteWheel. simpl.
  set (values := Ant.probabilities Math_pow Math_sqrt P h this allowed).
  assert (Hlen : length values = length allowed).
  { unfold values. rewrite probabilities_eq, normalize_length.
    apply length_map. }
  assert (Hv : values <> []).
  { destruct values; [|discriminate]. destruct allowed; [congruence|].
    discriminate. }
  pose proof (rouletteWheel_at_range (draws g (pos g)) Hv) as Hr.
  rewrite Hlen in Hr. destruct (index_In _ Hr) as (c & Hc & Hin).
  exists c. split; assumption.
Qed.

(** C4.  The targets enumerated by [_getNeighbors] are cells of the grid
    one step away, never out of bounds and never barriers.  The candidate
    set is made of the neighbours outside the path when there is one, and
    of all the neighbours otherwise; with no neighbour [_selectNext]
    returns [null], and otherwise it returns a candidate.  So the cell
    returned is in the path only when every neighbour is. *)
Theorem selectNext_tabu (this : Ant.t) (current : loc) (g : Rng) :
  let neighbors := Ant._getNeighbors Direction_M h w current in
  let candidates := Ant.allowedOf this neighbors in
  let next := fst (_selectNext this current g) in
  (forall n, In n neighbors -> isNeighbor Direction_M h w current n) /\
  ((exists n, In n neighbors /\ ~ In n (Ant.path this)) ->
   forall c, In c candidates <->
             In c neighbors /\ ~ In c (Ant.path this)) /\
  ((forall n, In n neighbors -> In n (Ant.path this)) ->
   candidates = neighbors) /\
  (neighbors = [] -> next = None) /\
  (neighbors <> [] -> exists c, next = Some c /\ In c candidates) /\
  (forall c, next = Some c ->
     In c neighbors /\
     (In c (Ant.path this) ->
      forall n, In n neighbors -> In n (Ant.path this))).
Proof.
  intros neighbors candidates next.
  assert (Hfilter : forall c,
             In c (filter (fun n => negb (Ant._isInPath this n)) neighbors)
             <-> In c neighbors /\ ~ In c (Ant.path this)).
  { intros c. rewrite filter_In, negb_true_iff, <- isInPath_In.
    destruct (Ant._isInPath this c); intuition congruence. }
  assert (Hfree : (exists n, In n neighbors /\ ~ In n (Ant.path this)) ->
                  forall c, In c candidates <->
                            In c neighbors /\ ~ In c (Ant.path this)).
  { intros (n & Hn & Hnp) c. unfold candidates.
    destruct (allowedOf_cases this neighbors) as [[Hf _]|[_ ->]];
      [|apply Hfilter].
    exfalso. assert (Hin : In n []) by (rewrite <- Hf; now apply Hfilter).
    destruct Hin. }
  assert (Hall : (forall n, In n neighbors -> In n (Ant.path this)) ->
                 candidates = neighbors).
  { intros Hin. unfold candidates.
    destruct (allowedOf_cases this neighbors) as [[_ ->]|[Hf _]];
      [reflexivity|exfalso].
    destruct (filter _ neighbors) as [|c free] eqn:E; [congruence|].
    assert (Hc : In c neighbors /\ ~ In c (Ant.path this))
      by (apply Hfilter; rewrite ?E; now left).
    destruct Hc as [Hc Hnp]. auto. }
  assert (Hempty : neighbors = [] -> next = None).
  { intros E. unfold next, Ant._selectNext. fold neighbors.
    now rewrite E. }
  assert (Hsome : neighbors <> [] ->
                  exists c, next = Some c /\ In c candidates).
  { intros Hne. now apply selectNext_Some. }
  split; [|split; [|split; [|split; [|split]]]]; try assumption.
  { intros n Hn. now apply getNeighbors_isNeighbor. }
  intros c Hc.
  assert (Hne : neighbors <> []).
  { intros E. rewrite (Hempty E) in Hc. discriminate. }
  destruct (Hsome Hne) as (c' & Hc' & Hin).
  rewrite Hc in Hc'. injection Hc' as <-.
  split.
  - unfold candidates in Hin.
    destruct (allowedOf_cases this neighbors) as [[_ E]|[_ E]];
      rewrite E in Hin; [assumption|]. now apply Hfilter in Hin.
  - intros Hcp n Hn.
    destruct (in_dec Nat.eq_dec n (Ant.path this)) as [Hnp|Hnp];
      [assumption|exfalso].
    assert (Hex : exists n, In n neighbors /\ ~ In n (Ant.path this))
      by (exists n; split; assumption).
    apply (Hfree Hex) in Hin. destruct Hin as [_ Hin]. auto.
Qed.

End Neighbours.

(** ** Ant: the deposit *)

Lemma upd_same (h : Heap) (l : loc) (p : Position.t) : upd h l p l = p.
Proof. unfold upd. now rewrite Nat.eqb_refl. Qed.

Lemma upd_other (h : Heap) (l l' : loc) (p : Position.t) :
  l' <> l -> upd h l p l' = h l'.
Proof.
  intros Hne. unfold upd. now destruct (Nat.eqb_spec l' l).
Qed.

Lemma addPheromone_type (p : Position.t) (amount : number)
    (pType : Position.PType) :
  Position.type (Position.addPheromone p amount pType) = Position.type p.
Proof.
  unfold Position.addPheromone.
  destruct (Position.type p) eqn:E; try assumption.
  now rewrite type_setP.
Qed.

Lemma addTimes_type (k : nat) (amount : number) (pType : Position.PType)
    (p : Position.t) :
  Position.type (addTimes k amount pType p) = Position.type p.
Proof.
  induction k as [|k IH]; [reflexivity|].
  unfold addTimes in *. simpl. now rewrite addPheromone_type.
Qed.

Lemma addTimes_other (k : nat) (amount : number) (pType : Position.PType)
    (p : Position.t) :
  Position.type p <> Position.TYPE_NORMAL -> addTimes k amount pType p = p.
Proof.
  intros Hn. induction k as [|k IH]; [reflexivity|].
  unfold addTimes in *. simpl. rewrite IH.
  unfold Position.addPheromone. destruct (Position.type p); congruence.
Qed.

Lemma addTimes_normal (k : nat) (amount : number) (pType : Position.PType)
    (p : Position.t) :
  Position.type p = Position.TYPE_NORMAL ->
  Position.getP (addTimes k amount pType p) pType
  == Position.getP p pType + inject_Z (Z.of_nat k) * amount
  /\ forall ch, ch <> pType ->
       Position.getP (addTimes k amount pType p) ch = Position.getP p ch.
Proof.
  intros Hn. induction k as [|k [IH1 IH2]].
  - split; [|reflexivity]. simpl. ring.
  - pose proof (addTimes_type k amount pType p) as Hty.
    change (addTimes (S k) amount pType p)
      with (Position.addPheromone (addTimes k amount pType p) amount pType).
    unfold Position.addPheromone. rewrite Hty, Hn. split.
    + rewrite getP_setP_same, IH1, Nat2Z.inj_succ. unfold Z.succ.
      rewrite inject_Z_plus. ring.
    + intros ch Hch. rewrite getP_setP_other by congruence. now apply IH2.
Qed.

Lemma depositStep_fold (deltaTau : number) (pType : Position.PType)
    (path : list loc) (h : Heap) (w : World.t) :
  let r := fold_left (Ant.depositStep deltaTau pType) path (h, w) in
  (forall c, fst r c
             = addTimes (count_occ Nat.eq_dec path c) deltaTau pType (h c))
  /\ (forall c, In c (World.checkList (snd r))
                <-> In c path \/ In c (World.checkList w)).
Proof.
  revert h w. induction path as [|a path IH]; intros h w; simpl.
  - split; [reflexivity|]. intros c. tauto.
  - destruct (IH (upd h a (Position.addPheromone (h a) deltaTau pType))
                (World.addCheckList w a)) as [IH1 IH2].
    split.
    + intros c. rewrite IH1. destruct (Nat.eq_dec a c) as [->|Hne].
      * rewrite upd_same. unfold addTimes. now rewrite Nat.iter_succ_r.
      * rewrite upd_other by congruence. reflexivity.
    + intros c. rewrite IH2, addCheckList_In. intuition congruence.
Qed.

(** C2, as the code has it.  [_depositPheromone] does nothing on a path of
    length [L <= 1].  Otherwise it calls [addPheromone(Q / L)] once for
    every entry of the path: a cell that is not Normal is unchanged, a
    Normal cell that occurs [k] times in the path gains [k * Q / L] in the
    given channel (exactly [Q / L] when it occurs once) and keeps its other
    channel, a cell outside the path is unchanged, and every cell of the
    path is in the check list afterwards.  With [Q = 100] and [L = 4] the
    amount [Q / L] is 25. *)
Theorem depositPheromone_spec (P : World.Params) (h : Heap) (w : World.t)
    (this : Ant.t) (pType : Position.PType) :
  let L := length (Ant.path this) in
  let deltaTau := World.Q P / inject_Z (Z.of_nat L) in
  let h' := fst (Ant._depositPheromone P h w this pType) in
  let w' := snd (Ant._depositPheromone P h w this pType) in
  ((L <= 1)%nat -> h' = h /\ w' = w) /\
  ((1 < L)%nat ->
   forall c,
     let k := count_occ Nat.eq_dec (Ant.path this) c in
     (Position.type (h c) <> Position.TYPE_NORMAL -> h' c = h c) /\
     (Position.type (h c) = Position.TYPE_NORMAL ->
      Position.type (h' c) = Position.TYPE_NORMAL /\
      Position.getP (h' c) pType
      == Position.getP (h c) pType + inject_Z (Z.of_nat k) * deltaTau /\
      (k = 1%nat ->
       Position.getP (h' c) pType = Position.getP (h c) pType + deltaTau) /\
      (forall ch, ch <> pType ->
                  Position.getP (h' c) ch = Position.getP (h c) ch)) /\
     (~ In c (Ant.path this) -> h' c = h c) /\
     (In c (Ant.path this) -> In c (World.checkList w'))) /\
  (World.Q P == 100 -> L = 4%nat -> deltaTau == 25).
Proof.
  intros L deltaTau h' w'. split; [|split].
  - intros HL. unfold h', w', Ant._depositPheromone. fold L.
    apply Nat.leb_le in HL. rewrite HL. split; reflexivity.
  - intros HL c k. unfold h', w', Ant._depositPheromone. fold L.
    apply Nat.leb_gt in HL. rewrite HL. fold deltaTau.
    destruct (depositStep_fold deltaTau pType (Ant.path this) h w)
      as [Hh Hw].
    rewrite Hh. fold k. repeat split.
    + now apply addTimes_other.
    + now rewrite addTimes_type.
    + now apply addTimes_normal.
    + intros ->. unfold addTimes. simpl. unfold Position.addPheromone.
      rewrite H. apply getP_setP_same.
    + now apply addTimes_normal.
    + intros Hnin. unfold k.
      now rewrite (proj1 (count_occ_not_In Nat.eq_dec _ _) Hnin).
    + intros Hin. apply Hw. now left.
  - intros HQ HL. unfold deltaTau. rewrite HQ, HL. reflexivity.
Qed.

Lemma depositPheromone_spec_witness :
  (1 < length (Ant.path corridorAntAtFood))%nat /\
  Position.getP
    (fst (Ant._depositPheromone sampleParams corridorHeap corridor
            corridorAntAtFood Position.P_TYPE_FOOD) 3%nat)
    Position.P_TYPE_FOOD
  = Position.getP (corridorHeap 3%nat) Position.P_TYPE_FOOD
    + World.Q sampleParams / inject_Z 7.
Proof.
  assert (H : (1 < length (Ant.path corridorAntAtFood))%nat)
    by (simpl; lia).
  split; [exact H|].
  destruct (proj1 (proj2 (depositPheromone_spec sampleParams corridorHeap
                            corridor corridorAntAtFood
                            Position.P_TYPE_FOOD)) H 3%nat)
    as (_ & Hn & _).
  exact (proj1 (proj2 (proj2 (Hn eq_refl))) eq_refl).
Defined.

(** The corridor is walked by [move]: five steps of a fresh ant take it
    over cell 1 twice and next to the food, the cells being still as they
    were; the sixth step reaches the food and leaves [2 * 100 / 7] in the
    food channel of cell 1 and [100 / 7] in that of cells 0 and 3. *)
Example corridor_walk :
  (let '(h, w, g, a) := sampleMoves 5 corridorStart in
   a = corridorAnt /\
   List.map h (seq 0 6) = List.map corridorHeap (seq 0 6)) /\
  (let '(h, w, g, a) := sampleMoves 6 corridorStart in
   Ant.path a = [4%nat] /\ Ant.status a = Ant.STATUS_CARRY_FOOD /\
   Position.getP (h 1%nat) Position.P_TYPE_FOOD == 200 # 7 /\
   Position.getP (h 0%nat) Position.P_TYPE_FOOD == 100 # 7 /\
   Position.getP (h 3%nat) Position.P_TYPE_FOOD == 100 # 7).
Proof. vm_compute. repeat split; reflexivity. Qed.

(** C2 as stated fails on a path that visits a Normal cell twice: on the
    path of the corridor, cell 1 gains [2 * Q / L], not [Q / L]. *)
Lemma depositPheromone_counterexample :
  ~ (forall c,
        In c (Ant.path corridorAntAtFood) ->
        Position.type (corridorHeap c) = Position.TYPE_NORMAL ->
        Position.getP
          (fst (Ant._depositPheromone sampleParams corridorHeap corridor
                  corridorAntAtFood Position.P_TYPE_FOOD) c)
          Position.P_TYPE_FOOD
        == Position.getP (corridorHeap c) Position.P_TYPE_FOOD
           + World.Q sampleParams
             / inject_Z (Z.of_nat (length (Ant.path corridorAntAtFood)))).
Proof.
  intros H. specialize (H 1%nat).
  assert (Hin : In 1%nat (Ant.path corridorAntAtFood))
    by (simpl; tauto).
  specialize (H Hin eq_refl). vm_compute in H. discriminate H.
Qed.

(** ** World: evaporation and rendering *)



Section EvaporateAndRender.

Variable P : World.Params.

Local Abbreviation shown :=
  (fun (h : Heap) (l : loc) =>
     Position.getP (h l) (World.showPheromoneType P)).


End EvaporateAndRender.




(** ** The driver *)

Lemma setNth_length (a : list Ant.t) (i : nat) (v : Ant.t) :
  length (Aco.setNth a i v) = length a.
Proof.
  revert i. induction a as [|u a IH]; intros [|i]; simpl; auto.
Qed.

Section Driver.

Variable Direction_M : list (Z * Z).
Variable Math_pow : number -> number -> number.
Variable Math_sqrt : number -> number.
Variable P : World.Params.

Local Abbreviation moveAnt :=
  (Aco.moveAnt Direction_M Math_pow Math_sqrt P).
Local Abbreviation subStep :=
  (Aco.subStep Direction_M Math_pow Math_sqrt P).
Local Abbreviation subSteps :=
  (Aco.subSteps Direction_M Math_pow Math_sqrt P).
Local Abbreviation tick := (Aco.tick Direction_M Math_pow Math_sqrt P).

Lemma spawn_spec (s : Aco.Sim) :
  Aco.s_trace (Aco.spawn P s) = Aco.s_trace s ++ [Aco.EvSpawn]
  /\ length (Aco.s_ants (Aco.spawn P s)) = S (length (Aco.s_ants s)).
Proof.
  unfold Aco.spawn. destruct (Ant._init P (Aco.s_world s) (Aco.s_rng s)).
  simpl. split; [reflexivity|]. rewrite length_app. simpl. lia.
Qed.

(** The loop that spawns ants stops with the population at the
    configured count. *)
Lemma topUp_spec (s : Aco.Sim) :
  let k := Z.to_nat (World.ANT_NUMBER P
                     - Z.of_nat (length (Aco.s_ants s))) in
  Aco.s_trace (Aco.topUp P s) = Aco.s_trace s ++ repeat Aco.EvSpawn k
  /\ length (Aco.s_ants (Aco.topUp P s)) = (length (Aco.s_ants s) + k)%nat.
Proof.
  unfold Aco.topUp.
  remember (Z.to_nat (World.ANT_NUMBER P
                      - Z.of_nat (length (Aco.s_ants s)))) as k eqn:Ek.
  simpl. revert s Ek. induction k as [|k IH]; intros s Ek; simpl.
  - split; [now rewrite app_nil_r|lia].
  - replace (Z.of_nat (length (Aco.s_ants s)) <? World.ANT_NUMBER P)%Z
      with true by (symmetry; apply Z.ltb_lt; lia).
    destruct (spawn_spec s) as [Ht Hl].
    destruct (IH (Aco.spawn P s)) as [IHt IHl]; [rewrite Hl; lia|].
    rewrite IHt, IHl, Ht, Hl, <- app_assoc. split; [reflexivity|lia].
Qed.

Lemma moveAnt_spec (s : Aco.Sim) (i : nat) :
  (i < length (Aco.s_ants s))%nat ->
  Aco.s_trace (moveAnt s i) = Aco.s_trace s ++ [Aco.EvMove i]
  /\ length (Aco.s_ants (moveAnt s i)) = length (Aco.s_ants s).
Proof.
  intros Hi. unfold Aco.moveAnt.
  destruct (nth_error (Aco.s_ants s) i) as [a|] eqn:E.
  - destruct (Ant.move _ _ _ _ _ _ _ _) as [[[h w] g] a']. simpl.
    split; [reflexivity|apply setNth_length].
  - apply nth_error_None in E. lia.
Qed.

Lemma moveAnt_fold (idxs : list nat) (s : Aco.Sim) :
  (forall i, In i idxs -> (i < length (Aco.s_ants s))%nat) ->
  Aco.s_trace (fold_left moveAnt idxs s)
  = Aco.s_trace s ++ List.map Aco.EvMove idxs
  /\ length (Aco.s_ants (fold_left moveAnt idxs s))
     = length (Aco.s_ants s).
Proof.
  revert s. induction idxs as [|i idxs IH]; intros s Hidx; simpl.
  - split; [now rewrite app_nil_r|reflexivity].
  - destruct (@moveAnt_spec s i) as [Ht Hl]; [apply Hidx; now left|].
    destruct (IH (moveAnt s i)) as [IHt IHl].
    { intros j Hj. rewrite Hl. apply Hidx. now right. }
    rewrite IHt, IHl, Ht, Hl, <- app_assoc. split; reflexivity.
Qed.

Lemma subStep_spec (s : Aco.Sim) :
  Aco.s_trace (subStep s)
  = Aco.s_trace s ++ subStepCalls (length (Aco.s_ants s))
  /\ length (Aco.s_ants (subStep s)) = length (Aco.s_ants s).
Proof.
  unfold Aco.subStep. apply moveAnt_fold.
  intros i Hi. apply in_seq in Hi. lia.
Qed.

Lemma iter_subStep_spec (steps : nat) (s : Aco.Sim) :
  Aco.s_trace (Nat.iter steps subStep s)
  = Aco.s_trace s
    ++ concat (repeat (subStepCalls (length (Aco.s_ants s))) steps)
  /\ length (Aco.s_ants (Nat.iter steps subStep s))
     = length (Aco.s_ants s).
Proof.
  induction steps as [|steps [IHt IHl]]; simpl.
  - split; [now rewrite app_nil_r|reflexivity].
  - destruct (subStep_spec (Nat.iter steps subStep s)) as [Ht Hl].
    rewrite Ht, Hl, IHt, IHl, <- app_assoc. split; [|reflexivity].
    f_equal. set (c := subStepCalls _).
    clear. induction steps as [|steps IH]; simpl.
    + now rewrite app_nil_r.
    + now rewrite <- app_assoc, IH.
Qed.

Lemma tick_spec (s : Aco.Sim) :
  let k := Z.to_nat (World.ANT_NUMBER P
                     - Z.of_nat (length (Aco.s_ants s))) in
  let n := (length (Aco.s_ants s) + k)%nat in
  Aco.s_trace (tick s)
  = Aco.s_trace s
    ++ tickCalls k n (Z.to_nat (World.stepsPerTick P))
  /\ length (Aco.s_ants (tick s)) = n.
Proof.
  intros k n. unfold Aco.tick, Aco.evaporate, Aco.subSteps.
  destruct (topUp_spec s) as [Ht Hl]. fold k in Ht, Hl. fold n in Hl.
  destruct (iter_subStep_spec (Z.to_nat (World.stepsPerTick P))
              (Aco.topUp P s)) as [Hst Hsl].
  destruct (World.evaporateAndRender _ _ _) as [h out]. simpl.
  rewrite Hst, Hsl, Ht, Hl. unfold tickCalls.
  rewrite <- !app_assoc. split; reflexivity.
Qed.

Local Abbreviation _run := (Aco._run Direction_M Math_pow Math_sqrt P).

(** Before the settings are applied or the simulation is started a call
    of [_run] does nothing. *)
Lemma run_idle (st : Aco.State) :
  Aco.world st = None \/ Aco.isSettingsApplied st = false
  \/ Aco.isSimulationStarted st = false ->
  _run st = st.
Proof.
  intros H. unfold Aco._run.
  destruct (Aco.isRun st); [reflexivity|]. simpl.
  destruct (Aco.world st); [|reflexivity].
  destruct H as [H|[->| ->]]; [discriminate|reflexivity|].
  now rewrite andb_false_r.
Qed.

End Driver.

Section Schedule.

Variable Direction_M : list (Z * Z).
Variable Math_pow : number -> number -> number.
Variable Math_sqrt : number -> number.
Variable P : World.Params.

Local Abbreviation moveAnt :=
  (Aco.moveAnt Direction_M Math_pow Math_sqrt P).
Local Abbreviation subStep :=
  (Aco.subStep Direction_M Math_pow Math_sqrt P).
Local Abbreviation tick := (Aco.tick Direction_M Math_pow Math_sqrt P).
Local Abbreviation _run := (Aco._run Direction_M Math_pow Math_sqrt P).
Local Abbreviation call := (perform Direction_M Math_pow Math_sqrt P).
Local Abbreviation calls :=
  (performAll Direction_M Math_pow Math_sqrt P).

Lemma sameSim_refl (s : Aco.Sim) : sameSim s s.
Proof. repeat split. Qed.

Lemma setNth_split (a : list Ant.t) (i : nat) (u v : Ant.t) :
  nth_error a i = Some u ->
  Aco.setNth a i v = firstn i a ++ v :: skipn (S i) a.
Proof.
  revert i. induction a as [|x a IH]; intros [|i] E; simpl in *;
    try discriminate; [reflexivity|].
  f_equal. now apply IH.
Qed.

Lemma spawn_perform (s s' : Aco.Sim) :
  sameSim s s' -> sameSim (Aco.spawn P s) (call s' Aco.EvSpawn).
Proof.
  intros (Hh & Hw & Ha & Hg & Hs). unfold Aco.spawn. simpl.
  rewrite Hw, Hg.
  destruct (Ant._init P (Aco.s_world s') (Aco.s_rng s')) as [a g].
  repeat split; simpl; congruence.
Qed.

Lemma moveAnt_perform (s s' : Aco.Sim) (i : nat) :
  sameSim s s' -> sameSim (moveAnt s i) (call s' (Aco.EvMove i)).
Proof.
  intros (Hh & Hw & Ha & Hg & Hs). unfold Aco.moveAnt. simpl.
  rewrite Hh, Hw, Ha, Hg.
  destruct (nth_error (Aco.s_ants s') i) as [a|] eqn:E;
    [|repeat split; assumption].
  destruct (Ant.move Direction_M Math_pow Math_sqrt P (Aco.s_heap s')
              (Aco.s_world s') (Aco.s_rng s') a) as [[[h w] g] a'].
  repeat split; simpl; try assumption.
  now apply setNth_split with (u := a).
Qed.

Lemma evaporate_perform (s s' : Aco.Sim) :
  sameSim s s' ->
  sameSim (Aco.evaporate P s) (call s' Aco.EvEvaporateAndRender).
Proof.
  intros (Hh & Hw & Ha & Hg & Hs). unfold Aco.evaporate. simpl.
  rewrite Hh, Hw.
  destruct (World.evaporateAndRender P (Aco.s_heap s') (Aco.s_world s'))
    as [h out].
  repeat split; simpl; assumption.
Qed.

Lemma spawnLoop_perform (k : nat) (s s' : Aco.Sim) :
  sameSim s s' ->
  k = Z.to_nat (World.ANT_NUMBER P - Z.of_nat (length (Aco.s_ants s))) ->
  sameSim (Aco.spawnLoop k P s) (calls (repeat Aco.EvSpawn k) s').
Proof.
  revert s s'. induction k as [|k IH]; intros s s' Hs Ek; simpl;
    [assumption|].
  replace (Z.of_nat (length (Aco.s_ants s)) <? World.ANT_NUMBER P)%Z
    with true by (symmetry; apply Z.ltb_lt; lia).
  apply IH; [now apply spawn_perform|].
  destruct (spawn_spec P s) as [_ Hl]. rewrite Hl. lia.
Qed.

Lemma moveAnt_fold_perform (idxs : list nat) (s s' : Aco.Sim) :
  sameSim s s' ->
  sameSim (fold_left moveAnt idxs s)
    (calls (List.map Aco.EvMove idxs) s').
Proof.
  revert s s'. induction idxs as [|i idxs IH]; intros s s' Hs; simpl;
    [assumption|].
  apply IH. now apply moveAnt_perform.
Qed.

Lemma concat_repeat_snoc (A : Type) (c : list A) (steps : nat) :
  concat (repeat c steps) ++ c = c ++ concat (repeat c steps).
Proof.
  induction steps as [|steps IH]; simpl.
  - now rewrite app_nil_r.
  - now rewrite <- app_assoc, IH.
Qed.

Lemma subSteps_perform (steps : nat) (s s' : Aco.Sim) :
  sameSim s s' ->
  sameSim (Nat.iter steps subStep s)
    (calls
       (concat (repeat (subStepCalls (length (Aco.s_ants s))) steps)) s').
Proof.
  intros Hs. induction steps as [|steps IH]; [assumption|].
  change (repeat ?c (S steps)) with (c :: repeat c steps).
  change (concat (?c :: ?l)) with (c ++ concat l).
  rewrite <- concat_repeat_snoc. unfold performAll in *.
  rewrite fold_left_app.
  change (Nat.iter (S steps) subStep s)
    with (subStep (Nat.iter steps subStep s)).
  unfold Aco.subStep at 1.
  destruct (iter_subStep_spec Direction_M Math_pow Math_sqrt P steps s)
    as [_ Hl].
  rewrite Hl. now apply moveAnt_fold_perform.
Qed.

(** A tick of the driver does to the simulation what its calls do when
    they are made one after the other: the spawns, then the moves of the
    sub-steps, then the one pass of [evaporateAndRender]. *)
Lemma tick_perform (s : Aco.Sim) :
  let k := Z.to_nat (World.ANT_NUMBER P
                     - Z.of_nat (length (Aco.s_ants s))) in
  let n := (length (Aco.s_ants s) + k)%nat in
  sameSim (tick s)
    (calls (tickCalls k n (Z.to_nat (World.stepsPerTick P))) s).
Proof.
  intros k n. unfold tickCalls, performAll.
  rewrite !fold_left_app. unfold Aco.tick.
  apply evaporate_perform. unfold Aco.subSteps.
  destruct (topUp_spec P s) as [_ Hl]. fold k in Hl. fold n in Hl.
  rewrite <- Hl. apply subSteps_perform.
  unfold Aco.topUp. fold k. apply spawnLoop_perform;
    [apply sameSim_refl|reflexivity].
Qed.

Lemma single_last (A : Type) (x : A) (l pre post : list A) :
  ~ In x l -> l ++ [x] = pre ++ x :: post -> pre = l /\ post = [].
Proof.
  revert pre. induction l as [|a l IH]; intros pre Hn E.
  - destruct pre as [|y pre]; simpl in E.
    + injection E as <-. split; reflexivity.
    + injection E as _ E. now destruct pre.
  - destruct pre as [|y pre]; simpl in E.
    + injection E as -> _. exfalso. apply Hn. now left.
    + injection E as <- E. destruct (IH pre) as [-> ->]; auto.
      intros H. apply Hn. now right.
Qed.

Lemma tickCalls_moves (k n steps : nat) :
  ~ In Aco.EvEvaporateAndRender
      (repeat Aco.EvSpawn k ++ concat (repeat (subStepCalls n) steps)).
Proof.
  intros H. apply in_app_or in H as [H|H].
  - apply repeat_spec in H. discriminate.
  - apply in_concat in H as (c & Hc & H). apply repeat_spec in Hc.
    subst c. unfold subStepCalls in H.
    apply in_map_iff in H as (i & E & _). discriminate.
Qed.

(** C7.  A tick of the running simulation does to the heap, the world,
    the ants, the stream of draws and the opacities exactly what these
    calls do, made one after the other in this order: [new Ant(world)]
    until the population is at the configured count, then [stepsPerTick]
    times the call [move()] of every ant in the order of the list, then
    [evaporateAndRender()].  That pass is the last call of the tick and
    the only one: none is made between the moves. *)
Theorem run_order (st : Aco.State) (w : World.t) :
  Aco.isRun st = false ->
  Aco.world st = Some w ->
  Aco.isSettingsApplied st = true ->
  Aco.isSimulationStarted st = true ->
  let k := Z.to_nat (World.ANT_NUMBER P
                     - Z.of_nat (length (Aco.antList st))) in
  let n := (length (Aco.antList st) + k)%nat in
  let steps := Z.to_nat (World.stepsPerTick P) in
  let final :=
    performAll Direction_M Math_pow Math_sqrt P (tickCalls k n steps)
      (simOf st w) in
  (Aco.heap (_run st) = Aco.s_heap final /\
   Aco.world (_run st) = Some (Aco.s_world final) /\
   Aco.antList (_run st) = Aco.s_ants final /\
   Aco.rng (_run st) = Aco.s_rng final /\
   Aco.screen (_run st) = Aco.s_screen final) /\
  (forall pre post,
      tickCalls k n steps = pre ++ Aco.EvEvaporateAndRender :: post ->
      pre = repeat Aco.EvSpawn k ++ concat (repeat (subStepCalls n) steps)
      /\ post = []) /\
  length (Aco.antList (_run st)) = n /\
  (World.ANT_NUMBER P <= Z.of_nat n)%Z /\
  Aco.isRun (_run st) = false.
Proof.
  intros Hrun Hw Hset Hstart k n steps final.
  destruct (tick_perform (simOf st w)) as (Hh & Hwd & Ha & Hg & Hs).
  simpl in Hh, Hwd, Ha, Hg, Hs.
  fold k in Hh, Hwd, Ha, Hg, Hs. fold n in Hh, Hwd, Ha, Hg, Hs.
  fold steps in Hh, Hwd, Ha, Hg, Hs. fold final in Hh, Hwd, Ha, Hg, Hs.
  destruct (tick_spec Direction_M Math_pow Math_sqrt P (simOf st w))
    as [_ Hl].
  simpl in Hl. fold k in Hl. fold n in Hl.
  unfold Aco._run. rewrite Hrun, Hw, Hset, Hstart. simpl.
  fold (simOf st w).
  split; [|split; [|split; [|split]]].
  - split; [assumption|]. split; [now rewrite Hwd|].
    split; [assumption|]. split; assumption.
  - intros pre post E. unfold tickCalls in E. rewrite app_assoc in E.
    exact (@single_last _ _ _ pre post (tickCalls_moves k n steps) E).
  - assumption.
  - unfold n, k. lia.
  - reflexivity.
Qed.

End Schedule.

Lemma run_order_witness :
  Aco.isRun sampleState = false /\
  Aco.antList (Aco._run sampleM samplePow sampleSqrt sampleParams
                 sampleState)
  = Aco.s_ants
      (performAll sampleM samplePow sampleSqrt sampleParams
         [Aco.EvSpawn; Aco.EvSpawn; Aco.EvMove 0; Aco.EvMove 1;
          Aco.EvMove 0; Aco.EvMove 1; Aco.EvEvaporateAndRender]
         (simOf sampleState corridor)).
Proof.
  split; [reflexivity|].
  exact (proj1 (proj2 (proj2 (proj1
           (@run_order sampleM samplePow sampleSqrt sampleParams
              sampleState corridor eq_refl eq_refl eq_refl eq_refl))))).
Defined.

(** The order of the calls shows in the state: from two ants that are
    about to reach the food, the tick leaves 56 in the food channel of
    cell 1; with a pass of [evaporateAndRender] after every move the same
    moves would leave 53.244576. *)
Example order_matters :
  Position.getP
    (Aco.heap (Aco._run sampleM samplePow sampleSqrt sampleParams busyState)
       1%nat) Position.P_TYPE_FOOD == 56 /\
  Position.getP
    (Aco.s_heap
       (performAll sampleM samplePow sampleSqrt sampleParams
          (interleavedCalls 2 2) (simOf busyState corridor)) 1%nat)
    Position.P_TYPE_FOOD == 53.244576.
Proof. split; vm_compute; reflexivity. Qed.

(** The first tick of the sample run, call by call. *)
Example sample_tick :
  Aco.trace (Aco._run sampleM samplePow sampleSqrt sampleParams sampleState)
  = [Aco.EvSpawn; Aco.EvSpawn; Aco.EvMove 0; Aco.EvMove 1; Aco.EvMove 0;
     Aco.EvMove 1; Aco.EvEvaporateAndRender].
Proof. vm_compute. reflexivity. Qed.

(** ** Sample runs *)

Lemma evaporatePheromone_exact_witness :
  Position.type (faintHeap 1%nat) = Position.TYPE_NORMAL /\
  Position.getP (Position.evaporatePheromone (faintHeap 1%nat) 0.02)
    Position.P_TYPE_FOOD
  < Position.getP (faintHeap 1%nat) Position.P_TYPE_FOOD /\
  exists n, forall m, (n <= m)%nat ->
    Position.getP (evaporateTimes m 0.02 (faintHeap 1%nat))
      Position.P_TYPE_FOOD = 0.
Proof.
  assert (Hty : Position.type (faintHeap 1%nat) = Position.TYPE_NORMAL)
    by reflexivity.
  assert (H0 : 0 < 0.02) by reflexivity.
  assert (H1 : 0.02 < 1) by reflexivity.
  assert (Hp : 0 < Position.getP (faintHeap 1%nat) Position.P_TYPE_FOOD)
    by reflexivity.
  destruct (proj2 (evaporatePheromone_exact (faintHeap 1%nat) 0.02
                     Position.P_TYPE_FOOD) Hty) as [_ H].
  destruct (H H0 H1 Hp) as [Hdec Hzero].
  split; [exact Hty|]. split; [exact (Hdec 0%nat Hp)|exact Hzero].
Defined.

Example probabilities_normalized_sample :
  [1; 3]%nat <> [] /\
  sumOf (Ant.probabilities samplePow sampleSqrt sampleParams corridorHeap
           corridorAnt [1; 3]%nat) == 1.
Proof.
  assert (H : [1; 3]%nat <> []) by discriminate.
  split; [exact H|].
  exact (proj1 (proj2 (@probabilities_normalized samplePow sampleSqrt
                         sampleParams corridorHeap corridorAnt
                         [1; 3]%nat H))).
Defined.

Lemma selectNext_tabu_witness :
  Ant._getNeighbors sampleM corridorHeap corridor 3%nat <> [] /\
  exists c,
    fst (Ant._selectNext sampleM samplePow sampleSqrt sampleParams
           corridorHeap corridor corridorAnt 3%nat sampleRng) = Some c /\
    In c (Ant.allowedOf corridorAnt
            (Ant._getNeighbors sampleM corridorHeap corridor 3%nat)).
Proof.
  assert (H : Ant._getNeighbors sampleM corridorHeap corridor 3%nat <> [])
    by (vm_compute; discriminate).
  split; [exact H|].
  exact (proj1 (proj2 (proj2 (proj2 (proj2
           (selectNext_tabu sampleM corridorHeap corridor samplePow
              sampleSqrt sampleParams corridorAnt 3%nat sampleRng))))) H).
Defined.

(** The draw 0.35 on [[0.1, 0.3, 0.6]] selects index 1; a draw above every
    cumulative sum selects the last index. *)
Example rouletteWheel_samples :
  Ant.rouletteWheel_at 0.35 sampleProbs = 1%Z
  /\ Ant.rouletteWheel_at 0 sampleProbs = 0%Z
  /\ Ant.rouletteWheel_at 0.4 sampleProbs = 1%Z
  /\ Ant.rouletteWheel_at 2 sampleProbs = 2%Z
  /\ Ant.rouletteWheel_at 0.5 [] = (-1)%Z.
Proof. repeat split. Qed.

(** Next to the food the ant of the corridor has one candidate, the food
    cell: its other neighbour, the home cell, is in its path. *)
Example corridor_candidates :
  Ant._getNeighbors sampleM corridorHeap corridor 3%nat = [5; 4]%nat
  /\ Ant.allowedOf corridorAnt [5; 4]%nat = [4%nat]
  /\ fst (Ant._selectNext sampleM samplePow sampleSqrt sampleParams
            corridorHeap corridor corridorAnt 3%nat sampleRng)
     = Some 4%nat.
Proof. vm_compute. repeat split. Qed.

(** The boxed-in ant escapes to the cell it came from. *)
Example dead_end_escape :
  Ant._getNeighbors sampleM corridorHeap corridor 0%nat = [1%nat]
  /\ Ant.allowedOf boxedAnt [1%nat] = [1%nat]
  /\ fst (Ant._selectNext sampleM samplePow sampleSqrt sampleParams
            corridorHeap corridor boxedAnt 0%nat sampleRng)
     = Some 1%nat.
Proof. vm_compute. repeat split. Qed.

(** Depositing with [Q = 100] on a path of four cells adds 25 to the Normal
    cells and nothing to the home and food cells. *)
Example deposit_25 :
  let a := Ant.setPath corridorAnt [5; 1; 3; 4]%nat in
  let h := fst (Ant._depositPheromone sampleParams corridorHeap corridor a
                  Position.P_TYPE_FOOD) in
  Position.getP (h 1%nat) Position.P_TYPE_FOOD == 25
  /\ Position.getP (h 3%nat) Position.P_TYPE_FOOD == 25
  /\ h 5%nat = corridorHeap 5%nat /\ h 4%nat = corridorHeap 4%nat.
Proof. vm_compute. repeat split. Qed.

(** ** The transition probabilities on doubles *)

(** C5 on the doubles of the source.  With the default parameters, for a
    carrying ant next to the home cell the value of the home cell is
    [Number.MAX_VALUE * 100 ^ 2], which overflows to infinity: the sum is
    infinite, the probability of the home cell is [NaN] and that of every
    other candidate is 0.  For a seeking ant next to two food cells the sum
    of the values overflows and every probability is 0.  In both cases the
    vector does not sum to 1, and for every draw above 0 the roulette wheel
    falls through to the last candidate. *)
Theorem probabilities_overflow :
  (let candidates := [Double.above; Double.home; Double.below] in
   let values :=
     List.map (Double.val Double.samplePow Double.defaultParams
                 Ant.STATUS_CARRY_FOOD Double.home) candidates in
   let probs :=
     Double.probabilities Double.samplePow Double.defaultParams
       Ant.STATUS_CARRY_FOOD Double.home candidates in
   nth 1 values 0%float = infinity
   /\ fold_left PrimFloat.add values 0%float = infinity
   /\ probs = [0; nan; 0]%float
   /\ fold_left PrimFloat.add probs 0%float = nan
   /\ Double.rouletteWheel_at 0.5 probs = 2%Z
   /\ Double.rouletteWheel_at 0x1p-53 probs = 2%Z)
  /\
  (let candidates := [Double.food1; Double.food2; Double.plain] in
   let values :=
     List.map (Double.val Double.samplePow Double.defaultParams
                 Ant.STATUS_FIND_FOOD Double.home) candidates in
   let probs :=
     Double.probabilities Double.samplePow Double.defaultParams
       Ant.STATUS_FIND_FOOD Double.home candidates in
   values = [Double.Number_MAX_VALUE; Double.Number_MAX_VALUE; 0.01]%float
   /\ fold_left PrimFloat.add values 0%float = infinity
   /\ probs = [0; 0; 0]%float
   /\ fold_left PrimFloat.add probs 0%float = 0%float
   /\ Double.rouletteWheel_at 0.5 probs = 2%Z
   /\ Double.rouletteWheel_at 0x1p-53 probs = 2%Z).
Proof. vm_compute. repeat split. Qed.

(** * Further properties of the code *)

(** ** Roulette-wheel selection: which draws select which candidate *)

Lemma cumulativeFrom_succ (c : number) (probs : list number) (k : nat) :
  (S k < length probs)%nat ->
  cumulativeFrom c probs (S k)
  == cumulativeFrom c probs k + nth (S k) probs 0.
Proof.
  unfold cumulativeFrom. revert c k.
  induction probs as [|p probs IH]; intros c k Hk; simpl in *; [lia|].
  destruct probs as [|q probs]; simpl in *; [lia|].
  destruct k as [|k].
  - simpl. reflexivity.
  - apply (IH (c + p) k). simpl. lia.
Qed.

Lemma cumulativeFrom_mono (c : number) (probs : list number) (j k : nat) :
  Forall (fun p => 0 <= p) probs ->
  (j <= k)%nat -> (k < length probs)%nat ->
  cumulativeFrom c probs j <= cumulativeFrom c probs k.
Proof.
  intros Hpos Hjk Hk. induction Hjk as [|k Hjk IH]; [lra|].
  rewrite cumulativeFrom_succ by assumption.
  assert (0 <= nth (S k) probs 0).
  { rewrite Forall_forall in Hpos. apply Hpos. apply nth_In. assumption. }
  specialize (IH ltac:(lia)). lra.
Qed.

(** The index returned is the first one whose cumulative sum reaches the
    draw. *)
Lemma rouletteWheel_at_first (r : number) (probs : list number) (j : nat) :
  (j < length probs)%nat ->
  r <= cumulative probs j ->
  (forall k, (k < j)%nat -> ~ r <= cumulative probs k) ->
  Ant.rouletteWheel_at r probs = Z.of_nat j.
Proof.
  intros Hj Hr Hfirst. unfold Ant.rouletteWheel_at, cumulative in *.
  destruct (Ant.rouletteWheel_from r probs 0 0) as [i|] eqn:E.
  - apply rouletteWheel_from_Some in E as (k & -> & Hk & Hrk & Hkfirst).
    simpl. f_equal.
    destruct (Nat.lt_trichotomy k j) as [Hlt|[->|Hgt]]; [|reflexivity|].
    + exfalso. exact (Hfirst k Hlt Hrk).
    + exfalso. exact (Hkfirst j Hgt Hr).
  - exfalso. exact (rouletteWheel_from_None _ _ _ E Hj Hr).
Qed.

Lemma rouletteWheel_at_last (r : number) (probs : list number) :
  (forall k, (k < length probs)%nat -> ~ r <= cumulative probs k) ->
  Ant.rouletteWheel_at r probs = (Z.of_nat (length probs) - 1)%Z.
Proof.
  intros Hnone. unfold Ant.rouletteWheel_at, cumulative in *.
  destruct (Ant.rouletteWheel_from r probs 0 0) as [i|] eqn:E;
    [|reflexivity].
  apply rouletteWheel_from_Some in E as (k & -> & Hk & Hrk & _).
  exfalso. exact (Hnone k Hk Hrk).
Qed.

(** X1.  For a vector of non-negative probabilities the draws that select
    a candidate form an interval whose length is the probability of the
    candidate: a draw up to the first cumulative sum selects index 0, a
    draw above the cumulative sum of index [i] and up to that of index
    [i + 1] selects index [i + 1], whose probability is the difference of
    the two sums, and a draw above every cumulative sum selects the last
    index. *)
Theorem rouletteWheel_interval (r : number) (probs : list number) :
  Forall (fun p => 0 <= p) probs ->
  probs <> [] ->
  (r <= cumulative probs 0 -> Ant.rouletteWheel_at r probs = 0%Z) /\
  (forall i, (S i < length probs)%nat ->
     cumulative probs (S i) == cumulative probs i + nth (S i) probs 0 /\
     (cumulative probs i < r <= cumulative probs (S i) ->
      Ant.rouletteWheel_at r probs = Z.of_nat (S i))) /\
  (cumulative probs (length probs - 1) < r ->
   Ant.rouletteWheel_at r probs = (Z.of_nat (length probs) - 1)%Z).
Proof.
  intros Hpos Hne.
  assert (Hlen : (0 < length probs)%nat)
    by (destruct probs; [congruence|simpl; lia]).
  split; [|split].
  - intros Hr. apply (@rouletteWheel_at_first r probs 0%nat);
      [assumption..|]. intros k Hk. lia.
  - intros i Hi. split; [now apply cumulativeFrom_succ|].
    intros [Hlo Hhi]. apply rouletteWheel_at_first; [assumption..|].
    intros k Hk Hrk.
    assert (cumulative probs k <= cumulative probs i)
      by (apply cumulativeFrom_mono; [assumption|lia|lia]).
    lra.
  - intros Hr. apply rouletteWheel_at_last. intros k Hk Hrk.
    assert (cumulative probs k <= cumulative probs (length probs - 1))
      by (apply cumulativeFrom_mono; [assumption|lia|lia]).
    lra.
Qed.

Lemma rouletteWheel_interval_witness :
  Forall (fun p => 0 <= p) sampleProbs /\ sampleProbs <> [] /\
  Ant.rouletteWheel_at 0.05 sampleProbs = 0%Z.
Proof.
  assert (Hpos : Forall (fun p => 0 <= p) sampleProbs)
    by (repeat constructor; discriminate).
  assert (Hne : sampleProbs <> []) by discriminate.
  split; [exact Hpos|]. split; [exact Hne|].
  apply (proj1 (@rouletteWheel_interval 0.05 sampleProbs Hpos Hne)).
  discriminate.
Defined.

(** X2.  Selection is monotone in the draw: a larger draw never selects an
    earlier candidate. *)
Theorem rouletteWheel_monotone (r r' : number) (probs : list number) :
  r <= r' ->
  (Ant.rouletteWheel_at r probs <= Ant.rouletteWheel_at r' probs)%Z.
Proof.
  intros Hrr. unfold Ant.rouletteWheel_at.
  destruct (Ant.rouletteWheel_from r' probs 0 0) as [i'|] eqn:E'.
  - apply rouletteWheel_from_Some in E' as (k' & -> & Hk' & Hr' & _).
    destruct (Ant.rouletteWheel_from r probs 0 0) as [i|] eqn:E.
    + apply rouletteWheel_from_Some in E as (k & -> & Hk & _ & Hfirst).
      destruct (Nat.le_gt_cases k k') as [Hle|Hgt]; [lia|].
      exfalso. apply (Hfirst k' Hgt). lra.
    + exfalso. apply (rouletteWheel_from_None _ _ _ E Hk'). lra.
  - destruct (Ant.rouletteWheel_from r probs 0 0) as [i|] eqn:E; [|lia].
    apply rouletteWheel_from_Some in E as (k & -> & Hk & _). lia.
Qed.

Lemma rouletteWheel_monotone_witness :
  0.05 <= 0.95 /\
  (Ant.rouletteWheel_at 0.05 sampleProbs
   <= Ant.rouletteWheel_at 0.95 sampleProbs)%Z.
Proof.
  assert (H : 0.05 <= 0.95) by discriminate.
  split; [exact H|]. exact (@rouletteWheel_monotone 0.05 0.95 sampleProbs H).
Defined.

(** ** Roulette-wheel selection on doubles *)

Lemma Double_rouletteWheel_from_range (r : float) (probs : list float)
    (i : Z) (c : float) (j : Z) :
  Double.rouletteWheel_from r probs i c = Some j ->
  (i <= j < i + Z.of_nat (length probs))%Z.
Proof.
  revert i c. induction probs as [|p probs IH]; intros i c; simpl;
    [discriminate|].
  destruct (PrimFloat.leb r (PrimFloat.add c p)).
  - intros [= <-]. lia.
  - intros H. apply IH in H. lia.
Qed.

(** X3.  On doubles too the index returned for a non-empty vector is a
    valid index, whatever the vector holds, [NaN] and infinities
    included. *)
Theorem Double_rouletteWheel_valid (r : float) (probs : list float) :
  probs <> [] ->
  (0 <= Double.rouletteWheel_at r probs < Z.of_nat (length probs))%Z.
Proof.
  intros Hne. unfold Double.rouletteWheel_at.
  destruct (Double.rouletteWheel_from r probs 0 0) as [j|] eqn:E.
  - apply Double_rouletteWheel_from_range in E. lia.
  - destruct probs; [congruence|]. simpl length. lia.
Qed.

Lemma Double_rouletteWheel_valid_witness :
  [0; nan; 0]%float <> [] /\
  (0 <= Double.rouletteWheel_at 0.5 [0; nan; 0]%float < 3)%Z.
Proof.
  assert (H : [0; nan; 0]%float <> []) by discriminate.
  split; [exact H|]. exact (@Double_rouletteWheel_valid 0.5 _ H).
Defined.

(** ** Ant._init: the cap on the path length *)

Lemma init_cap_bounds (P : World.Params) (w : World.t) (g : Rng) :
  0 <= draws g (pos g) -> draws g (pos g) < 1 ->
  (World.maxPathLength P <= World.maxPathLengthMax P)%Z ->
  (World.maxPathLength P <= Ant._maxPath (fst (Ant._init P w g))
   <= World.maxPathLengthMax P)%Z.
Proof.
  intros H0 H1 Hmm.
  change (Ant._maxPath (fst (Ant._init P w g)))
    with (World.maxPathLength P
          + Qfloor (draws g (pos g)
                    * inject_Z (World.maxPathLengthMax P
                                - World.maxPathLength P + 1)))%Z.
  set (k := (World.maxPathLengthMax P - World.maxPathLength P + 1)%Z).
  assert (Hkk : (k = World.maxPathLengthMax P - World.maxPathLength P + 1)%Z)
    by reflexivity.
  assert (Hk : 0 < inject_Z k).
  { change 0 with (inject_Z 0). rewrite <- Zlt_Qlt. lia. }
  assert (Hf0 : (0 <= Qfloor (draws g (pos g) * inject_Z k))%Z).
  { rewrite <- (Qfloor_Z 0). apply Qfloor_resp_le.
    change (inject_Z 0) with 0. apply Qmult_le_0_compat; lra. }
  assert (Hf1 : (Qfloor (draws g (pos g) * inject_Z k) < k)%Z).
  { rewrite Zlt_Qlt.
    eapply Qle_lt_trans; [apply Qfloor_le|].
    rewrite <- (Qmult_1_l (inject_Z k)) at 2.
    now apply Qmult_lt_compat_r. }
  lia.
Qed.

(** X4.  For a draw in [[0, 1)] and bounds [min <= max], the cap drawn by
    [_init] lies between [World.maxPathLength] and
    [World.maxPathLengthMax], both included; the ant starts at the home
    cell of the world, seeking food, and one draw is consumed. *)
Theorem init_cap_range (P : World.Params) (w : World.t) (g : Rng) :
  0 <= draws g (pos g) -> draws g (pos g) < 1 ->
  (World.maxPathLength P <= World.maxPathLengthMax P)%Z ->
  let a := fst (Ant._init P w g) in
  (World.maxPathLength P <= Ant._maxPath a <= World.maxPathLengthMax P)%Z /\
  Ant.path a = [World.homePosition w] /\
  Ant.status a = Ant.STATUS_FIND_FOOD /\
  Ant.homePosition a = World.homePosition w /\
  pos (snd (Ant._init P w g)) = S (pos g).
Proof.
  intros H0 H1 Hmm a.
  split; [now apply init_cap_bounds|]. repeat split.
Qed.

Lemma init_cap_range_witness :
  0 <= draws sampleRng (pos sampleRng) /\
  (World.maxPathLength sampleParams
   <= Ant._maxPath (fst (Ant._init sampleParams corridor sampleRng))
   <= World.maxPathLengthMax sampleParams)%Z.
Proof.
  assert (H0 : 0 <= draws sampleRng (pos sampleRng)) by discriminate.
  assert (H1 : draws sampleRng (pos sampleRng) < 1) by reflexivity.
  assert (Hm : (World.maxPathLength sampleParams
                <= World.maxPathLengthMax sampleParams)%Z)
    by discriminate.
  split; [exact H0|].
  exact (proj1 (@init_cap_range sampleParams corridor sampleRng H0 H1 Hm)).
Defined.

(** ** Ant._getNeighbors: completeness *)

Lemma move_inBounds (p : Position.t) (d : Z * Z) (map : list (list loc))
    (c : loc) :
  inBounds map (Position.x p + fst d) (Position.y p + snd d) ->
  cellAt map (Position.x p + fst d) (Position.y p + snd d) c ->
  Position.move p d map None = Some c.
Proof.
  unfold Position.move, inBounds, cellAt. rewrite !Z.mul_1_r.
  intros [[Hx0 Hx1] [Hy0 Hy1]] (row & Hrow & Hc).
  replace (_ || _ || _ || _)%bool with false.
  - now rewrite Hrow.
  - symmetry. rewrite !orb_false_iff, !Z.geb_leb.
    repeat split; try (apply Z.ltb_ge; lia); apply Z.leb_gt; lia.
Qed.

Lemma neighborStep_length (h : Heap) (w : World.t) (position : loc)
    (dirs : list (Z * Z)) (acc : list loc) :
  (length (fold_left (Ant.neighborStep h w position) dirs acc)
   <= length acc + length dirs)%nat.
Proof.
  revert acc. induction dirs as [|d dirs IH]; intros acc; simpl; [lia|].
  eapply Nat.le_trans; [apply IH|].
  unfold Ant.neighborStep.
  destruct (Position.move (h position) d (World.map w) None); [|lia].
  destruct (negb _); [|lia]. rewrite length_app. simpl. lia.
Qed.

Lemma neighborStep_complete (h : Heap) (w : World.t) (position : loc)
    (dirs : list (Z * Z)) (acc : list loc) (n : loc) :
  In n acc \/
  (Position.type (h n) <> Position.TYPE_BARRIER /\
   exists d, In d dirs /\
     Position.move (h position) d (World.map w) None = Some n) ->
  In n (fold_left (Ant.neighborStep h w position) dirs acc).
Proof.
  revert acc. induction dirs as [|d dirs IH]; intros acc; simpl.
  - intros [H|(_ & d & [] & _)]. assumption.
  - intros H. apply IH.
    destruct H as [H|(Hb & d' & [<-|Hd'] & Hm)].
    + left. unfold Ant.neighborStep.
      destruct (Position.move (h position) d (World.map w) None);
        [|assumption].
      destruct (negb _); [|assumption]. apply in_app_iff. now left.
    + left. unfold Ant.neighborStep. rewrite Hm.
      replace (Position.CellType_eqb (Position.type (h n))
                 Position.TYPE_BARRIER) with false.
      * simpl. apply in_app_iff. right. now left.
      * symmetry. destruct (Position.CellType_eqb _ _) eqn:E;
          [|reflexivity]. apply CellType_eqb_eq in E. contradiction.
    + right. split; [assumption|]. exists d'. split; assumption.
Qed.

(** X5.  [_getNeighbors] enumerates exactly the legal targets: a cell is
    in the result if and only if it is the cell of the grid one step away
    in some direction of [Direction.M], inside the grid, and not a
    barrier; the result has at most one entry per direction. *)
Theorem getNeighbors_exact (Direction_M : list (Z * Z)) (h : Heap)
    (w : World.t) (position n : loc) :
  (In n (Ant._getNeighbors Direction_M h w position)
   <-> isNeighbor Direction_M h w position n) /\
  (length (Ant._getNeighbors Direction_M h w position)
   <= length Direction_M)%nat.
Proof.
  split; [split|].
  - apply getNeighbors_isNeighbor.
  - intros (Hb & d & Hd & Hin & Hc). apply neighborStep_complete. right.
    split; [assumption|]. exists d. split; [assumption|].
    now apply move_inBounds.
  - apply (neighborStep_length h w position Direction_M []).
Qed.

(** ** Position.changeType: how type changes compose *)

(** X6.  A change to Food or to Barrier erases what came before: after any
    earlier change the cell is the one that the last change alone would
    give.  Changing twice to the same type is the same as changing once,
    and no change moves the cell. *)
Theorem changeType_compose (p : Position.t) (a b : Position.CellType) :
  (b = Position.TYPE_FOOD \/ b = Position.TYPE_BARRIER ->
   Position.changeType (Position.changeType p a) b
   = Position.changeType p b) /\
  Position.changeType (Position.changeType p a) a = Position.changeType p a /\
  Position.x (Position.changeType p a) = Position.x p /\
  Position.y (Position.changeType p a) = Position.y p.
Proof.
  repeat split.
  - intros [-> | ->]; destruct a; reflexivity.
  - destruct a; reflexivity.
  - destruct a; reflexivity.
  - destruct a; reflexivity.
Qed.

Lemma changeType_compose_witness :
  Position.changeType
    (Position.changeType (corridorHeap 1%nat) Position.TYPE_BARRIER)
    Position.TYPE_FOOD
  = Position.changeType (corridorHeap 1%nat) Position.TYPE_FOOD.
Proof.
  exact (proj1 (changeType_compose (corridorHeap 1%nat)
                  Position.TYPE_BARRIER Position.TYPE_FOOD)
           (or_introl eq_refl)).
Defined.

(** ** World.addCheckList: nothing is lost *)

(** X7.  Registering a cell never drops another one: the cells of the
    check list afterwards are the cells it had and the registered cell,
    which is its last entry; the grid and the home cell are untouched. *)
Theorem addCheckList_keeps (w : World.t) (position : loc) :
  (forall c, In c (World.checkList (World.addCheckList w position))
             <-> c = position \/ In c (World.checkList w)) /\
  last (World.checkList (World.addCheckList w position)) position
  = position /\
  World.checkList (World.addCheckList w position) <> [] /\
  World.map (World.addCheckList w position) = World.map w /\
  World.homePosition (World.addCheckList w position) = World.homePosition w.
Proof.
  split; [intros c; apply addCheckList_In|].
  split; [|split; [|split; reflexivity]].
  - unfold World.addCheckList. simpl. apply last_last.
  - unfold World.addCheckList. simpl. intros E.
    apply app_eq_nil in E as [_ E]. discriminate E.
Qed.

(** ** World.evaporateAndRender: what it leaves alone *)

Lemma evaporate_coords (p : Position.t) (rho : number) :
  Position.x (Position.evaporatePheromone p rho) = Position.x p
  /\ Position.y (Position.evaporatePheromone p rho) = Position.y p.
Proof.
  unfold Position.evaporatePheromone.
  destruct (Position.type p); try (split; reflexivity).
  simpl.
  destruct (Qltb (Position.pheromone_FOOD p * (1 - rho)) Position.noise);
    simpl;
    destruct (Qltb (Position.pheromone_HOME p * (1 - rho)) Position.noise);
    simpl; split; reflexivity.
Qed.

Lemma evaporate_range (p : Position.t) (rho : number)
    (ch : Position.PType) :
  0 <= rho -> rho <= 1 -> 0 <= Position.getP p ch ->
  0 <= Position.getP (Position.evaporatePheromone p rho) ch
  <= Position.getP p ch.
Proof.
  intros H0 H1 Hp.
  destruct (Position.type p) eqn:Et;
    try (rewrite evaporate_other by congruence; lra).
  rewrite evaporate_normal by assumption.
  destruct (clampNoise_cases (Position.getP p ch * (1 - rho)))
    as [[-> _]|[-> _]]; [lra|nra].
Qed.

(** The first loop of [evaporateAndRender] relates the heap it starts from
    to the heap it leaves by one call of [evaporatePheromone] or none per
    entry of the list. *)
Lemma evaporateStep_frame (P : World.Params) (cl : list loc) (h : Heap)
    (m : number) (l : loc) :
  let h' := fst (fold_left (World.evaporateStep P) cl (h, m)) in
  Position.type (h' l) = Position.type (h l) /\
  Position.x (h' l) = Position.x (h l) /\
  Position.y (h' l) = Position.y (h l) /\
  (Position.type (h l) <> Position.TYPE_NORMAL -> h' l = h l) /\
  (~ In l cl -> h' l = h l) /\
  (0 <= World.rho P -> World.rho P <= 1 ->
   forall ch, 0 <= Position.getP (h l) ch ->
              0 <= Position.getP (h' l) ch <= Position.getP (h l) ch).
Proof.
  revert h m. induction cl as [|a cl IH]; intros h m; simpl.
  - repeat split; try reflexivity; lra.
  - set (h1 := upd h a (Position.evaporatePheromone (h a) (World.rho P))).
    set (p := Position.getP (h1 a) (World.showPheromoneType P)).
    destruct (Position.CellType_eqb (Position.type (h1 a))
                Position.TYPE_NORMAL && Qgtb p m).
    + destruct (IH h1 p) as (Ht & Hx & Hy & Hn & Hout & Hr).
      destruct (Nat.eq_dec l a) as [->|Hne].
      * unfold h1 in *. rewrite upd_same in *.
        rewrite evaporate_type in *.
        destruct (evaporate_coords (h a) (World.rho P)) as [Ex Ey].
        repeat split; try congruence.
        -- intros Hty. rewrite Hn by assumption.
           now apply evaporate_other.
        -- intros Hnin. exfalso. apply Hnin. now left.
        -- destruct (evaporate_range (h a) ch H H0 H1) as [Hlo Hhi].
           destruct (Hr H H0 ch Hlo). assumption.
        -- destruct (evaporate_range (h a) ch H H0 H1) as [Hlo Hhi].
           destruct (Hr H H0 ch Hlo). lra.
      * unfold h1 in *. rewrite upd_other in * by assumption.
        repeat split; try assumption; try (now apply Hr).
        intros Hnin. apply Hout. intros Hin. apply Hnin. now right.
    + destruct (IH h1 m) as (Ht & Hx & Hy & Hn & Hout & Hr).
      destruct (Nat.eq_dec l a) as [->|Hne].
      * unfold h1 in *. rewrite upd_same in *.
        rewrite evaporate_type in *.
        destruct (evaporate_coords (h a) (World.rho P)) as [Ex Ey].
        repeat split; try congruence.
        -- intros Hty. rewrite Hn by assumption.
           now apply evaporate_other.
        -- intros Hnin. exfalso. apply Hnin. now left.
        -- destruct (evaporate_range (h a) ch H H0 H1) as [Hlo Hhi].
           destruct (Hr H H0 ch Hlo). assumption.
        -- destruct (evaporate_range (h a) ch H H0 H1) as [Hlo Hhi].
           destruct (Hr H H0 ch Hlo). lra.
      * unfold h1 in *. rewrite upd_other in * by assumption.
        repeat split; try assumption; try (now apply Hr).
        intros Hnin. apply Hout. intros Hin. apply Hnin. now right.
Qed.

Lemma evaporateAndRender_heap (P : World.Params) (h : Heap) (w : World.t) :
  fst (World.evaporateAndRender P h w)
  = fst (fold_left (World.evaporateStep P) (World.checkList w) (h, 0)).
Proof.
  unfold World.evaporateAndRender.
  now destruct (fold_left (World.evaporateStep P) (World.checkList w) (h, 0)).
Qed.

(** X8.  [evaporateAndRender] changes nothing but the pheromone of the
    Normal cells of the check list: no cell changes type or coordinates, a
    cell that is not Normal and a cell outside the check list are left as
    they are. *)
Theorem evaporateAndRender_frame (P : World.Params) (h : Heap)
    (w : World.t) (l : loc) :
  let h' := fst (World.evaporateAndRender P h w) in
  Position.type (h' l) = Position.type (h l) /\
  Position.x (h' l) = Position.x (h l) /\
  Position.y (h' l) = Position.y (h l) /\
  (Position.type (h l) <> Position.TYPE_NORMAL -> h' l = h l) /\
  (~ In l (World.checkList w) -> h' l = h l).
Proof.
  intros h'. unfold h'. rewrite evaporateAndRender_heap.
  destruct (evaporateStep_frame P (World.checkList w) h 0 l)
    as (Ht & Hx & Hy & Hn & Hout & _).
  repeat split; assumption.
Qed.





(** ** Ant._selectNext: the normalisation after an overflow *)

Lemma Double_valueStep_fold (Math_pow : float -> float -> float)
    (P : Double.Params) (status : Ant.Status) (home : Double.Cell)
    (allowed : list Double.Cell) (values : list float) (sum : float) :
  fst (fold_left (Double.valueStep Math_pow P status home) allowed
         (values, sum))
  = values ++ List.map (Double.val Math_pow P status home) allowed.
Proof.
  revert values sum. induction allowed as [|c allowed IH];
    intros values sum; simpl.
  - now rewrite app_nil_r.
  - rewrite IH, <- app_assoc. reflexivity.
Qed.

Lemma Double_rouletteWheel_none (r : float) (probs : list float) (i : Z)
    (c : float) :
  (0 <? r)%float = true ->
  c = 0%float \/ c = nan ->
  Forall zeroOrNaN probs ->
  Double.rouletteWheel_from r probs i c = None.
Proof.
  intros Hr Hc Hp. revert i c Hc.
  induction Hp as [|p probs Hp _ IH]; intros i c Hc; simpl; [reflexivity|].
  pose proof (Binary64.add_zeroOrNaN Hc Hp) as Hc'.
  rewrite (Binary64.leb_zeroOrNaN Hr Hc'). now apply IH.
Qed.

(** X11.  On doubles, when the sum of the values accumulated by
    [_selectNext] is [Infinity], every entry of the vector left by the
    normalisation is a zero or [NaN]: no candidate has a positive
    probability.  The roulette wheel then returns the last index for every
    positive draw, whatever the pheromone of the candidates. *)
Theorem overflow_selects_last (Math_pow : float -> float -> float)
    (P : Double.Params) (status : Ant.Status) (home : Double.Cell)
    (allowed : list Double.Cell) (r : float) :
  snd (fold_left (Double.valueStep Math_pow P status home) allowed
         ([], 0%float)) = infinity ->
  let probs := Double.probabilities Math_pow P status home allowed in
  length probs = length allowed /\
  Forall zeroOrNaN probs /\
  ((0 <? r)%float = true ->
   Double.rouletteWheel_at r probs = (Z.of_nat (length allowed) - 1)%Z).
Proof.
  intros Hsum probs.
  assert (E : probs
              = List.map (fun v => (v / infinity)%float)
                  (List.map (Double.val Math_pow P status home) allowed)).
  { unfold probs, Double.probabilities.
    pose proof (Double_valueStep_fold Math_pow P status home allowed []
                  0%float) as Hv.
    destruct (fold_left _ allowed ([], 0%float)) as [values sum].
    simpl in Hsum, Hv. subst sum values.
    unfold Double.normalize. reflexivity. }
  assert (Hlen : length probs = length allowed)
    by (rewrite E, !length_map; reflexivity).
  assert (Hall : Forall zeroOrNaN probs).
  { rewrite E. apply Forall_forall. intros p Hp.
    apply in_map_iff in Hp as (v & <- & _). apply Binary64.div_infinity. }
  split; [assumption|]. split; [exact Hall|].
  intros Hr. unfold Double.rouletteWheel_at.
  rewrite (@Double_rouletteWheel_none r probs 0%Z 0%float Hr
             (or_introl eq_refl) Hall), Hlen.
  reflexivity.
Qed.

Lemma overflow_selects_last_witness :
  snd (fold_left
         (Double.valueStep Double.samplePow Double.defaultParams
            Ant.STATUS_CARRY_FOOD Double.home)
         [Double.above; Double.home; Double.below] ([], 0%float))
  = infinity /\
  Double.rouletteWheel_at 0.5%float
    (Double.probabilities Double.samplePow Double.defaultParams
       Ant.STATUS_CARRY_FOOD Double.home
       [Double.above; Double.home; Double.below]) = 2%Z.
Proof.
  split; [reflexivity|].
  exact (proj2 (proj2 (@overflow_selects_last Double.samplePow
                         Double.defaultParams Ant.STATUS_CARRY_FOOD
                         Double.home
                         [Double.above; Double.home; Double.below]
                         0.5%float eq_refl)) eq_refl).
Defined.

(** ** Ant.move: one step of an ant *)

Lemma index_last (path : list loc) :
  (path = [] /\ Ant.index path (Z.of_nat (length path) - 1) = None)
  \/ (exists prefix current,
        path = prefix ++ [current] /\
        Ant.index path (Z.of_nat (length path) - 1) = Some current).
Proof.
  destruct path as [|c path] using rev_ind.
  - left. split; reflexivity.
  - right. exists path, c. split; [reflexivity|].
    unfold Ant.index. rewrite length_app. simpl.
    replace (Z.of_nat (length path + 1) - 1 <? 0)%Z with false
      by (symmetry; apply Z.ltb_ge; lia).
    replace (Z.to_nat (Z.of_nat (length path + 1) - 1)) with (length path)
      by lia.
    rewrite nth_error_app2 by lia. now rewrite Nat.sub_diag.
Qed.

Lemma init_facts (P : World.Params) (w : World.t) (g : Rng) :
  Ant.path (fst (Ant._init P w g)) = [World.homePosition w] /\
  Ant.status (fst (Ant._init P w g)) = Ant.STATUS_FIND_FOOD /\
  Ant.homePosition (fst (Ant._init P w g)) = World.homePosition w /\
  draws (snd (Ant._init P w g)) = draws g /\
  pos (snd (Ant._init P w g)) = S (pos g).
Proof. repeat split. Qed.

Lemma allowedOf_incl (this : Ant.t) (neighbors : list loc) (c : loc) :
  In c (Ant.allowedOf this neighbors) -> In c neighbors.
Proof.
  destruct (allowedOf_cases this neighbors) as [[_ ->]|[_ ->]];
    [trivial|]. intros H. now apply filter_In in H.
Qed.

Section OneStep.

Variable Direction_M : list (Z * Z).
Variable Math_pow : number -> number -> number.
Variable Math_sqrt : number -> number.
Variable P : World.Params.

Local Abbreviation _selectNext :=
  (Ant._selectNext Direction_M Math_pow Math_sqrt P).
Local Abbreviation move := (Ant.move Direction_M Math_pow Math_sqrt P).

Lemma selectNext_In (h : Heap) (w : World.t) (this : Ant.t) (current : loc)
    (g : Rng) (n : loc) :
  fst (_selectNext h w this current g) = Some n ->
  In n (Ant._getNeighbors Direction_M h w current).
Proof.
  intros Hn.
  destruct (Ant._getNeighbors Direction_M h w current) as [|n0 l] eqn:En.
  - unfold Ant._selectNext in Hn. rewrite En in Hn. discriminate Hn.
  - destruct (@selectNext_Some Direction_M h w Math_pow Math_sqrt P this
                current g) as (c & Hc & Hin);
      [rewrite En; discriminate|].
    rewrite Hn in Hc. injection Hc as <-. rewrite <- En.
    now apply allowedOf_incl in Hin.
Qed.

Lemma selectNext_rng (h : Heap) (w : World.t) (this : Ant.t)
    (current : loc) (g : Rng) :
  draws (snd (_selectNext h w this current g)) = draws g /\
  (pos g <= pos (snd (_selectNext h w this current g)) <= S (pos g))%nat.
Proof.
  unfold Ant._selectNext.
  destruct (length _ =? 0)%nat; simpl; split; try reflexivity; lia.
Qed.

End OneStep.

(** *** The deposit, seen from the heap and from the world *)

Lemma PType_eq_dec (a b : Position.PType) : {a = b} + {a <> b}.
Proof. decide equality. Defined.

Lemma addPheromone_kept (p : Position.t) (amount : number)
    (pType : Position.PType) :
  Position.type (Position.addPheromone p amount pType) = Position.type p /\
  Position.x (Position.addPheromone p amount pType) = Position.x p /\
  Position.y (Position.addPheromone p amount pType) = Position.y p /\
  (Position.type p <> Position.TYPE_NORMAL ->
   Position.addPheromone p amount pType = p) /\
  (forall ch, ch <> pType ->
     Position.getP (Position.addPheromone p amount pType) ch
     = Position.getP p ch) /\
  (Position.type p = Position.TYPE_NORMAL ->
   Position.getP (Position.addPheromone p amount pType) pType
   = Position.getP p pType + amount).
Proof.
  unfold Position.addPheromone.
  destruct (Position.type p) eqn:E;
    (split; [|split; [|split; [|split; [|split]]]]);
    try reflexivity; try congruence;
    try (destruct pType; reflexivity).
  - now rewrite type_setP.
  - intros ch Hch. now apply getP_setP_other.
Qed.

Lemma depositStep_kept (deltaTau : number) (pType : Position.PType)
    (path : list loc) (h : Heap) (w : World.t) :
  let r := fold_left (Ant.depositStep deltaTau pType) path (h, w) in
  cellsKept h (fst r) /\ worldKept w (snd r) /\
  (forall c ch, ch <> pType ->
                Position.getP (fst r c) ch = Position.getP (h c) ch) /\
  (forall c, ~ In c path -> fst r c = h c) /\
  (0 <= deltaTau ->
   forall c ch, Position.getP (h c) ch <= Position.getP (fst r c) ch).
Proof.
  revert h w. induction path as [|a path IH]; intros h w; simpl.
  - split; [intros c; repeat split; reflexivity|].
    split; [repeat split; tauto|].
    repeat split; try reflexivity. intros. lra.
  - set (h1 := upd h a (Position.addPheromone (h a) deltaTau pType)).
    destruct (IH h1 (World.addCheckList w a))
      as (Hc & (Hm & Hh & Hin & Hnd) & Hch & Hout & Hge).
    destruct (addPheromone_kept (h a) deltaTau pType)
      as (At & Ax & Ay & An & Ach & Aadd).
    assert (H1 : forall c, c <> a -> h1 c = h c)
      by (intros c Hne; unfold h1; now apply upd_other).
    assert (Ha : h1 a = Position.addPheromone (h a) deltaTau pType)
      by (unfold h1; apply upd_same).
    split; [|split; [|split; [|split]]].
    + intros c. destruct (Hc c) as (Ht & Hx & Hy & Hn).
      destruct (Nat.eq_dec c a) as [->|Hne].
      * rewrite Ha in *. repeat split; try congruence.
        intros Hty. rewrite Hn by congruence. now apply An.
      * rewrite H1 in * by assumption. repeat split; assumption.
    + repeat split; try assumption.
      * intros c Hc'. apply Hin. apply addCheckList_In. now right.
      * intros Hnd'. apply Hnd. now apply addCheckList_NoDup.
    + intros c ch Hne. rewrite Hch by assumption.
      destruct (Nat.eq_dec c a) as [->|Hne'];
        [rewrite Ha; now apply Ach|now rewrite H1].
    + intros c Hnin. rewrite Hout by tauto. apply H1. intros ->.
      apply Hnin. now left.
    + intros Hd c ch. eapply Qle_trans; [|apply Hge; assumption].
      destruct (Nat.eq_dec c a) as [->|Hne]; [|rewrite H1 by assumption; lra].
      rewrite Ha.
      destruct (Position.type (h a)) eqn:Et;
        try (rewrite An by congruence; lra).
      destruct (PType_eq_dec ch pType) as [->|Hne].
      * rewrite Aadd by reflexivity. lra.
      * rewrite Ach by assumption. lra.
Qed.

Lemma cellsKept_refl (h : Heap) : cellsKept h h.
Proof. intros c. repeat split; reflexivity. Qed.

Lemma cellsKept_trans (h1 h2 h3 : Heap) :
  cellsKept h1 h2 -> cellsKept h2 h3 -> cellsKept h1 h3.
Proof.
  intros H12 H23 c.
  destruct (H12 c) as (Ht & Hx & Hy & Hn).
  destruct (H23 c) as (Ht' & Hx' & Hy' & Hn').
  repeat split; try congruence.
  intros Hty. rewrite Hn', Hn; congruence.
Qed.

Lemma worldKept_refl (w : World.t) : worldKept w w.
Proof. repeat split; auto. Qed.

Lemma worldKept_trans (w1 w2 w3 : World.t) :
  worldKept w1 w2 -> worldKept w2 w3 -> worldKept w1 w3.
Proof.
  intros (Hm & Hh & Hin & Hnd) (Hm' & Hh' & Hin' & Hnd').
  repeat split; try congruence; auto.
Qed.

Lemma worldKept_addCheckList (w : World.t) (c : loc) :
  worldKept w (World.addCheckList w c).
Proof.
  repeat split.
  - intros c' Hc'. apply addCheckList_In. now right.
  - apply addCheckList_NoDup.
Qed.

(** What [_depositPheromone] does to the cells and to the world. *)
Lemma depositPheromone_kept (P : World.Params) (h : Heap) (w : World.t)
    (this : Ant.t) (pType : Position.PType) :
  let r := Ant._depositPheromone P h w this pType in
  cellsKept h (fst r) /\ worldKept w (snd r) /\
  (forall c ch, ch <> pType ->
                Position.getP (fst r c) ch = Position.getP (h c) ch) /\
  (forall c, ~ In c (Ant.path this) -> fst r c = h c) /\
  (0 <= World.Q P ->
   forall c ch, Position.getP (h c) ch <= Position.getP (fst r c) ch).
Proof.
  unfold Ant._depositPheromone.
  destruct (length (Ant.path this) <=? 1)%nat eqn:EL.
  - simpl. split; [apply cellsKept_refl|]. split; [apply worldKept_refl|].
    split; [reflexivity|]. split; [reflexivity|]. intros. lra.
  - apply Nat.leb_gt in EL.
    destruct (depositStep_kept
                (World.Q P / inject_Z (Z.of_nat (length (Ant.path this))))
                pType (Ant.path this) h w) as (Hc & Hw & Hch & Hout & Hge).
    split; [assumption|]. split; [assumption|]. split; [assumption|].
    split; [assumption|].
    intros HQ. apply Hge. apply Qle_shift_div_l; [|lra].
    change 0 with (inject_Z 0). rewrite <- Zlt_Qlt. lia.
Qed.

Section MoveOutcome.

Variable Direction_M : list (Z * Z).
Variable Math_pow : number -> number -> number.
Variable Math_sqrt : number -> number.
Variable P : World.Params.

Local Abbreviation move := (Ant.move Direction_M Math_pow Math_sqrt P).

Lemma capPath_cases (w : World.t) (this : Ant.t) (g : Rng) :
  (Ant.capPath P w this g = (this, g) /\
   (Z.of_nat (length (Ant.path this)) <= Ant._maxPath this)%Z)
  \/ (Ant.capPath P w this g = Ant._init P w g /\
      (Ant._maxPath this < Z.of_nat (length (Ant.path this)))%Z).
Proof.
  unfold Ant.capPath.
  destruct (Z.of_nat (length (Ant.path this)) >? Ant._maxPath this)%Z eqn:E.
  - right. split; [reflexivity|]. apply Z.gtb_lt in E. lia.
  - left. split; [reflexivity|].
    rewrite Z.gtb_ltb in E. apply Z.ltb_ge in E. lia.
Qed.

(** The outcomes of one call of [move] for an ant standing on [current]:
    the cells and the world are kept in the sense above, the stream of
    draws is read at most three times, and the ant either restarts at home, or
    has stepped to a neighbour [n] of [current], or has reached a food
    cell [n] next to [current] and starts its way back from it. *)
Lemma move_outcome (h : Heap) (w : World.t) (g : Rng) (this : Ant.t)
    (prefix : list loc) (current : loc) :
  Ant.path this = prefix ++ [current] ->
  let h' := fst (fst (fst (move h w g this))) in
  let w' := snd (fst (fst (move h w g this))) in
  let g' := snd (fst (move h w g this)) in
  let a' := snd (move h w g this) in
  (cellsKept h h' /\ worldKept w w') /\
  (draws g' = draws g /\ (pos g <= pos g' <= pos g + 3)%nat) /\
  (forall c, ~ In c (Ant.path this) -> h' c = h c) /\
  (Ant.status this = Ant.STATUS_FIND_FOOD ->
   forall c, Position.getP (h' c) Position.P_TYPE_HOME
             = Position.getP (h c) Position.P_TYPE_HOME) /\
  (Ant.status this = Ant.STATUS_CARRY_FOOD ->
   forall c, Position.getP (h' c) Position.P_TYPE_FOOD
             = Position.getP (h c) Position.P_TYPE_FOOD) /\
  (0 <= World.Q P ->
   forall c ch, Position.getP (h c) ch <= Position.getP (h' c) ch) /\
  ((exists gx, a' = fst (Ant._init P w gx) /\ draws gx = draws g) \/
   (exists n,
      In n (Ant._getNeighbors Direction_M h w current) /\
      (Z.of_nat (length (Ant.path a')) <= Ant._maxPath a')%Z /\
      Ant.homePosition a' = Ant.homePosition this /\
      Ant._maxPath a' = Ant._maxPath this /\
      ((Ant.path a' = Ant.path this ++ [n] /\
        Ant.status a' = Ant.status this /\
        (forall c, h' c = h c) /\ In n (World.checkList w'))
       \/ (Ant.path a' = [n] /\
           Ant.status a' = Ant.STATUS_CARRY_FOOD /\
           Ant.status this = Ant.STATUS_FIND_FOOD /\
           Position.type (h n) = Position.TYPE_FOOD)))).
Proof.
  intros Hpath.
  destruct (index_last (Ant.path this)) as [[E _]|(pre & cur & Ep & Ei)].
  { rewrite Hpath in E. now destruct prefix. }
  assert (cur = current).
  { rewrite Hpath in Ep. now apply app_inj_tail in Ep as [_ ->]. }
  subst cur. clear Ep.
  unfold Ant.move. rewrite Ei.
  pose proof (@selectNext_In Direction_M Math_pow Math_sqrt P h w this
                current g) as HIn.
  pose proof (selectNext_rng Direction_M Math_pow Math_sqrt P h w this
                current g) as (Hd & Hp).
  destruct (Ant._selectNext Direction_M Math_pow Math_sqrt P h w this
              current g) as [[n|] g1].
  2:{ simpl in *.
      split; [split; [apply cellsKept_refl|apply worldKept_refl]|].
      split; [split; [assumption|lia]|].
      split; [reflexivity|]. split; [reflexivity|]. split; [reflexivity|].
      split; [intros; lra|].
      left. exists g1. split; [reflexivity|assumption]. }
  simpl in Hd, Hp. specialize (HIn n eq_refl).
  destruct (Position.CellType_eqb (Position.type (h n)) Position.TYPE_FOOD
            && match Ant.status this with
               | Ant.STATUS_FIND_FOOD => true
               | _ => false
               end) eqn:Cfood.
  - apply andb_true_iff in Cfood as [Cty Cst].
    apply CellType_eqb_eq in Cty.
    assert (Hst : Ant.status this = Ant.STATUS_FIND_FOOD)
      by (destruct (Ant.status this); [reflexivity|discriminate]).
    destruct (depositPheromone_kept P h w
                (Ant.setPath this (Ant.path this ++ [n]))
                Position.P_TYPE_FOOD) as (Hc & Hw & Hch & Hout & Hge).
    destruct (Ant._depositPheromone P h w
                (Ant.setPath this (Ant.path this ++ [n]))
                Position.P_TYPE_FOOD) as [h1 w1].
    simpl in Hc, Hw, Hch, Hout, Hge.
    assert (Hhome : World.homePosition w1 = World.homePosition w)
      by apply Hw.
    set (a1 := Ant.setPath (Ant.setStatus _ _) [n]).
    assert (Hfront :
              (cellsKept h h1 /\ worldKept w w1) /\
              (forall c, ~ In c (Ant.path this) -> h1 c = h c) /\
              (Ant.status this = Ant.STATUS_FIND_FOOD ->
               forall c, Position.getP (h1 c) Position.P_TYPE_HOME
                         = Position.getP (h c) Position.P_TYPE_HOME) /\
              (Ant.status this = Ant.STATUS_CARRY_FOOD ->
               forall c, Position.getP (h1 c) Position.P_TYPE_FOOD
                         = Position.getP (h c) Position.P_TYPE_FOOD) /\
              (0 <= World.Q P ->
               forall c ch,
                 Position.getP (h c) ch <= Position.getP (h1 c) ch)).
    { split; [split; assumption|]. split.
      - intros c Hc'. destruct (Nat.eq_dec c n) as [->|Hne].
        + apply Hc. congruence.
        + apply Hout. simpl. rewrite in_app_iff. simpl.
          intros [Hin|[Hin|[]]]; [contradiction|congruence].
      - split; [intros _ c; now apply Hch|].
        split; [congruence|assumption]. }
    destruct Hfront as (F1 & F2 & F3 & F4 & F5).
    destruct (capPath_cases w1 a1 g1) as [[-> Hcap]|[-> Hcap]]; simpl.
    + split; [assumption|]. split; [split; [assumption|lia]|].
      split; [assumption|]. split; [assumption|]. split; [assumption|].
      split; [assumption|].
      right. exists n. split; [assumption|]. split; [assumption|].
      split; [reflexivity|]. split; [reflexivity|]. right.
      split; [reflexivity|]. split; [reflexivity|]. split; assumption.
    + split; [assumption|]. split; [split; [assumption|lia]|].
      split; [assumption|]. split; [assumption|]. split; [assumption|].
      split; [assumption|].
      left. exists g1. split; [|assumption].
      unfold Ant._init. simpl. now rewrite Hhome.
  - destruct (Position.CellType_eqb (Position.type (h n))
                Position.TYPE_HOME
              && match Ant.status this with
                 | Ant.STATUS_CARRY_FOOD => true
                 | _ => false
                 end) eqn:Chome.
    + apply andb_true_iff in Chome as [Cty Cst].
      assert (Hst : Ant.status this = Ant.STATUS_CARRY_FOOD)
        by (destruct (Ant.status this); [discriminate|reflexivity]).
      destruct (depositPheromone_kept P h w
                  (Ant.setPath this (Ant.path this ++ [n]))
                  Position.P_TYPE_HOME) as (Hc & Hw & Hch & Hout & Hge).
      destruct (Ant._depositPheromone P h w
                  (Ant.setPath this (Ant.path this ++ [n]))
                  Position.P_TYPE_HOME) as [h1 w1].
      simpl in Hc, Hw, Hch, Hout, Hge.
      assert (Hhome : World.homePosition w1 = World.homePosition w)
        by apply Hw.
      assert (Hfront :
                (cellsKept h h1 /\ worldKept w w1) /\
                (forall c, ~ In c (Ant.path this) -> h1 c = h c) /\
                (Ant.status this = Ant.STATUS_FIND_FOOD ->
                 forall c, Position.getP (h1 c) Position.P_TYPE_HOME
                           = Position.getP (h c) Position.P_TYPE_HOME) /\
                (Ant.status this = Ant.STATUS_CARRY_FOOD ->
                 forall c, Position.getP (h1 c) Position.P_TYPE_FOOD
                           = Position.getP (h c) Position.P_TYPE_FOOD) /\
                (0 <= World.Q P ->
                 forall c ch,
                   Position.getP (h c) ch <= Position.getP (h1 c) ch)).
      { split; [split; assumption|]. split.
        - intros c Hc'. destruct (Nat.eq_dec c n) as [->|Hne].
          + apply Hc. apply CellType_eqb_eq in Cty. congruence.
          + apply Hout. simpl. rewrite in_app_iff. simpl.
            intros [Hin|[Hin|[]]]; [contradiction|congruence].
        - split; [congruence|].
          split; [intros _ c; now apply Hch|assumption]. }
      destruct Hfront as (F1 & F2 & F3 & F4 & F5).
      change (Ant._init P w1 g1)
        with (fst (Ant._init P w1 g1), snd (Ant._init P w1 g1)).
      cbv iota beta.
      destruct (capPath_cases w1 (fst (Ant._init P w1 g1))
                  (snd (Ant._init P w1 g1))) as [[E Hcap]|[E Hcap]];
        rewrite E; simpl.
      * split; [assumption|]. split; [split; [assumption|lia]|].
        split; [assumption|]. split; [assumption|]. split; [assumption|].
        split; [assumption|].
        left. exists g1. split; [|assumption]. now rewrite Hhome.
      * split; [assumption|]. split; [split; [assumption|lia]|].
        split; [assumption|]. split; [assumption|]. split; [assumption|].
        split; [assumption|].
        left. exists (snd (Math_random g1)). split; [|assumption].
        now rewrite Hhome.
    + set (a1 := Ant.setPath this (Ant.path this ++ [n])).
      destruct (capPath_cases (World.addCheckList w n) a1 g1)
        as [[-> Hcap]|[-> Hcap]]; simpl.
      * split; [split; [apply cellsKept_refl|apply worldKept_addCheckList]|].
        split; [split; [assumption|lia]|].
        split; [reflexivity|]. split; [reflexivity|]. split; [reflexivity|].
        split; [intros; lra|].
        right. exists n. split; [assumption|]. split; [assumption|].
        split; [reflexivity|]. split; [reflexivity|]. left.
        split; [reflexivity|]. split; [reflexivity|].
        split; [reflexivity|]. apply addCheckList_In. now left.
      * split; [split; [apply cellsKept_refl|apply worldKept_addCheckList]|].
        split; [split; [assumption|lia]|].
        split; [reflexivity|]. split; [reflexivity|]. split; [reflexivity|].
        split; [intros; lra|].
        left. exists g1. split; [reflexivity|assumption].
Qed.

End MoveOutcome.

Section MoveProperties.

Variable Direction_M : list (Z * Z).
Variable Math_pow : number -> number -> number.
Variable Math_sqrt : number -> number.
Variable P : World.Params.

Local Abbreviation move := (Ant.move Direction_M Math_pow Math_sqrt P).

Lemma path_split (a : Ant.t) :
  Ant.path a <> [] ->
  exists prefix current, Ant.path a = prefix ++ [current].
Proof.
  intros Hne. destruct (index_last (Ant.path a))
    as [[E _]|(pre & cur & E & _)]; [contradiction|eauto].
Qed.

Lemma move_empty (h : Heap) (w : World.t) (g : Rng) (this : Ant.t) :
  Ant.path this = [] -> move h w g this = (h, w, g, this).
Proof. intros E. unfold Ant.move. now rewrite E. Qed.

Lemma move_antOK (h : Heap) (w : World.t) (g : Rng) (this : Ant.t) :
  antOK h w this ->
  antOK (fst (fst (fst (move h w g this))))
        (snd (fst (fst (move h w g this))))
        (snd (move h w g this)).
Proof.
  intros (Hne & Hhome & Hfind & Hcarry).
  destruct (@path_split this Hne) as (prefix & current & Hpath).
  destruct (@move_outcome Direction_M Math_pow Math_sqrt P h w g this
              prefix current Hpath) as ((Hc & Hw) & _ & _ & _ & _ & _ & Hout).
  destruct Hw as (_ & Hh & _).
  set (h' := fst (fst (fst (move h w g this)))) in *.
  set (w' := snd (fst (fst (move h w g this)))) in *.
  set (a' := snd (move h w g this)) in *.
  unfold antOK. rewrite Hh.
  destruct Hout as [(gx & -> & _)|(n & _ & _ & Ha & _ & Hcase)].
  - simpl. repeat split; try discriminate; congruence.
  - destruct Hcase as [(Ep & Es & _)|(Ep & Es & Es' & Ety)];
      rewrite Ep, Es.
    + split; [now destruct (Ant.path this)|].
      split; [congruence|].
      assert (Ehd : hd (World.homePosition w) (Ant.path this ++ [n])
                    = hd (World.homePosition w) (Ant.path this))
        by (destruct (Ant.path this); [contradiction|reflexivity]).
      rewrite Ehd. split; [assumption|].
      intros Hs. destruct (Hc (hd (World.homePosition w) (Ant.path this)))
        as (-> & _). now apply Hcarry.
    + split; [discriminate|]. split; [congruence|].
      split; [discriminate|]. intros _. simpl.
      destruct (Hc n) as (-> & _). assumption.
Qed.

Lemma move_capOK (h : Heap) (w : World.t) (g : Rng) (this : Ant.t) :
  Ant.path this <> [] ->
  (forall i, 0 <= draws g i /\ draws g i < 1) ->
  (1 <= World.maxPathLength P)%Z ->
  (World.maxPathLength P <= World.maxPathLengthMax P)%Z ->
  (Z.of_nat (length (Ant.path (snd (move h w g this))))
   <= Ant._maxPath (snd (move h w g this)))%Z.
Proof.
  intros Hne Hdraws Hmin Hmax.
  destruct (@path_split this Hne) as (prefix & current & Hpath).
  destruct (@move_outcome Direction_M Math_pow Math_sqrt P h w g this
              prefix current Hpath) as (_ & _ & _ & _ & _ & _ & Hout).
  destruct Hout as [(gx & -> & Hd)|(n & _ & Hcap & _)]; [|assumption].
  assert (Hb := @init_cap_bounds P w gx).
  rewrite Hd in Hb. destruct (Hdraws (pos gx)) as [H0 H1].
  specialize (Hb H0 H1 Hmax). simpl length. lia.
Qed.

(** X12.  [move] keeps an ant coherent: its path stays non-empty, its home
    stays the home cell of the world, a seeking ant has started from home
    and a carrying ant has started from a food cell. *)
Theorem move_keeps_ant (h : Heap) (w : World.t) (g : Rng) (this : Ant.t) :
  antOK h w this ->
  antOK (fst (fst (fst (move h w g this))))
        (snd (fst (fst (move h w g this))))
        (snd (move h w g this)).
Proof.
  intros (Hne & Hhome & Hfind & Hcarry).
  destruct (@path_split this Hne) as (prefix & current & Hpath).
  destruct (@move_outcome Direction_M Math_pow Math_sqrt P h w g this
              prefix current Hpath) as ((Hc & Hw) & _ & _ & _ & _ & _ & Hout).
  destruct Hw as (_ & Hh & _).
  set (h' := fst (fst (fst (move h w g this)))) in *.
  set (w' := snd (fst (fst (move h w g this)))) in *.
  set (a' := snd (move h w g this)) in *.
  unfold antOK. rewrite Hh.
  destruct Hout as [(gx & -> & _)|(n & _ & _ & Ha & _ & Hcase)].
  - simpl. repeat split; try discriminate; congruence.
  - destruct Hcase as [(Ep & Es & _)|(Ep & Es & Es' & Ety)];
      rewrite Ep, Es.
    + split; [now destruct (Ant.path this)|].
      split; [congruence|].
      assert (Ehd : hd (World.homePosition w) (Ant.path this ++ [n])
                    = hd (World.homePosition w) (Ant.path this))
        by (destruct (Ant.path this); [contradiction|reflexivity]).
      rewrite Ehd. split; [assumption|].
      intros Hs. destruct (Hc (hd (World.homePosition w) (Ant.path this)))
        as (-> & _). now apply Hcarry.
    + split; [discriminate|]. split; [congruence|].
      split; [discriminate|]. intros _. simpl.
      destruct (Hc n) as (-> & _). assumption.
Qed.

(** X13.  When the draws are in [[0, 1)] and
    [1 <= maxPathLength <= maxPathLengthMax], the path of an ant is never
    longer than its cap after a call of [move]. *)
Theorem move_respects_cap (h : Heap) (w : World.t) (g : Rng)
    (this : Ant.t) :
  Ant.path this <> [] ->
  (forall i, 0 <= draws g i /\ draws g i < 1) ->
  (1 <= World.maxPathLength P)%Z ->
  (World.maxPathLength P <= World.maxPathLengthMax P)%Z ->
  (Z.of_nat (length (Ant.path (snd (move h w g this))))
   <= Ant._maxPath (snd (move h w g this)))%Z.
Proof.
  intros Hne Hdraws Hmin Hmax.
  destruct (@path_split this Hne) as (prefix & current & Hpath).
  destruct (@move_outcome Direction_M Math_pow Math_sqrt P h w g this
              prefix current Hpath) as (_ & _ & _ & _ & _ & _ & Hout).
  destruct Hout as [(gx & -> & Hd)|(n & _ & Hcap & _)]; [|assumption].
  assert (Hb := @init_cap_bounds P w gx).
  rewrite Hd in Hb. destruct (Hdraws (pos gx)) as [H0 H1].
  specialize (Hb H0 H1 Hmax). simpl length. lia.
Qed.

(** X14.  After a call of [move] the ant stands on a legal neighbour of the
    cell it stood on, or it has restarted at the home cell. *)
Theorem move_is_local (h : Heap) (w : World.t) (g : Rng) (this : Ant.t)
    (prefix : list loc) (current : loc) :
  Ant.path this = prefix ++ [current] ->
  let a' := snd (move h w g this) in
  (Ant.path a' = [World.homePosition w] /\
   Ant.status a' = Ant.STATUS_FIND_FOOD) \/
  (exists n, isNeighbor Direction_M h w current n /\
             last (Ant.path a') current = n).
Proof.
  intros Hpath a'.
  destruct (@move_outcome Direction_M Math_pow Math_sqrt P h w g this
              prefix current Hpath) as (_ & _ & _ & _ & _ & _ & Hout).
  fold a' in Hout.
  destruct Hout as [(gx & -> & _)|(n & Hin & _ & _ & _ & Hcase)].
  - left. split; reflexivity.
  - right. exists n. split; [now apply getNeighbors_isNeighbor|].
    destruct Hcase as [(-> & _)|(-> & _)]; [apply last_last|reflexivity].
Qed.

(** X15.  [move] changes the cells only by deposits: no cell changes type
    or coordinates, cells that are not Normal and cells outside the path
    of the ant are untouched, a seeking ant leaves the home channel of
    every cell as it is and a carrying ant the food channel, and with
    [Q >= 0] no pheromone value decreases. *)
Theorem move_deposits_only (h : Heap) (w : World.t) (g : Rng)
    (this : Ant.t) :
  let h' := fst (fst (fst (move h w g this))) in
  cellsKept h h' /\
  (forall c, ~ In c (Ant.path this) -> h' c = h c) /\
  (Ant.status this = Ant.STATUS_FIND_FOOD ->
   forall c, Position.getP (h' c) Position.P_TYPE_HOME
             = Position.getP (h c) Position.P_TYPE_HOME) /\
  (Ant.status this = Ant.STATUS_CARRY_FOOD ->
   forall c, Position.getP (h' c) Position.P_TYPE_FOOD
             = Position.getP (h c) Position.P_TYPE_FOOD) /\
  (0 <= World.Q P ->
   forall c ch, Position.getP (h c) ch <= Position.getP (h' c) ch).
Proof.
  destruct (Ant.path this) as [|p0 l] eqn:E.
  - rewrite move_empty by assumption. simpl.
    split; [apply cellsKept_refl|].
    split; [reflexivity|]. split; [reflexivity|]. split; [reflexivity|].
    intros. lra.
  - assert (Hne : Ant.path this <> []) by (rewrite E; discriminate).
    destruct (@path_split this Hne) as (prefix & current & Hpath).
    destruct (@move_outcome Direction_M Math_pow Math_sqrt P h w g this
                prefix current Hpath) as ((Hc & _) & _ & H1 & H2 & H3 & H4 & _).
    rewrite E in H1.
    split; [assumption|]. split; [assumption|]. split; [assumption|].
    split; assumption.
Qed.

(** X16.  [move] leaves the grid and the home cell of the world alone and
    never removes a cell from the check list, which stays free of
    duplicates; it reads the stream of draws at most three times and does
    not alter it. *)
Theorem move_keeps_world (h : Heap) (w : World.t) (g : Rng)
    (this : Ant.t) :
  let w' := snd (fst (fst (move h w g this))) in
  let g' := snd (fst (move h w g this)) in
  worldKept w w' /\
  draws g' = draws g /\ (pos g <= pos g' <= pos g + 3)%nat.
Proof.
  destruct (Ant.path this) as [|p0 l] eqn:E.
  - rewrite move_empty by assumption. simpl.
    split; [apply worldKept_refl|]. split; [reflexivity|lia].
  - assert (Hne : Ant.path this <> []) by (rewrite E; discriminate).
    destruct (@path_split this Hne) as (prefix & current & Hpath).
    destruct (@move_outcome Direction_M Math_pow Math_sqrt P h w g this
                prefix current Hpath) as ((_ & Hw) & (Hd & Hp) & _).
    split; [assumption|]. split; assumption.
Qed.

End MoveProperties.

Lemma corridorAnt_ok : antOK corridorHeap corridor corridorAnt.
Proof.
  unfold antOK. simpl. repeat split; try discriminate; reflexivity.
Defined.

Lemma move_keeps_ant_witness :
  antOK corridorHeap corridor corridorAnt /\
  antOK
    (fst (fst (fst (Ant.move sampleM samplePow sampleSqrt sampleParams
                      corridorHeap corridor sampleRng corridorAnt))))
    (snd (fst (fst (Ant.move sampleM samplePow sampleSqrt sampleParams
                      corridorHeap corridor sampleRng corridorAnt))))
    (snd (Ant.move sampleM samplePow sampleSqrt sampleParams
            corridorHeap corridor sampleRng corridorAnt)).
Proof.
  split; [exact corridorAnt_ok|].
  exact (@move_keeps_ant sampleM samplePow sampleSqrt sampleParams
           corridorHeap corridor sampleRng corridorAnt corridorAnt_ok).
Defined.

Lemma sampleRng_unit (i : nat) :
  0 <= draws sampleRng i /\ draws sampleRng i < 1.
Proof.
  simpl. do 5 (destruct i as [|i]; [split; [discriminate|reflexivity]|]).
  split; [discriminate|reflexivity].
Defined.

Lemma move_respects_cap_witness :
  Ant.path corridorAnt <> [] /\
  (Z.of_nat (length (Ant.path
       (snd (Ant.move sampleM samplePow sampleSqrt sampleParams
               corridorHeap corridor sampleRng corridorAnt))))
   <= Ant._maxPath
        (snd (Ant.move sampleM samplePow sampleSqrt sampleParams
                corridorHeap corridor sampleRng corridorAnt)))%Z.
Proof.
  assert (Hne : Ant.path corridorAnt <> []) by discriminate.
  split; [exact Hne|].
  apply (@move_respects_cap sampleM samplePow sampleSqrt sampleParams
           corridorHeap corridor sampleRng corridorAnt Hne sampleRng_unit);
    discriminate.
Defined.

Lemma move_is_local_witness :
  Ant.path corridorAnt = [5; 1; 0; 1; 5]%nat ++ [3%nat] /\
  ((Ant.path (snd (Ant.move sampleM samplePow sampleSqrt sampleParams
                     corridorHeap corridor sampleRng corridorAnt))
    = [World.homePosition corridor] /\
    Ant.status (snd (Ant.move sampleM samplePow sampleSqrt sampleParams
                       corridorHeap corridor sampleRng corridorAnt))
    = Ant.STATUS_FIND_FOOD) \/
   (exists n, isNeighbor sampleM corridorHeap corridor 3%nat n /\
      last (Ant.path (snd (Ant.move sampleM samplePow sampleSqrt
                             sampleParams corridorHeap corridor sampleRng
                             corridorAnt))) 3%nat = n)).
Proof.
  split; [reflexivity|].
  exact (@move_is_local sampleM samplePow sampleSqrt sampleParams
           corridorHeap corridor sampleRng corridorAnt
           [5; 1; 0; 1; 5]%nat 3%nat eq_refl).
Defined.

(** ** The driver: what a tick keeps *)

Lemma antOK_stable (h h' : Heap) (w w' : World.t) (a : Ant.t) :
  cellsKept h h' -> worldKept w w' -> antOK h w a -> antOK h' w' a.
Proof.
  intros Hc (_ & Hh & _) (Hne & Hhome & Hfind & Hcarry).
  unfold antOK. rewrite Hh. repeat split; try assumption.
  intros Hs. destruct (Hc (hd (World.homePosition w) (Ant.path a)))
    as (-> & _). now apply Hcarry.
Qed.

Lemma Forall_setNth (Q : Ant.t -> Prop) (a : list Ant.t) (i : nat)
    (v : Ant.t) :
  Forall Q a -> Q v -> Forall Q (Aco.setNth a i v).
Proof.
  intros Ha Hv. revert i. induction Ha as [|u a Hu Ha IH]; intros i.
  - destruct i; constructor.
  - destruct i as [|i]; simpl; constructor; auto.
Qed.

Lemma simKept_refl (P : World.Params) (s : Aco.Sim) : simKept P s s.
Proof.
  split; [apply cellsKept_refl|]. split; [apply worldKept_refl|].
  split; [reflexivity|]. split; [lia|]. repeat split; auto.
Qed.

Lemma simKept_trans (P : World.Params) (s1 s2 s3 : Aco.Sim) :
  simKept P s1 s2 -> simKept P s2 s3 -> simKept P s1 s3.
Proof.
  intros (Hc & Hw & Hd & Hl & Ha & Hn & Hk)
         (Hc' & Hw' & Hd' & Hl' & Ha' & Hn' & Hk').
  split; [eapply cellsKept_trans; eassumption|].
  split; [eapply worldKept_trans; eassumption|].
  split; [congruence|]. split; [lia|].
  split; [auto|]. split; [auto|].
  intros Hu Hmin Hmax Hf. apply Hk'; try assumption.
  - intros i. unfold unitDraws in Hu. rewrite Hd. apply Hu.
  - now apply Hk.
Qed.

Section TickKeeps.

Variable Direction_M : list (Z * Z).
Variable Math_pow : number -> number -> number.
Variable Math_sqrt : number -> number.
Variable P : World.Params.

Local Abbreviation move := (Ant.move Direction_M Math_pow Math_sqrt P).
Local Abbreviation moveAnt :=
  (Aco.moveAnt Direction_M Math_pow Math_sqrt P).
Local Abbreviation subStep :=
  (Aco.subStep Direction_M Math_pow Math_sqrt P).
Local Abbreviation subSteps :=
  (Aco.subSteps Direction_M Math_pow Math_sqrt P).
Local Abbreviation tick := (Aco.tick Direction_M Math_pow Math_sqrt P).
Local Abbreviation _run := (Aco._run Direction_M Math_pow Math_sqrt P).

Lemma spawn_kept (s : Aco.Sim) : simKept P s (Aco.spawn P s).
Proof.
  unfold Aco.spawn.
  change (Ant._init P (Aco.s_world s) (Aco.s_rng s))
    with (fst (Ant._init P (Aco.s_world s) (Aco.s_rng s)),
          snd (Ant._init P (Aco.s_world s) (Aco.s_rng s))).
  cbv iota beta. unfold simKept. cbn [Aco.s_heap Aco.s_world Aco.s_ants
                                     Aco.s_rng].
  split; [apply cellsKept_refl|]. split; [apply worldKept_refl|].
  split; [reflexivity|]. split; [rewrite length_app; lia|].
  split; [|split; [auto|]].
  - intros Hf. apply Forall_app. split; [assumption|].
    constructor; [|constructor].
    unfold antOK. simpl. repeat split; try discriminate; reflexivity.
  - intros Hu Hmin Hmax Hf. apply Forall_app. split; [assumption|].
    constructor; [|constructor]. split; [discriminate|].
    destruct (Hu (pos (Aco.s_rng s))) as [H0 H1].
    pose proof (@init_cap_bounds P (Aco.s_world s) (Aco.s_rng s) H0 H1 Hmax)
      as Hb.
    unfold capOK. simpl length. lia.
Qed.

Lemma spawnLoop_kept (fuel : nat) (s : Aco.Sim) :
  simKept P s (Aco.spawnLoop fuel P s).
Proof.
  revert s. induction fuel as [|fuel IH]; intros s; simpl.
  - apply simKept_refl.
  - destruct (_ <? _)%Z; [|apply simKept_refl].
    eapply simKept_trans; [apply spawn_kept|apply IH].
Qed.

Lemma move_frame (h : Heap) (w : World.t) (g : Rng) (this : Ant.t) :
  cellsKept h (fst (fst (fst (move h w g this)))) /\
  worldKept w (snd (fst (fst (move h w g this)))) /\
  draws (snd (fst (move h w g this))) = draws g /\
  (0 <= World.Q P ->
   forall c ch, Position.getP (h c) ch
                <= Position.getP (fst (fst (fst (move h w g this))) c) ch) /\
  (Ant.path this <> [] -> Ant.path (snd (move h w g this)) <> []).
Proof.
  destruct (Ant.path this) as [|p0 l] eqn:E.
  - rewrite move_empty by assumption. simpl.
    split; [apply cellsKept_refl|]. split; [apply worldKept_refl|].
    split; [reflexivity|]. split; [intros; lra|]. intros H. now elim H.
  - assert (Hne : Ant.path this <> []) by (rewrite E; discriminate).
    destruct (@path_split this Hne) as (prefix & current & Hpath).
    destruct (@move_outcome Direction_M Math_pow Math_sqrt P h w g this
                prefix current Hpath)
      as ((Hc & Hw) & (Hd & _) & _ & _ & _ & Hge & Hout).
    split; [assumption|]. split; [assumption|]. split; [assumption|].
    split; [assumption|]. intros _.
    destruct Hout as [(gx & -> & _)|(n & _ & _ & _ & _ & Hcase)];
      [discriminate|].
    destruct Hcase as [(-> & _)|(-> & _)]; [|discriminate].
    intros Ea. apply app_eq_nil in Ea as [_ Ea]. discriminate Ea.
Qed.

Lemma moveAnt_kept (s : Aco.Sim) (i : nat) : simKept P s (moveAnt s i).
Proof.
  unfold Aco.moveAnt.
  destruct (nth_error (Aco.s_ants s) i) as [a|] eqn:E;
    [|apply simKept_refl].
  pose proof (nth_error_In _ _ E) as Hin.
  pose proof (@move_antOK Direction_M Math_pow Math_sqrt P (Aco.s_heap s)
                (Aco.s_world s) (Aco.s_rng s) a) as HantOK.
  pose proof (@move_capOK Direction_M Math_pow Math_sqrt P (Aco.s_heap s)
                (Aco.s_world s) (Aco.s_rng s) a) as HcapOK.
  pose proof (move_frame (Aco.s_heap s) (Aco.s_world s) (Aco.s_rng s) a)
    as (Hc & Hw & Hd & Hge & Hne').
  destruct (Ant.move Direction_M Math_pow Math_sqrt P (Aco.s_heap s)
              (Aco.s_world s) (Aco.s_rng s) a) as [[[h' w'] g'] a'].
  simpl in HantOK, HcapOK, Hc, Hw, Hd, Hge, Hne'.
  unfold simKept. cbn [Aco.s_heap Aco.s_world Aco.s_ants Aco.s_rng].
  split; [assumption|]. split; [assumption|]. split; [assumption|].
  split; [rewrite setNth_length; lia|].
  split; [|split].
  - intros Hf. apply Forall_setNth.
    + eapply Forall_impl; [|exact Hf]. intros b.
      now apply antOK_stable.
    + apply HantOK. rewrite Forall_forall in Hf. now apply Hf.
  - intros HQ _ _ Hn c ch. eapply Qle_trans; [apply Hn|]. now apply Hge.
  - intros Hu Hmin Hmax Hf. apply Forall_setNth; [assumption|].
    rewrite Forall_forall in Hf. destruct (Hf a Hin) as [Hne _].
    split; [now apply Hne'|now apply HcapOK].
Qed.

Lemma moveAnt_fold_kept (idxs : list nat) (s : Aco.Sim) :
  simKept P s (fold_left moveAnt idxs s).
Proof.
  revert s. induction idxs as [|i idxs IH]; intros s; simpl.
  - apply simKept_refl.
  - eapply simKept_trans; [apply moveAnt_kept|apply IH].
Qed.

Lemma subSteps_kept (s : Aco.Sim) : simKept P s (subSteps s).
Proof.
  unfold Aco.subSteps.
  induction (Z.to_nat (World.stepsPerTick P)) as [|n IH]; simpl.
  - apply simKept_refl.
  - eapply simKept_trans; [apply IH|]. apply moveAnt_fold_kept.
Qed.

Lemma evaporate_kept (s : Aco.Sim) : simKept P s (Aco.evaporate P s).
Proof.
  unfold Aco.evaporate.
  pose proof (evaporateAndRender_heap P (Aco.s_heap s) (Aco.s_world s))
    as Eh.
  destruct (World.evaporateAndRender P (Aco.s_heap s) (Aco.s_world s))
    as [h' out].
  simpl in Eh. subst h'.
  set (h' := fst (fold_left (World.evaporateStep P)
                    (World.checkList (Aco.s_world s)) (Aco.s_heap s, 0))).
  assert (Hc : cellsKept (Aco.s_heap s) h').
  { intros c.
    destruct (evaporateStep_frame P (World.checkList (Aco.s_world s))
                (Aco.s_heap s) 0 c) as (Ht & Hx & Hy & Hn & _).
    repeat split; assumption. }
  unfold simKept. cbn [Aco.s_heap Aco.s_world Aco.s_ants Aco.s_rng].
  split; [assumption|]. split; [apply worldKept_refl|].
  split; [reflexivity|]. split; [lia|].
  split; [|split; [|auto]].
  - intros Hf. eapply Forall_impl; [|exact Hf]. intros b.
    apply antOK_stable; [assumption|apply worldKept_refl].
  - intros _ H0 H1 Hn c ch.
    destruct (evaporateStep_frame P (World.checkList (Aco.s_world s))
                (Aco.s_heap s) 0 c) as (_ & _ & _ & _ & _ & Hr).
    now apply Hr.
Qed.

Lemma tick_kept (s : Aco.Sim) : simKept P s (tick s).
Proof.
  unfold Aco.tick.
  eapply simKept_trans; [apply spawnLoop_kept|].
  eapply simKept_trans; [apply subSteps_kept|apply evaporate_kept].
Qed.

(** A call of [_run] either does nothing or makes one tick in the world
    of the driver. *)
Lemma run_cases (st : Aco.State) :
  _run st = st \/
  (exists w,
     Aco.world st = Some w /\
     Aco.world (_run st) = Some (Aco.s_world (tick (simOf st w))) /\
     simOf (_run st) (Aco.s_world (tick (simOf st w)))
     = tick (simOf st w)).
Proof.
  unfold Aco._run.
  destruct (Aco.isRun st); [now left|]. simpl.
  destruct (Aco.world st) as [w|]; [|now left].
  destruct (Aco.isSettingsApplied st && Aco.isSimulationStarted st);
    [|now left].
  right. exists w. split; [reflexivity|].
  fold (simOf st w). simpl. split; [reflexivity|].
  unfold simOf. simpl. now destruct (tick _).
Qed.

End TickKeeps.

Section RunKeeps.

Variable Direction_M : list (Z * Z).
Variable Math_pow : number -> number -> number.
Variable Math_sqrt : number -> number.
Variable P : World.Params.

Local Abbreviation tick := (Aco.tick Direction_M Math_pow Math_sqrt P).
Local Abbreviation _run := (Aco._run Direction_M Math_pow Math_sqrt P).

(** A call of [_run], seen as a step of the simulation in the world [w]
    of the driver. *)
Lemma run_kept (st : Aco.State) (w : World.t) :
  Aco.world st = Some w ->
  exists w', Aco.world (_run st) = Some w' /\
             simKept P (simOf st w) (simOf (_run st) w').
Proof.
  intros Hw.
  destruct (run_cases Direction_M Math_pow Math_sqrt P st)
    as [->|(w0 & Hw0 & Hw' & Hs)].
  - exists w. split; [assumption|apply simKept_refl].
  - rewrite Hw in Hw0. injection Hw0 as <-.
    eexists. split; [exact Hw'|]. rewrite Hs. apply tick_kept.
Qed.

Lemma run_heap_kept (st : Aco.State) :
  cellsKept (Aco.heap st) (Aco.heap (_run st)) /\
  (0 <= World.Q P -> 0 <= World.rho P -> World.rho P <= 1 ->
   nonNegative (Aco.heap st) -> nonNegative (Aco.heap (_run st))).
Proof.
  destruct (Aco.world st) as [w|] eqn:Hw.
  - destruct (run_kept st Hw) as (w' & _ & Hc & _ & _ & _ & _ & Hn & _).
    split; assumption.
  - assert (E : _run st = st).
    { unfold Aco._run. rewrite Hw. now destruct (negb (Aco.isRun st)). }
    rewrite E. split; [apply cellsKept_refl|auto].
Qed.

(** X17.  A call of [_run] never changes the type or the coordinates of a
    cell and never touches a cell that is not Normal: the food cells keep
    [Number.MAX_VALUE] in their food channel and the barriers their
    zeros, whatever the ants do. *)
Theorem run_keeps_cells (st : Aco.State) :
  cellsKept (Aco.heap st) (Aco.heap (_run st)) /\
  ((forall c, sentinelOK (Aco.heap st c)) ->
   forall c, sentinelOK (Aco.heap (_run st) c)).
Proof.
  destruct (run_heap_kept st) as [Hc _]. split; [assumption|].
  intros Hs c. specialize (Hs c). destruct (Hc c) as (Ht & _ & _ & Hn).
  unfold sentinelOK in *. rewrite Ht.
  destruct (Position.type (Aco.heap st c)) eqn:E; try exact I;
    rewrite Hn by congruence; assumption.
Qed.


(** X19.  A call of [_run] keeps the grid and the home cell of the world,
    never removes a cell from the check list (the list is not pruned by
    the evaporation pass) and keeps it free of duplicates; the stream of
    draws is read but not altered. *)
Theorem run_keeps_world (st : Aco.State) (w : World.t) :
  Aco.world st = Some w ->
  exists w', Aco.world (_run st) = Some w' /\ worldKept w w' /\
             draws (Aco.rng (_run st)) = draws (Aco.rng st).
Proof.
  intros Hw. destruct (run_kept st Hw) as (w' & Hw' & _ & Hk & Hd & _).
  exists w'. split; [assumption|]. split; assumption.
Qed.

(** X20.  A call of [_run] keeps every ant coherent, the ants it spawns
    included: paths are non-empty, seeking ants have started from home and
    carrying ants from a food cell; and no ant is lost. *)
Theorem run_keeps_ants (st : Aco.State) (w : World.t) :
  Aco.world st = Some w ->
  Forall (antOK (Aco.heap st) w) (Aco.antList st) ->
  exists w', Aco.world (_run st) = Some w' /\
             Forall (antOK (Aco.heap (_run st)) w') (Aco.antList (_run st))
             /\ (length (Aco.antList st)
                 <= length (Aco.antList (_run st)))%nat.
Proof.
  intros Hw Hf.
  destruct (run_kept st Hw) as (w' & Hw' & _ & _ & _ & Hl & Ha & _).
  exists w'. split; [assumption|]. split; [now apply Ha|assumption].
Qed.

(** X21.  A call of [_run] preserves the cap on the paths: when the draws
    are in [[0, 1)] and [1 <= maxPathLength <= maxPathLengthMax], and
    every ant has before the call a path that is not empty and not longer
    than its cap, then so has every ant after the call, the ants spawned
    by the call included. *)
Theorem run_respects_caps (st : Aco.State) (w : World.t) :
  Aco.world st = Some w ->
  unitDraws (Aco.rng st) ->
  (1 <= World.maxPathLength P)%Z ->
  (World.maxPathLength P <= World.maxPathLengthMax P)%Z ->
  Forall (fun a => Ant.path a <> [] /\ capOK a) (Aco.antList st) ->
  Forall (fun a => Ant.path a <> [] /\ capOK a) (Aco.antList (_run st)).
Proof.
  intros Hw Hu Hmin Hmax Hf.
  destruct (run_kept st Hw) as (w' & _ & _ & _ & _ & _ & _ & _ & Hk).
  now apply Hk.
Qed.

(** X22.  [_run] does nothing at all while it is already running, before
    a world exists, before the settings are applied and before the
    simulation is started. *)
Theorem run_gated (st : Aco.State) :
  Aco.isRun st = true \/ Aco.world st = None \/
  Aco.isSettingsApplied st = false \/ Aco.isSimulationStarted st = false ->
  _run st = st.
Proof.
  intros [H|H]; [|now apply run_idle].
  unfold Aco._run. now rewrite H.
Qed.

(** X23.  A tick of the running simulation brings the population to the
    larger of its size and [World.ANT_NUMBER], and leaves the driver
    ready for the next tick.  That tick spawns no ant: it does to the
    heap, the world, the ants, the draws and the opacities what
    [stepsPerTick] rounds of [move()] over the same ants, in the order of
    the list, followed by one [evaporateAndRender()] do, and it leaves
    the population at the same size. *)
Theorem run_population (st : Aco.State) (w : World.t) :
  Aco.isRun st = false ->
  Aco.world st = Some w ->
  Aco.isSettingsApplied st = true ->
  Aco.isSimulationStarted st = true ->
  let st1 := _run st in
  let n := length (Aco.antList st1) in
  Z.of_nat n
  = Z.max (Z.of_nat (length (Aco.antList st))) (World.ANT_NUMBER P) /\
  Aco.isRun st1 = false /\
  (exists w1,
      Aco.world st1 = Some w1 /\
      let final :=
        performAll Direction_M Math_pow Math_sqrt P
          (concat (repeat (subStepCalls n)
                     (Z.to_nat (World.stepsPerTick P)))
           ++ [Aco.EvEvaporateAndRender]) (simOf st1 w1) in
      Aco.world (_run st1) = Some (Aco.s_world final) /\
      sameSim (simOf (_run st1) (Aco.s_world final)) final) /\
  length (Aco.antList (_run st1)) = n.
Proof.
  intros Hrun Hw Hset Hstart st1 n.
  assert (E1 : Aco.isRun st1 = false /\
               Aco.isSettingsApplied st1 = true /\
               Aco.isSimulationStarted st1 = true /\
               Aco.world st1 = Some (Aco.s_world (tick (simOf st w))) /\
               simOf st1 (Aco.s_world (tick (simOf st w)))
               = tick (simOf st w)).
  { unfold st1, Aco._run. rewrite Hrun, Hw, Hset, Hstart. simpl.
    fold (simOf st w). repeat split; try assumption.
    unfold simOf at 1. simpl. now destruct (tick (simOf st w)). }
  destruct E1 as (Hrun1 & Hset1 & Hstart1 & Hw1 & Hs1).
  destruct (tick_spec Direction_M Math_pow Math_sqrt P (simOf st w))
    as [_ Hl].
  simpl in Hl. rewrite <- Hs1 in Hl. simpl in Hl. fold n in Hl.
  assert (Hn : Z.of_nat n
               = Z.max (Z.of_nat (length (Aco.antList st)))
                   (World.ANT_NUMBER P)) by lia.
  split; [assumption|]. split; [assumption|].
  set (w1 := Aco.s_world (tick (simOf st w))) in *.
  assert (E2 : Aco.world (_run st1)
               = Some (Aco.s_world (tick (simOf st1 w1))) /\
               simOf (_run st1) (Aco.s_world (tick (simOf st1 w1)))
               = tick (simOf st1 w1)).
  { unfold Aco._run. rewrite Hrun1, Hw1, Hset1, Hstart1. simpl.
    fold (simOf st1 w1). split; [reflexivity|].
    unfold simOf at 1. simpl. now destruct (tick (simOf st1 w1)). }
  destruct E2 as [Hw2 E2].
  destruct (tick_spec Direction_M Math_pow Math_sqrt P (simOf st1 w1))
    as [_ Hl2].
  pose proof (tick_perform Direction_M Math_pow Math_sqrt P (simOf st1 w1))
    as Hp.
  simpl in Hl2, Hp. fold n in Hl2, Hp.
  replace (Z.to_nat (World.ANT_NUMBER P - Z.of_nat n)) with 0%nat
    in Hl2, Hp by lia.
  rewrite Nat.add_0_r in Hl2, Hp. unfold tickCalls in Hp. simpl in Hp.
  split.
  - exists w1. split; [assumption|]. simpl.
    destruct Hp as (Hh & Hwd & Ha & Hg & Hs).
    split; [now rewrite Hw2, Hwd|].
    rewrite <- Hwd, E2. repeat split; assumption.
  - rewrite <- E2 in Hl2. exact Hl2.
Qed.

End RunKeeps.

Lemma sampleState_ants_ok :
  Forall (antOK (Aco.heap sampleState) corridor) (Aco.antList sampleState).
Proof. constructor. Defined.



Lemma run_keeps_world_witness :
  Aco.world sampleState = Some corridor /\
  exists w',
    Aco.world (Aco._run sampleM samplePow sampleSqrt sampleParams
                 sampleState) = Some w'
    /\ worldKept corridor w'
    /\ draws (Aco.rng (Aco._run sampleM samplePow sampleSqrt sampleParams
                         sampleState))
       = draws (Aco.rng sampleState).
Proof.
  split; [reflexivity|].
  exact (@run_keeps_world sampleM samplePow sampleSqrt sampleParams
           sampleState corridor eq_refl).
Defined.

Lemma run_keeps_ants_witness :
  Aco.world sampleState = Some corridor /\
  exists w',
    Aco.world (Aco._run sampleM samplePow sampleSqrt sampleParams
                 sampleState) = Some w'
    /\ Forall
         (antOK (Aco.heap (Aco._run sampleM samplePow sampleSqrt
                             sampleParams sampleState)) w')
         (Aco.antList (Aco._run sampleM samplePow sampleSqrt sampleParams
                         sampleState))
    /\ (length (Aco.antList sampleState)
        <= length (Aco.antList (Aco._run sampleM samplePow sampleSqrt
                                  sampleParams sampleState)))%nat.
Proof.
  split; [reflexivity|].
  exact (@run_keeps_ants sampleM samplePow sampleSqrt sampleParams
           sampleState corridor eq_refl sampleState_ants_ok).
Defined.

Lemma busyState_caps :
  Forall (fun a => Ant.path a <> [] /\ capOK a) (Aco.antList busyState).
Proof.
  repeat constructor; try discriminate; unfold capOK; simpl; lia.
Defined.

Lemma run_respects_caps_witness :
  unitDraws (Aco.rng busyState) /\
  Forall (fun a => Ant.path a <> [] /\ capOK a) (Aco.antList busyState) /\
  Forall (fun a => Ant.path a <> [] /\ capOK a)
    (Aco.antList (Aco._run sampleM samplePow sampleSqrt sampleParams
                    busyState)).
Proof.
  split; [exact sampleRng_unit|]. split; [exact busyState_caps|].
  apply (@run_respects_caps sampleM samplePow sampleSqrt sampleParams
           busyState corridor eq_refl sampleRng_unit);
    try discriminate.
  exact busyState_caps.
Defined.

Lemma run_gated_witness :
  Aco.world idleState = None /\
  Aco._run sampleM samplePow sampleSqrt sampleParams idleState = idleState.
Proof.
  split; [reflexivity|].
  exact (@run_gated sampleM samplePow sampleSqrt sampleParams idleState
           (or_intror (or_introl eq_refl))).
Defined.

Lemma run_population_witness :
  Aco.isRun sampleState = false /\
  Z.of_nat (length (Aco.antList
              (Aco._run sampleM samplePow sampleSqrt sampleParams
                 sampleState)))
  = Z.max (Z.of_nat (length (Aco.antList sampleState)))
      (World.ANT_NUMBER sampleParams).
Proof.
  split; [reflexivity|].
  exact (proj1 (@run_population sampleM samplePow sampleSqrt sampleParams
                  sampleState corridor eq_refl eq_refl eq_refl eq_refl)).
Defined.

(** ** World._init: the grid built by the constructor *)

Example construct_3x3 :
  match Construct._init 3 3 blankHeap 0%nat with
  | Some (h, w, next) =>
      World.map w = [[0; 1; 2]; [3; 9; 5]; [6; 7; 8]]%nat /\
      World.homePosition w = 9%nat /\ next = 10%nat /\
      Position.type (h 9%nat) = Position.TYPE_HOME /\
      Position.x (h 5%nat) = 1%Z /\ Position.y (h 5%nat) = 2%Z
  | None => False
  end.
Proof. vm_compute. repeat split. Qed.

Example construct_empty :
  Construct._init 0 3 blankHeap 0%nat = None
  /\ Construct._init (-2) 3 blankHeap 0%nat = None
  /\ match Construct._init 2 0 blankHeap 0%nat with
     | Some (_, w, _) => World.map w = [[]; [0%nat]]
     | None => False
     end.
Proof. vm_compute. repeat split. Qed.

Lemma setAt_length_eq (A : Type) (a : list A) (v : A) :
  Construct.setAt a (length a) v = a ++ [v].
Proof. induction a as [|u a IH]; simpl; [reflexivity|now rewrite IH]. Qed.

Lemma setAt_replace (A : Type) (a : list A) (idx : nat) (v : A) :
  (idx < length a)%nat ->
  length (Construct.setAt a idx v) = length a /\
  nth_error (Construct.setAt a idx v) idx = Some v /\
  forall k, k <> idx ->
            nth_error (Construct.setAt a idx v) k = nth_error a k.
Proof.
  revert idx. induction a as [|u a IH]; intros idx Hlt; simpl in *; [lia|].
  destruct idx as [|idx]; simpl.
  - split; [reflexivity|]. split; [reflexivity|].
    intros [|k] Hk; [congruence|reflexivity].
  - destruct (IH idx ltac:(lia)) as (Hl & Hn & Hk).
    split; [congruence|]. split; [assumption|].
    intros [|k] Hne; [reflexivity|]. simpl. apply Hk. congruence.
Qed.

Lemma arraySet_append (A : Type) (a : list A) (v : A) :
  Construct.arraySet a (Z.of_nat (length a)) v = a ++ [v].
Proof.
  unfold Construct.arraySet.
  replace (Z.of_nat (length a) <? 0)%Z with false
    by (symmetry; apply Z.ltb_ge; lia).
  rewrite Nat2Z.id. apply setAt_length_eq.
Qed.

(** The inner loop appends [n] fresh cells to the row. *)
Lemma rowLoop_spec (n : nat) (i : Z) (row : list loc) (h : Heap)
    (next : loc) :
  let r := Construct.rowLoop n i (Z.of_nat (length row)) row h next in
  fst (fst r) = row ++ seq next n /\
  snd r = (next + n)%nat /\
  (forall k, (k < n)%nat ->
     snd (fst r) (next + k)%nat
     = Position.new i (Z.of_nat (length row + k)) None None None) /\
  (forall l, (l < next \/ next + n <= l)%nat -> snd (fst r) l = h l).
Proof.
  revert row h next. induction n as [|n IH]; intros row h next; simpl.
  - rewrite app_nil_r. split; [reflexivity|]. split; [lia|].
    split; [intros k Hk; lia|reflexivity].
  - rewrite arraySet_append.
    replace (Z.of_nat (length row) + 1)%Z
      with (Z.of_nat (length (row ++ [next])))
      by (rewrite length_app; simpl; lia).
    destruct (IH (row ++ [next])
                (upd h next (Position.new i (Z.of_nat (length row))
                               None None None)) (S next))
      as (Hrow & Hnext & Hin & Hout).
    split; [rewrite Hrow, <- app_assoc; reflexivity|].
    split; [rewrite Hnext; lia|]. split.
    + intros [|k] Hk.
      * rewrite Nat.add_0_r. rewrite Hout by lia. rewrite upd_same.
        now rewrite Nat.add_0_r.
      * replace (next + S k)%nat with (S next + k)%nat by lia.
        rewrite Hin by lia. rewrite length_app. simpl.
        now replace (length row + 1 + k)%nat with (length row + S k)%nat
          by lia.
    + intros l Hl. rewrite Hout by lia. apply upd_other. lia.
Qed.

(** The outer loop appends [n] rows of [m] fresh cells each. *)
Lemma gridLoop_spec (n : nat) (yl : Z) (map : list (list loc)) (h : Heap)
    (next : loc) :
  let m := Z.to_nat yl in
  let r := Construct.gridLoop n yl (Z.of_nat (length map)) map h next in
  fst (fst r)
  = map ++ List.map (fun k => seq (next + k * m) m) (seq 0 n) /\
  snd r = (next + n * m)%nat /\
  (forall k j, (k < n)%nat -> (j < m)%nat ->
     snd (fst r) (next + k * m + j)%nat
     = Position.new (Z.of_nat (length map + k)) (Z.of_nat j)
         None None None) /\
  (forall l, (l < next \/ next + n * m <= l)%nat -> snd (fst r) l = h l).
Proof.
  intros m. revert map h next.
  induction n as [|n IH]; intros map h next; simpl.
  - rewrite app_nil_r. split; [reflexivity|]. split; [lia|].
    split; [intros k j Hk; lia|reflexivity].
  - destruct (rowLoop_spec m (Z.of_nat (length map)) [] h next)
      as (Hrow & Hnext & Hin & Hout).
    fold m. simpl length in *. simpl Z.of_nat in *.
    destruct (Construct.rowLoop m (Z.of_nat (length map)) 0 [] h next)
      as [[row h1] next1].
    simpl in Hrow, Hnext, Hin, Hout. subst row next1.
    rewrite arraySet_append.
    replace (Z.of_nat (length map) + 1)%Z
      with (Z.of_nat (length (map ++ [seq next m])))
      by (rewrite length_app; simpl; lia).
    destruct (IH (map ++ [seq next m]) h1 (next + m)%nat)
      as (Hmap & Hn & Hcells & Hrest).
    split; [|split; [|split]].
    + etransitivity; [exact Hmap|]. rewrite <- app_assoc. simpl.
      rewrite Nat.add_0_r.
      f_equal. f_equal. rewrite <- seq_shift, map_map.
      apply map_ext. intros k. f_equal. lia.
    + etransitivity; [exact Hn|]. lia.
    + intros [|k] j Hk Hj.
      * etransitivity; [apply Hrest; lia|].
        replace (next + 0 * m + j)%nat with (next + j)%nat by lia.
        rewrite Hin by assumption. now rewrite Nat.add_0_r.
      * replace (next + S k * m + j)%nat with (next + m + k * m + j)%nat
          by lia.
        etransitivity; [apply Hcells; lia|]. rewrite length_app. simpl.
        now replace (length map + 1 + k)%nat with (length map + S k)%nat
          by lia.
    + intros l Hl. etransitivity; [apply Hrest; lia|]. apply Hout. lia.
Qed.

Lemma nth_error_seq_lt (a m j : nat) :
  (j < m)%nat -> nth_error (seq a m) j = Some (a + j)%nat.
Proof.
  revert a j. induction m as [|m IH]; intros a j Hj; [lia|].
  destruct j as [|j]; simpl.
  - f_equal. lia.
  - rewrite IH by lia. f_equal. lia.
Qed.

Lemma nth_error_rows (f : nat -> list loc) (n k : nat) :
  (k < n)%nat -> nth_error (List.map f (seq 0 n)) k = Some (f k).
Proof.
  intros Hk. rewrite nth_error_map, nth_error_seq_lt by assumption.
  reflexivity.
Qed.

(** The grid left by [_init] for positive [xl] and [yl], cell by cell. *)
Lemma construct_cells (xl yl : Z) (h : Heap) (next : loc) :
  (0 < xl)%Z -> (0 < yl)%Z ->
  let n := Z.to_nat xl in
  let m := Z.to_nat yl in
  let hx := Z.to_nat (xl / 2) in
  let hy := Z.to_nat (yl / 2) in
  let home := (next + n * m)%nat in
  exists h' map,
    Construct._init xl yl h next
    = Some (h', {| World.map := map; World.checkList := [];
                   World.homePosition := home |}, S home) /\
    length map = n /\
    (forall k row, nth_error map k = Some row -> length row = m) /\
    (forall ki kj, (ki < n)%nat -> (kj < m)%nat ->
       exists row,
         nth_error map ki = Some row /\
         nth_error row kj
         = Some (if Nat.eqb ki hx && Nat.eqb kj hy then home
                 else (next + ki * m + kj)%nat)) /\
    h' home = Position.new (xl / 2) (yl / 2) (Some 0)
                (Some Number_MAX_VALUE) (Some Position.TYPE_HOME) /\
    (forall ki kj, (ki < n)%nat -> (kj < m)%nat ->
       h' (next + ki * m + kj)%nat
       = Position.new (Z.of_nat ki) (Z.of_nat kj) None None None) /\
    (forall l, (l < next)%nat -> h' l = h l).
Proof.
  intros Hxl Hyl n m hx hy home.
  assert (Hhx : (hx < n)%nat).
  { unfold hx, n. apply Z2Nat.inj_lt; try lia.
    - apply Z.div_pos; lia.
    - apply Z.div_lt; lia. }
  assert (Hhy : (hy < m)%nat).
  { unfold hy, m. apply Z2Nat.inj_lt; try lia.
    - apply Z.div_pos; lia.
    - apply Z.div_lt; lia. }
  assert (Hqx : Construct.parseInt_half xl = (xl / 2)%Z)
    by (unfold Construct.parseInt_half; apply Z.quot_div_nonneg; lia).
  assert (Hqy : Construct.parseInt_half yl = (yl / 2)%Z)
    by (unfold Construct.parseInt_half; apply Z.quot_div_nonneg; lia).
  destruct (gridLoop_spec n yl [] h next) as (Hmap & Hnext & Hcells & Hrest).
  fold m in Hmap, Hnext, Hcells, Hrest. simpl in Hmap, Hnext, Hcells, Hrest.
  unfold Construct._init. fold n.
  destruct (Construct.gridLoop n yl 0 [] h next) as [[map0 h1] next1].
  simpl in Hmap, Hnext, Hcells, Hrest. subst map0 next1. fold home.
  rewrite Hqx, Hqy.
  replace (xl / 2 <? 0)%Z with false
    by (symmetry; apply Z.ltb_ge; apply Z.div_pos; lia).
  fold hx. rewrite nth_error_rows by assumption.
  cbv beta iota zeta.
  set (rows := List.map (fun k => seq (next + k * m) m) (seq 0 n)).
  set (row := seq (next + hx * m) m).
  assert (Hrows : length rows = n)
    by (unfold rows; rewrite length_map, length_seq; reflexivity).
  assert (Hrow : length row = m) by (unfold row; apply length_seq).
  assert (Ey : @Construct.arraySet loc row (yl / 2) home
               = @Construct.setAt loc row hy home).
  { unfold Construct.arraySet.
    replace (yl / 2 <? 0)%Z with false
      by (symmetry; apply Z.ltb_ge; apply Z.div_pos; lia).
    reflexivity. }
  assert (Ex : forall r, @Construct.arraySet (list loc) rows (xl / 2) r
                         = @Construct.setAt (list loc) rows hx r).
  { intros r. unfold Construct.arraySet.
    replace (xl / 2 <? 0)%Z with false
      by (symmetry; apply Z.ltb_ge; apply Z.div_pos; lia).
    reflexivity. }
  assert (Hhy' : (hy < length row)%nat) by (rewrite Hrow; exact Hhy).
  assert (Hhx' : (hx < length rows)%nat) by (rewrite Hrows; exact Hhx).
  destruct (@setAt_replace loc row hy home Hhy') as (Rl & Rn & Rk).
  destruct (@setAt_replace (list loc) rows hx
              (@Construct.setAt loc row hy home) Hhx') as (Ml & Mn & Mk).
  exists (upd h1 home
            (Position.new (xl / 2) (yl / 2) (Some 0)
               (Some Number_MAX_VALUE) (Some Position.TYPE_HOME))),
         (@Construct.setAt (list loc) rows hx
            (@Construct.setAt loc row hy home)).
  split; [rewrite Ey, Ex; reflexivity|].
  split; [etransitivity; [exact Ml|exact Hrows]|].
  split; [|split; [|split; [|split]]].
  - intros k r Hr. destruct (Nat.eq_dec k hx) as [->|Hne].
    + assert (Er : Some r = Some (Construct.setAt row hy home))
        by (etransitivity; [symmetry; exact Hr|exact Mn]).
      injection Er as ->. etransitivity; [exact Rl|exact Hrow].
    + assert (Er : nth_error rows k = Some r)
        by (etransitivity; [symmetry; apply Mk; assumption|exact Hr]).
      assert (Hk : (k < n)%nat).
      { rewrite <- Hrows. apply nth_error_Some. congruence. }
      unfold rows in Er. rewrite nth_error_rows in Er by assumption.
      injection Er as <-. apply length_seq.
  - intros ki kj Hki Hkj. destruct (Nat.eqb_spec ki hx) as [->|Hne].
    + eexists. split; [exact Mn|]. simpl.
      destruct (Nat.eqb_spec kj hy) as [->|Hne']; [exact Rn|].
      etransitivity; [apply Rk; assumption|]. unfold row.
      now apply nth_error_seq_lt.
    + eexists. split.
      * etransitivity; [apply Mk; assumption|]. unfold rows.
        now apply nth_error_rows.
      * simpl. now apply nth_error_seq_lt.
  - apply upd_same.
  - intros ki kj Hki Hkj. rewrite upd_other.
    + rewrite Hcells by assumption. reflexivity.
    + unfold home. nia.
  - intros l Hl. rewrite upd_other by (unfold home; lia).
    apply Hrest. lia.
Qed.

(** X24.  For positive [xl] and [yl] the constructor succeeds and builds an
    [xl] by [yl] rectangle of fresh cells that know their coordinates: the
    cell at the centre [(xl / 2, yl / 2)] is the home cell of the world,
    of type Home with [Number.MAX_VALUE] in its home channel, and every
    other cell is Normal without pheromone; the check list is empty and
    the objects that existed before are untouched. *)
Theorem construct_grid (xl yl : Z) (h : Heap) (next : loc) :
  (0 < xl)%Z -> (0 < yl)%Z ->
  exists h' w next',
    Construct._init xl yl h next = Some (h', w, next') /\
    gridOK h' (World.map w) xl yl /\
    World.checkList w = [] /\
    cellAt (World.map w) (xl / 2) (yl / 2) (World.homePosition w) /\
    (forall i j c, (0 <= i < xl)%Z -> (0 <= j < yl)%Z ->
       cellAt (World.map w) i j c ->
       h' c = if ((i =? xl / 2) && (j =? yl / 2))%Z
              then Position.new i j (Some 0) (Some Number_MAX_VALUE)
                     (Some Position.TYPE_HOME)
              else Position.new i j None None None) /\
    (forall l, (l < next)%nat -> h' l = h l).
Proof.
  intros Hxl Hyl.
  destruct (construct_cells h next Hxl Hyl)
    as (h' & map & E & Hlen & Hrows & Hcell & Hhome & Hother & Hold).
  set (n := Z.to_nat xl) in *. set (m := Z.to_nat yl) in *.
  set (hx := Z.to_nat (xl / 2)) in *. set (hy := Z.to_nat (yl / 2)) in *.
  set (home := (next + n * m)%nat) in *.
  assert (Hx2 : (0 <= xl / 2 < xl)%Z)
    by (split; [apply Z.div_pos; lia|apply Z.div_lt; lia]).
  assert (Hy2 : (0 <= yl / 2 < yl)%Z)
    by (split; [apply Z.div_pos; lia|apply Z.div_lt; lia]).
  assert (Hat : forall i j c, (0 <= i < xl)%Z -> (0 <= j < yl)%Z ->
                  cellAt map i j c ->
                  c = (if ((i =? xl / 2) && (j =? yl / 2))%Z then home
                       else (next + Z.to_nat i * m + Z.to_nat j)%nat)).
  { intros i j c Hi Hj (row & Hr & Hc).
    destruct (Hcell (Z.to_nat i) (Z.to_nat j)) as (row' & Hr' & Hc');
      [unfold n; lia|unfold m; lia|].
    rewrite Hr in Hr'. injection Hr' as <-. rewrite Hc in Hc'.
    injection Hc' as ->.
    replace (Z.to_nat i =? hx)%nat with (i =? xl / 2)%Z.
    - replace (Z.to_nat j =? hy)%nat with (j =? yl / 2)%Z; [reflexivity|].
      destruct (Z.eqb_spec j (yl / 2)) as [->|Hne]; symmetry.
      + apply Nat.eqb_refl.
      + apply Nat.eqb_neq. unfold hy. lia.
    - destruct (Z.eqb_spec i (xl / 2)) as [->|Hne]; symmetry.
      + apply Nat.eqb_refl.
      + apply Nat.eqb_neq. unfold hx. lia. }
  assert (Hval : forall i j c, (0 <= i < xl)%Z -> (0 <= j < yl)%Z ->
                   cellAt map i j c ->
                   h' c = if ((i =? xl / 2) && (j =? yl / 2))%Z
                          then Position.new i j (Some 0)
                                 (Some Number_MAX_VALUE)
                                 (Some Position.TYPE_HOME)
                          else Position.new i j None None None).
  { intros i j c Hi Hj Hc. rewrite (Hat i j c Hi Hj Hc).
    destruct ((i =? xl / 2) && (j =? yl / 2))%Z eqn:Eb.
    - apply andb_true_iff in Eb as [Ei Ej].
      apply Z.eqb_eq in Ei, Ej. subst i j. exact Hhome.
    - rewrite Hother by (unfold n, m; lia).
      rewrite !Z2Nat.id by lia. reflexivity. }
  assert (Hex : forall i j, (0 <= i < xl)%Z -> (0 <= j < yl)%Z ->
                  exists c, cellAt map i j c).
  { intros i j Hi Hj.
    destruct (Hcell (Z.to_nat i) (Z.to_nat j)) as (row & Hr & Hc);
      [unfold n; lia|unfold m; lia|].
    eexists. exists row. split; eassumption. }
  exists h', {| World.map := map; World.checkList := [];
                World.homePosition := home |}, (S home).
  split; [exact E|]. simpl.
  split; [|split; [reflexivity|split; [|split; assumption]]].
  - split; [unfold n in Hlen; lia|]. split.
    + intros row Hin. apply In_nth_error in Hin as (k & Hk).
      rewrite (Hrows k row Hk). unfold m. lia.
    + intros i j Hi Hj. destruct (Hex i j Hi Hj) as (c & Hc).
      exists c. split; [assumption|].
      rewrite (Hval i j c Hi Hj Hc).
      destruct ((i =? xl / 2) && (j =? yl / 2))%Z; split; reflexivity.
  - destruct (Hcell hx hy) as (row & Hr & Hc);
      [unfold hx, n; lia|unfold hy, m; lia|].
    rewrite !Nat.eqb_refl in Hc. exists row. split; assumption.
Qed.

Lemma construct_grid_witness :
  (0 < 3)%Z /\
  exists h' w next',
    Construct._init 3 3 blankHeap 0%nat = Some (h', w, next') /\
    gridOK h' (World.map w) 3 3.
Proof.
  assert (H : (0 < 3)%Z) by reflexivity.
  split; [exact H|].
  destruct (@construct_grid 3 3 blankHeap 0%nat H H)
    as (h' & w & next' & E & G & _).
  exists h', w, next'. split; [exact E|exact G].
Defined.

(** X25.  The constructor raises (a [TypeError], on the missing column of
    the home cell) exactly when [xl] is not positive; [yl] plays no part
    in this. *)
Theorem construct_raises (xl yl : Z) (h : Heap) (next : loc) :
  Construct._init xl yl h next = None <-> (xl <= 0)%Z.
Proof.
  destruct (gridLoop_spec (Z.to_nat xl) yl [] h next) as (Hmap & _).
  simpl in Hmap. unfold Construct._init.
  destruct (Construct.gridLoop (Z.to_nat xl) yl 0 [] h next)
    as [[map h1] next1].
  simpl in Hmap.
  assert (Hlen : length map = Z.to_nat xl)
    by (rewrite Hmap, length_map, length_seq; reflexivity).
  clear Hmap. unfold Construct.parseInt_half. split.
  - intros E. destruct (Z.le_gt_cases xl 0) as [Hle|Hgt]; [assumption|].
    exfalso. rewrite Z.quot_div_nonneg in E by lia.
    assert (H0 : (0 <= xl / 2)%Z) by (apply Z.div_pos; lia).
    assert (H1 : (xl / 2 < xl)%Z) by (apply Z.div_lt; lia).
    destruct (xl / 2 <? 0)%Z eqn:Eneg; [apply Z.ltb_lt in Eneg; lia|].
    destruct (nth_error map (Z.to_nat (xl / 2))) as [row|] eqn:En;
      [discriminate|].
    apply nth_error_None in En. lia.
  - intros Hle. destruct (Z.quot xl 2 <? 0)%Z; [reflexivity|].
    destruct map as [|row map]; [|simpl in Hlen; lia].
    now destruct (Z.to_nat (Z.quot xl 2)).
Qed.

(** ** Position.move on the grid *)

Lemma corridor_grid : gridOK corridorHeap (World.map corridor) 5 1.
Proof.
  split; [reflexivity|]. split.
  - intros row Hin. simpl in Hin.
    destruct Hin as [<-|[<-|[<-|[<-|[<-|[]]]]]]; reflexivity.
  - intros i j Hi Hj. assert (j = 0%Z) by lia. subst j.
    assert (Hi' : i = 0%Z \/ i = 1%Z \/ i = 2%Z \/ i = 3%Z \/ i = 4%Z)
      by lia.
    destruct Hi' as [->|[->|[->|[->| ->]]]]; eexists;
      (split; [eexists; split; reflexivity|split; reflexivity]).
Qed.

(** X26.  On a rectangular grid whose cells know their coordinates, [move]
    returns the cell whose coordinates are those of the start plus [deep]
    times the direction when these are inside the grid, and [null] in
    every other case. *)
Theorem move_on_grid (h : Heap) (map : list (list loc)) (xl yl : Z)
    (c : loc) (d : Z * Z) (deep : option Z) :
  gridOK h map xl yl ->
  let k := match deep with Some k => k | None => 1%Z end in
  let tx := (Position.x (h c) + fst d * k)%Z in
  let ty := (Position.y (h c) + snd d * k)%Z in
  ((0 <= tx < xl)%Z /\ (0 <= ty < yl)%Z ->
   exists c', Position.move (h c) d map deep = Some c' /\
              Position.x (h c') = tx /\ Position.y (h c') = ty) /\
  (~ ((0 <= tx < xl)%Z /\ (0 <= ty < yl)%Z) ->
   Position.move (h c) d map deep = None).
Proof.
  intros (Hlen & Hrows & Hcells) k tx ty.
  assert (Hhd : map <> [] -> Z.of_nat (length (hd [] map)) = yl).
  { intros Hne. apply Hrows. destruct map; [congruence|now left]. }
  unfold Position.move. fold k. fold tx. fold ty. split.
  - intros [Hx Hy].
    assert (Hne : map <> []) by (intros ->; simpl in Hlen; lia).
    rewrite Hlen, (Hhd Hne).
    replace ((tx <? 0) || (ty <? 0) || (tx >=? xl) || (ty >=? yl))%Z
      with false.
    + destruct (Hcells tx ty Hx Hy) as (c' & (row & Hr & Hc) & Ex & Ey).
      rewrite Hr. exists c'. split; [assumption|]. split; assumption.
    + symmetry. rewrite !orb_false_iff, !Z.geb_leb.
      repeat split; try (apply Z.ltb_ge; lia); apply Z.leb_gt; lia.
  - intros Hout.
    destruct ((tx <? 0) || (ty <? 0) || (tx >=? Z.of_nat (length map))
              || (ty >=? Z.of_nat (length (hd [] map))))%Z eqn:E;
      [reflexivity|exfalso].
    rewrite !orb_false_iff, !Z.geb_leb in E.
    destruct E as [[[E1 E2] E3] E4].
    apply Z.ltb_ge in E1, E2. apply Z.leb_gt in E3, E4.
    assert (Hne : map <> []) by (intros ->; simpl in E3; lia).
    rewrite (Hhd Hne) in E4. apply Hout. lia.
Qed.

Lemma move_on_grid_witness :
  gridOK corridorHeap (World.map corridor) 5 1 /\
  Position.move (corridorHeap 1%nat) (1, 0)%Z (World.map corridor) None
  = Some (World.homePosition corridor).
Proof.
  split; [exact corridor_grid|].
  destruct (proj1 (@move_on_grid corridorHeap (World.map corridor) 5 1
                     1%nat (1, 0)%Z None corridor_grid))
    as (c' & E & _); [cbn; lia|].
  rewrite E. vm_compute in E. injection E as <-. reflexivity.
Defined.


(** ** The grid under the simulation *)

Lemma gridOK_kept (h h' : Heap) (map : list (list loc)) (xl yl : Z) :
  cellsKept h h' -> gridOK h map xl yl -> gridOK h' map xl yl.
Proof.
  intros Hk (Hlen & Hrows & Hcells).
  split; [assumption|]. split; [assumption|].
  intros i j Hi Hj. destruct (Hcells i j Hi Hj) as (c & Hc & Ex & Ey).
  exists c. destruct (Hk c) as (_ & Hx & Hy & _).
  split; [assumption|]. split; congruence.
Qed.

Section GridKept.

Variable Direction_M : list (Z * Z).
Variable Math_pow : number -> number -> number.
Variable Math_sqrt : number -> number.
Variable P : World.Params.

Local Abbreviation _run := (Aco._run Direction_M Math_pow Math_sqrt P).

(** X27.  A call of [_run] keeps the grid a rectangle of cells that know
    their coordinates, and [Position.move] answers after the call what it
    answered before it, from every cell, in every direction and at every
    depth: the ants and the evaporation never rewire the grid. *)
Theorem run_keeps_grid (st : Aco.State) (w : World.t) (xl yl : Z) :
  Aco.world st = Some w ->
  gridOK (Aco.heap st) (World.map w) xl yl ->
  exists w',
    Aco.world (_run st) = Some w' /\
    gridOK (Aco.heap (_run st)) (World.map w') xl yl /\
    forall c d deep,
      Position.move (Aco.heap (_run st) c) d (World.map w') deep
      = Position.move (Aco.heap st c) d (World.map w) deep.
Proof.
  intros Hw Hg.
  destruct (@run_kept Direction_M Math_pow Math_sqrt P st w Hw)
    as (w' & Hw' & Hk & (Hmap & _) & _).
  simpl in Hk, Hmap. exists w'. split; [assumption|]. rewrite Hmap. split.
  - exact (gridOK_kept Hk Hg).
  - intros c d deep. destruct (Hk c) as (_ & Hx & Hy & _).
    unfold Position.move. rewrite Hx, Hy. reflexivity.
Qed.

End GridKept.

Lemma run_keeps_grid_witness :
  exists w',
    Aco.world (Aco._run sampleM samplePow sampleSqrt sampleParams
                 sampleState) = Some w' /\
    gridOK (Aco.heap (Aco._run sampleM samplePow sampleSqrt sampleParams
                        sampleState)) (World.map w') 5 1.
Proof.
  assert (Hg : gridOK (Aco.heap sampleState) (World.map corridor) 5 1)
    by exact corridor_grid.
  destruct (@run_keeps_grid sampleM samplePow sampleSqrt sampleParams
              sampleState corridor 5 1 eq_refl Hg) as (w' & Hw' & Hg' & _).
  exists w'. split; assumption.
Defined.


(** ** World._getCheckedIndex: the first index of a cell *)

(** X28.  [_getCheckedIndex] answers [-1] exactly for the cells that are
    not in the check list; for a cell of the list it answers the index of
    its first entry. *)
Theorem getCheckedIndex_first (w : World.t) (position : loc) :
  let i := World._getCheckedIndex w position in
  (i = (-1)%Z <-> ~ In position (World.checkList w)) /\
  (In position (World.checkList w) ->
   (0 <= i < Z.of_nat (length (World.checkList w)))%Z /\
   nth_error (World.checkList w) (Z.to_nat i) = Some position /\
   forall k, (k < Z.to_nat i)%nat ->
             nth_error (World.checkList w) k <> Some position).
Proof.
  unfold World._getCheckedIndex.
  destruct (getCheckedIndex_from_spec (World.checkList w) position 0)
    as [[Hn E]|(l1 & l2 & Ecl & Hn & E)]; rewrite E; clear E.
  - split; [tauto|contradiction].
  - assert (Hin : In position (World.checkList w))
      by (rewrite Ecl; apply in_or_app; right; now left).
    split; [split; [lia|tauto]|]. intros _.
    rewrite Z.add_0_l, Nat2Z.id, Ecl. split.
    + rewrite length_app. simpl. lia.
    + split.
      * rewrite nth_error_app2 by lia. now rewrite Nat.sub_diag.
      * intros k Hk Ek. rewrite nth_error_app1 in Ek by assumption.
        apply Hn. eapply nth_error_In, Ek.
Qed.

Lemma getCheckedIndex_first_witness :
  In 2%nat (World.checkList threeCells) /\
  nth_error (World.checkList threeCells)
    (Z.to_nat (World._getCheckedIndex threeCells 2%nat)) = Some 2%nat.
Proof.
  assert (H : In 2%nat (World.checkList threeCells))
    by (right; left; reflexivity).
  split; [exact H|].
  exact (proj1 (proj2 (proj2 (@getCheckedIndex_first threeCells 2%nat) H))).
Defined.
